(** * Variational order inference: order inspection and preprocessing

    A shallow embedding of the pure parts of

    - [voi/core/inspect_order.py]: the edit distance [levenshtein], the
      preparation of batches and of permutations, the recovery of
      absolute positions from relative positions, and the call of the
      search decoder (modules [Lev], [Batch], [Perm], [Search]);
    - [voi/process/captions_wmt.py]: the construction of the vocabulary
      and the encoding of the sentences (module [Wmt]);
    - [voi/nn/layers/permutation_layer.py]: the validity mask handed to
      the stick-breaking normalizer (module [PermLayer]);

    together with the properties stated about them.  Tensors are lists
    along their leading axis, Python lists updated by index are stdpp
    lists with [<[i:=v]>], files are a finite map from paths to contents,
    and Python exceptions are the [Raise] branch of a small error monad.
    Functions of the repository that the sources only import
    ([voi.permutation_utils], [voi.algorithms], [voi.nn.base]) are either
    parameters of a section or, where a property is about them, modelled
    from the specification; the latter carry a remark that says so. *)

From Stdlib Require Import ZArith QArith Lia Lqa.
From stdpp Require Import base list strings sorting gmap.

Open Scope nat_scope.

(** ** Python control flow *)

(** [for i in range(lo, hi): s = body(i, s)] *)
Definition for_range {S : Type} (lo hi : nat) (body : nat → S → S) (s : S) : S :=
  foldl (λ acc i, body i acc) s (seq lo (hi - lo)).

(** Python's three-argument [min]. *)
Definition min3 (a b c : nat) : nat := a `min` (b `min` c).

(** The invariant rule of a [for] loop over a range. *)
Lemma for_range_ind {St : Type} (P : nat → St → Prop) (lo hi : nat)
    (body : nat → St → St) (s : St) :
  lo ≤ hi →
  P lo s →
  (∀ i t, lo ≤ i < hi → P i t → P (S i) (body i t)) →
  P hi (for_range lo hi body s).
Proof.
  intros Hle H0 Hstep. unfold for_range.
  assert (Hgen : ∀ n, lo + n ≤ hi →
            P (lo + n) (foldl (λ acc i, body i acc) s (seq lo n))).
  { induction n as [|n IH]; intros Hn.
    - simpl. by rewrite Nat.add_0_r.
    - rewrite seq_S, foldl_app. simpl.
      replace (lo + S n) with (S (lo + n)) by lia.
      apply Hstep; [lia|]. apply IH. lia. }
  specialize (Hgen (hi - lo)).
  replace (lo + (hi - lo)) with hi in Hgen by lia. apply Hgen. lia.
Qed.

(** ** Python exceptions *)

(** The exceptions the modelled code can raise. *)
Inductive exn : Set :=
  | KeyError
  | UnboundLocalError
  | NameError
  | NotImplementedError
  | TypeError
  | ValueError.

(** A computation returns a value or raises an exception. *)
Inductive result (A : Type) : Type :=
  | Return (a : A)
  | Raise (e : exn).
Arguments Return {A} a.
Arguments Raise {A} e.

(** Sequencing, with stdpp's notation [x ← c; k]. *)
#[global] Instance result_bind : MBind result :=
  λ A B k c, match c with
             | Return a => k a
             | Raise e => Raise e
             end.

(** [raises c]: the computation produces no result. *)
Definition raises {A : Type} (c : result A) : Prop :=
  match c with
  | Return _ => False
  | Raise _ => True
  end.

(** ** [levenshtein] (inspect_order.py, lines 24-46) *)

Module Lev.

(** A dense [numpy] matrix of naturals: a list of rows.  The source
    stores floats, but only ever writes small integers into it. *)
Abbreviation np_matrix := (list (list nat)).

Section Levenshtein.
Context {A : Type} `{EqDecision A}.

(** [np.zeros((r, c))] *)
Definition np_zeros (r c : nat) : np_matrix := replicate r (replicate c 0).

(** [matrix[x, y]] *)
Definition mget (m : np_matrix) (x y : nat) : nat := (m !!! x) !!! y.

(** [matrix[x, y] = v] *)
Definition mset (m : np_matrix) (x y v : nat) : np_matrix :=
  <[x := <[y := v]> (m !!! x)]> m.

(** The body of the inner loop, lines 36-45. *)
Definition lev_cell (seq1 seq2 : list A) (x y : nat) (matrix : np_matrix) : np_matrix :=
  if decide (seq1 !! (x - 1) = seq2 !! (y - 1)) then
    mset matrix x y (min3 (mget matrix (x - 1) y + 1)
                          (mget matrix (x - 1) (y - 1))
                          (mget matrix x (y - 1) + 1))
  else
    mset matrix x y (min3 (mget matrix (x - 1) y + 1)
                          (mget matrix (x - 1) (y - 1) + 1)
                          (mget matrix x (y - 1) + 1)).

(** The matrix after the three loops, lines 26-45. *)
Definition lev_matrix (seq1 seq2 : list A) : np_matrix :=
  let size_x := length seq1 + 1 in
  let size_y := length seq2 + 1 in
  let matrix := np_zeros size_x size_y in
  let matrix := for_range 0 size_x (λ x m, mset m x 0 x) matrix in
  let matrix := for_range 0 size_y (λ y m, mset m 0 y y) matrix in
  for_range 1 size_x (λ x m, for_range 1 size_y (lev_cell seq1 seq2 x) m) matrix.

Definition levenshtein (seq1 seq2 : list A) : nat :=
  let size_x := length seq1 + 1 in
  let size_y := length seq2 + 1 in
  mget (lev_matrix seq1 seq2) (size_x - 1) (size_y - 1).

(** *** Edit operations

    One insertion, deletion or substitution of a single element, at any
    place of the sequence. *)
Inductive edit1 : list A → list A → Prop :=
  | edit_ins l1 l2 x : edit1 (l1 ++ l2) (l1 ++ x :: l2)
  | edit_del l1 l2 x : edit1 (l1 ++ x :: l2) (l1 ++ l2)
  | edit_sub l1 l2 x y : edit1 (l1 ++ x :: l2) (l1 ++ y :: l2).

(** [edits n a b]: [a] is transformed into [b] by [n] edit operations. *)
Inductive edits : nat → list A → list A → Prop :=
  | edits_O a : edits 0 a a
  | edits_S n a b c : edit1 a b → edits n b c → edits (S n) a c.

(** *** The recurrence computed by the loops

    [dist a b] follows the recurrence of lines 36-45 on the sequences read
    from their heads. *)
Fixpoint dist (a : list A) : list A → nat :=
  match a with
  | [] => λ b, length b
  | x :: a' =>
      fix row (b : list A) : nat :=
        match b with
        | [] => S (length a')
        | y :: b' =>
            min3 (dist a' (y :: b') + 1)
                 (dist a' b' + (if decide (x = y) then 0 else 1))
                 (row b' + 1)
        end
  end.

(** [align n a b]: an alignment of [a] with [b] that uses [n] insertions,
    deletions and substitutions. *)
Inductive align : nat → list A → list A → Prop :=
  | align_nil : align 0 [] []
  | align_del n x a b : align n a b → align (S n) (x :: a) b
  | align_ins n y a b : align n a b → align (S n) a (y :: b)
  | align_sub n x y a b :
      align n a b → align (n + (if decide (x = y) then 0 else 1)) (x :: a) (y :: b).

(** The shape of the matrix, kept by every assignment. *)
Definition shaped (r c : nat) (m : np_matrix) : Prop :=
  length m = r ∧ ∀ i, i < r → length (m !!! i) = c.

(** The value the finished matrix holds at [i, j]: the distance between
    the first [i] elements of [seq1] and the first [j] of [seq2]. *)
Definition prefix_dist (seq1 seq2 : list A) (i j : nat) : nat :=
  dist (reverse (take i seq1)) (reverse (take j seq2)).

(** *** Reading and writing matrix cells *)

Lemma np_zeros_shaped r c : shaped r c (np_zeros r c).
Proof.
  unfold np_zeros. split; [apply length_replicate|].
  intros i Hi. rewrite lookup_total_replicate_2 by done. apply length_replicate.
Qed.

Lemma mset_shaped r c m x y v : shaped r c m → shaped r c (mset m x y v).
Proof.
  intros [Hr Hc]. unfold mset. split; [by rewrite length_insert|].
  intros i Hi. destruct (decide (x = i)) as [->|Hne].
  - rewrite list_lookup_total_insert_eq by lia. rewrite length_insert. by apply Hc.
  - rewrite list_lookup_total_insert_ne by done. by apply Hc.
Qed.

Lemma mget_mset r c m x y v i j :
  shaped r c m → x < r → y < c →
  mget (mset m x y v) i j = if decide (i = x ∧ j = y) then v else mget m i j.
Proof.
  intros [Hr Hc] Hx Hy. unfold mget, mset.
  destruct (decide (x = i)) as [->|Hne].
  - rewrite list_lookup_total_insert_eq by lia.
    destruct (decide (y = j)) as [->|Hj].
    + rewrite list_lookup_total_insert_eq by (rewrite Hc; lia).
      rewrite decide_True; [done|by split].
    + rewrite list_lookup_total_insert_ne by done.
      rewrite decide_False; [done|]. intros [_ ?]. congruence.
  - rewrite list_lookup_total_insert_ne by done.
    rewrite decide_False; [done|]. intros [? _]. congruence.
Qed.

(** *** Equations of the recurrence *)

Lemma dist_nil_r (a : list A) : dist a [] = length a.
Proof. by destruct a. Qed.

Lemma dist_cons x y (a b : list A) :
  dist (x :: a) (y :: b) =
  min3 (dist a (y :: b) + 1)
       (dist a b + (if decide (x = y) then 0 else 1))
       (dist (x :: a) b + 1).
Proof. done. Qed.

Lemma dist_refl (a : list A) : dist a a = 0.
Proof.
  induction a as [|x a IH]; [done|].
  rewrite dist_cons, IH. rewrite decide_True by done. unfold min3. lia.
Qed.

Lemma dist_sym (a b : list A) : dist a b = dist b a.
Proof.
  revert b. induction a as [|x a IHa]; intros b.
  - by rewrite dist_nil_r.
  - induction b as [|y b IHb]; [done|].
    rewrite !dist_cons, IHb, (IHa (y :: b)), (IHa b).
    destruct (decide (x = y)), (decide (y = x)); try congruence; unfold min3; lia.
Qed.

(** *** What the three loops leave in the matrix *)

Lemma prefix_dist_0_l (seq1 seq2 : list A) j :
  j ≤ length seq2 → prefix_dist seq1 seq2 0 j = j.
Proof.
  intros Hj. unfold prefix_dist. rewrite take_0. simpl.
  rewrite length_reverse, length_take. lia.
Qed.

Lemma prefix_dist_0_r (seq1 seq2 : list A) i :
  i ≤ length seq1 → prefix_dist seq1 seq2 i 0 = i.
Proof.
  intros Hi. unfold prefix_dist. rewrite take_0, dist_nil_r.
  rewrite length_reverse, length_take. lia.
Qed.

Lemma prefix_dist_S (seq1 seq2 : list A) i j :
  i < length seq1 → j < length seq2 →
  prefix_dist seq1 seq2 (S i) (S j) =
  min3 (prefix_dist seq1 seq2 i (S j) + 1)
       (prefix_dist seq1 seq2 i j
        + (if decide (seq1 !! i = seq2 !! j) then 0 else 1))
       (prefix_dist seq1 seq2 (S i) j + 1).
Proof.
  intros Hi Hj. unfold prefix_dist.
  destruct (lookup_lt_is_Some_2 seq1 i Hi) as [x Hx].
  destruct (lookup_lt_is_Some_2 seq2 j Hj) as [y Hy].
  rewrite (take_S_r seq1 i x Hx), (take_S_r seq2 j y Hy), !reverse_snoc.
  rewrite dist_cons, Hx, Hy.
  destruct (decide (x = y)), (decide (Some x = Some y)); congruence.
Qed.

(** The two initialisation loops fill row 0 and column 0. *)
Lemma lev_init_spec (seq1 seq2 : list A) :
  let size_x := length seq1 + 1 in
  let size_y := length seq2 + 1 in
  let m := for_range 0 size_y (λ y m, mset m 0 y y)
             (for_range 0 size_x (λ x m, mset m x 0 x) (np_zeros size_x size_y)) in
  shaped size_x size_y m ∧
  ∀ i j, i < size_x → j < size_y → i = 0 ∨ j = 0 →
         mget m i j = prefix_dist seq1 seq2 i j.
Proof.
  intros size_x size_y.
  assert (H1 : let m1 := for_range 0 size_x (λ x m, mset m x 0 x)
                           (np_zeros size_x size_y) in
               shaped size_x size_y m1 ∧ ∀ i, i < size_x → mget m1 i 0 = i).
  { apply (for_range_ind
      (λ x m, shaped size_x size_y m ∧ ∀ i, i < x → mget m i 0 = i)); [lia| |].
    - split; [apply np_zeros_shaped|]. lia.
    - intros x m Hx [Hs Hm]. split; [by apply mset_shaped|].
      intros i Hi. rewrite (mget_mset size_x size_y) by (done || lia).
      case_decide as Hd; [by destruct Hd as [-> _]|]. apply Hm. lia. }
  destruct H1 as [Hs1 Hm1]. simpl.
  set (m1 := for_range 0 size_x _ _) in *.
  assert (H2 : let m2 := for_range 0 size_y (λ y m, mset m 0 y y) m1 in
               shaped size_x size_y m2 ∧
               (∀ j, j < size_y → mget m2 0 j = j) ∧
               (∀ i, 0 < i < size_x → mget m2 i 0 = i)).
  { apply (for_range_ind
      (λ y m, shaped size_x size_y m ∧ (∀ j, j < y → mget m 0 j = j) ∧
              (∀ i, 0 < i < size_x → mget m i 0 = i))); [lia| |].
    - split; [done|]. split; [lia|]. intros i Hi. apply Hm1. lia.
    - intros y m Hy (Hs & Hr & Hc). split; [by apply mset_shaped|]. split.
      + intros j Hj. rewrite (mget_mset size_x size_y) by (done || lia).
        case_decide as Hd; [by destruct Hd as [_ ->]|]. apply Hr. lia.
      + intros i Hi. rewrite (mget_mset size_x size_y) by (done || lia).
        case_decide; [lia|]. by apply Hc. }
  destruct H2 as (Hs2 & Hr2 & Hc2). split; [done|].
  intros i j Hi Hj [->| ->].
  - rewrite Hr2 by done. rewrite prefix_dist_0_l; [done|]. unfold size_y in Hj. lia.
  - destruct (decide (i = 0)) as [->|Hne].
    + rewrite Hr2 by done. by rewrite prefix_dist_0_l by lia.
    + rewrite Hc2 by lia. rewrite prefix_dist_0_r; [done|]. unfold size_x in Hi. lia.
Qed.

(** One execution of the inner loop body writes the cell [x, y] from its
    three neighbours. *)
Lemma lev_cell_spec (seq1 seq2 : list A) x y m :
  let size_x := length seq1 + 1 in
  let size_y := length seq2 + 1 in
  1 ≤ x < size_x → 1 ≤ y < size_y →
  shaped size_x size_y m →
  mget m (x - 1) y = prefix_dist seq1 seq2 (x - 1) y →
  mget m (x - 1) (y - 1) = prefix_dist seq1 seq2 (x - 1) (y - 1) →
  mget m x (y - 1) = prefix_dist seq1 seq2 x (y - 1) →
  ∀ i j, mget (lev_cell seq1 seq2 x y m) i j =
         if decide (i = x ∧ j = y) then prefix_dist seq1 seq2 x y else mget m i j.
Proof.
  intros size_x size_y Hx Hy Hs Hup Hdiag Hleft i j.
  assert (Hxy : prefix_dist seq1 seq2 x y =
    min3 (mget m (x - 1) y + 1)
         (mget m (x - 1) (y - 1)
          + (if decide (seq1 !! (x - 1) = seq2 !! (y - 1)) then 0 else 1))
         (mget m x (y - 1) + 1)).
  { rewrite Hup, Hdiag, Hleft. clear Hup Hdiag Hleft.
    destruct x as [|x']; [lia|]. destruct y as [|y']; [lia|].
    rewrite !Nat.sub_succ, !Nat.sub_0_r.
    apply prefix_dist_S; unfold size_x, size_y in *; lia. }
  unfold lev_cell. destruct (decide (seq1 !! (x - 1) = seq2 !! (y - 1))).
  - rewrite (mget_mset size_x size_y) by (done || lia).
    rewrite Hxy, Nat.add_0_r. done.
  - rewrite (mget_mset size_x size_y) by (done || lia).
    rewrite Hxy. done.
Qed.

Lemma lev_cell_shaped (seq1 seq2 : list A) x y r c m :
  shaped r c m → shaped r c (lev_cell seq1 seq2 x y m).
Proof. intros Hs. unfold lev_cell. case_decide; by apply mset_shaped. Qed.

(** After the nested loops every cell holds the distance between the
    corresponding prefixes. *)
Lemma lev_matrix_spec (seq1 seq2 : list A) i j :
  i ≤ length seq1 → j ≤ length seq2 →
  mget (lev_matrix seq1 seq2) i j = prefix_dist seq1 seq2 i j.
Proof.
  intros Hi Hj. unfold lev_matrix.
  set (size_x := length seq1 + 1). set (size_y := length seq2 + 1).
  destruct (lev_init_spec seq1 seq2) as [Hs0 Hm0].
  fold size_x size_y in Hs0, Hm0.
  set (m0 := for_range 0 size_y _ _) in *.
  pose (Inv := λ (x y : nat) (m : np_matrix),
    shaped size_x size_y m ∧
    ∀ i j, i < size_x → j < size_y →
           i = 0 ∨ j = 0 ∨ i < x ∨ (i = x ∧ j < y) →
           mget m i j = prefix_dist seq1 seq2 i j).
  assert (Hfin : Inv size_x 0
    (for_range 1 size_x (λ x m, for_range 1 size_y (lev_cell seq1 seq2 x) m) m0)).
  { apply (for_range_ind (λ x m, Inv x 0 m)); [unfold size_x; lia| |].
    - split; [done|]. intros i' j' Hi' Hj' Hc. apply Hm0; lia.
    - intros x m Hx [Hs Hm].
      assert (Hin : Inv x size_y (for_range 1 size_y (lev_cell seq1 seq2 x) m)).
      { apply (for_range_ind (λ y m, Inv x y m)); [unfold size_y; lia| |].
        - split; [done|]. intros i' j' Hi' Hj' Hc. apply Hm; lia.
        - intros y m' Hy [Hs' Hm']. split; [by apply lev_cell_shaped|].
          intros i' j' Hi' Hj' Hc.
          rewrite lev_cell_spec; [|done|done|done|apply Hm'; lia..].
          case_decide as Hd; [by destruct Hd as [-> ->]|].
          apply Hm'; [done|done|]. lia. }
      destruct Hin as [Hs' Hm']. split; [done|].
      intros i' j' Hi' Hj' Hc. apply Hm'; lia. }
  destruct Hfin as [_ Hm]. apply Hm; unfold size_x, size_y; lia.
Qed.

(** The value returned is the recurrence on the reversed sequences. *)
Lemma levenshtein_dist (seq1 seq2 : list A) :
  levenshtein seq1 seq2 = dist (reverse seq1) (reverse seq2).
Proof.
  unfold levenshtein. simpl.
  replace (length seq1 + 1 - 1) with (length seq1) by lia.
  replace (length seq2 + 1 - 1) with (length seq2) by lia.
  rewrite lev_matrix_spec by done. unfold prefix_dist.
  by rewrite !firstn_all.
Qed.

(** *** The recurrence is the cheapest alignment *)

Lemma dist_align (a b : list A) : align (dist a b) a b.
Proof.
  revert b. induction a as [|x a IHa]; intros b.
  - induction b as [|y b IHb]; simpl; [constructor|]. by apply align_ins.
  - induction b as [|y b IHb].
    + rewrite dist_nil_r. simpl. apply align_del.
      specialize (IHa []). by rewrite dist_nil_r in IHa.
    + rewrite dist_cons. unfold min3.
      destruct (Nat.min_spec (dist a (y :: b) + 1)
                  ((dist a b + (if decide (x = y) then 0 else 1))
                   `min` (dist (x :: a) b + 1))) as [[_ ->]|[_ ->]].
      * rewrite Nat.add_1_r. apply align_del, IHa.
      * destruct (Nat.min_spec (dist a b + (if decide (x = y) then 0 else 1))
                    (dist (x :: a) b + 1)) as [[_ ->]|[_ ->]].
        -- apply align_sub, IHa.
        -- rewrite Nat.add_1_r. apply align_ins, IHb.
Qed.

Lemma align_dist n (a b : list A) : align n a b → dist a b ≤ n.
Proof.
  induction 1 as [|n x a b _ IH|n y a b _ IH|n x y a b _ IH].
  - done.
  - destruct b as [|y b].
    + rewrite dist_nil_r in *. simpl. lia.
    + rewrite dist_cons. unfold min3. lia.
  - destruct a as [|x a].
    + simpl in *. lia.
    + rewrite dist_cons. unfold min3. lia.
  - rewrite dist_cons. unfold min3. lia.
Qed.

Lemma align_refl (a : list A) : align 0 a a.
Proof.
  induction a as [|x a IH]; [constructor|].
  pose proof (align_sub 0 x x a a IH) as H.
  by rewrite decide_True in H.
Qed.

Lemma align_app_l n (l a b : list A) : align n a b → align n (l ++ a) (l ++ b).
Proof.
  intros H. induction l as [|x l IH]; [done|]. simpl.
  pose proof (align_sub n x x _ _ IH) as H'.
  rewrite decide_True, Nat.add_0_r in H' by done. done.
Qed.

(** Alignments compose: the costs add up at most. *)
Lemma align_trans n m (a b c : list A) :
  align n a b → align m b c → ∃ k, k ≤ n + m ∧ align k a c.
Proof.
  intros Hab. revert m c.
  induction Hab as [|n x a b _ IH|n y a b _ IH|n x y a b _ IH]; intros m c Hbc.
  - exists m. split; [lia|done].
  - destruct (IH m c Hbc) as (k & Hk & Hal).
    exists (S k). split; [lia|]. by apply align_del.
  - remember (y :: b) as yb eqn:Hyb.
    induction Hbc as [|m y' b' c Hbc _|m z b' c Hbc IHc|m y' z b' c Hbc _].
    + done.
    + injection Hyb as -> ->. destruct (IH m c Hbc) as (k & Hk & Hal).
      exists k. split; [lia|done].
    + destruct (IHc Hyb) as (k & Hk & Hal).
      exists (S k). split; [lia|]. by apply align_ins.
    + injection Hyb as -> ->. destruct (IH m c Hbc) as (k & Hk & Hal).
      exists (S k). split; [lia|]. by apply align_ins.
  - remember (y :: b) as yb eqn:Hyb.
    induction Hbc as [|m y' b' c Hbc _|m z b' c Hbc IHc|m y' z b' c Hbc _].
    + done.
    + injection Hyb as -> ->. destruct (IH m c Hbc) as (k & Hk & Hal).
      exists (S k). split; [lia|]. by apply align_del.
    + destruct (IHc Hyb) as (k & Hk & Hal).
      exists (S k). split; [lia|]. by apply align_ins.
    + injection Hyb as -> ->. destruct (IH m c Hbc) as (k & Hk & Hal).
      exists (k + (if decide (x = z) then 0 else 1)). split; [|by apply align_sub].
      destruct (decide (x = z)), (decide (x = y)), (decide (y = z));
        try lia; congruence.
Qed.

Lemma edit1_align (a b : list A) : edit1 a b → ∃ k, k ≤ 1 ∧ align k a b.
Proof.
  destruct 1 as [l1 l2 x|l1 l2 x|l1 l2 x y].
  - exists 1. split; [done|]. apply align_app_l, align_ins, align_refl.
  - exists 1. split; [done|]. apply align_app_l, align_del, align_refl.
  - exists (0 + (if decide (x = y) then 0 else 1)). split; [case_decide; lia|].
    apply align_app_l, align_sub, align_refl.
Qed.

Lemma edits_align n (a b : list A) : edits n a b → ∃ k, k ≤ n ∧ align k a b.
Proof.
  induction 1 as [a|n a b c H1 _ (k & Hk & Hal)].
  - exists 0. split; [done|apply align_refl].
  - destruct (edit1_align _ _ H1) as (k1 & Hk1 & Hal1).
    destruct (align_trans _ _ _ _ _ Hal1 Hal) as (k' & Hk' & Hal').
    exists k'. split; [lia|done].
Qed.

(** *** Alignments are sequences of edit operations *)

Lemma edit1_cons x (a b : list A) : edit1 a b → edit1 (x :: a) (x :: b).
Proof.
  destruct 1 as [l1 l2 z|l1 l2 z|l1 l2 z y].
  - apply (edit_ins (x :: l1)).
  - apply (edit_del (x :: l1)).
  - apply (edit_sub (x :: l1)).
Qed.

Lemma edits_cons n x (a b : list A) : edits n a b → edits n (x :: a) (x :: b).
Proof.
  induction 1 as [a|n a b c H1 _ IH]; [constructor|].
  eapply edits_S; [by apply edit1_cons|done].
Qed.

Lemma align_edits n (a b : list A) : align n a b → edits n a b.
Proof.
  induction 1 as [|n x a b _ IH|n y a b _ IH|n x y a b _ IH].
  - constructor.
  - eapply edits_S; [apply (edit_del [] a x)|done].
  - eapply edits_S; [apply (edit_ins [] a y)|]. by apply edits_cons.
  - destruct (decide (x = y)) as [->|Hne].
    + rewrite Nat.add_0_r. by apply edits_cons.
    + rewrite Nat.add_1_r.
      eapply edits_S; [apply (edit_sub [] a x y)|]. by apply edits_cons.
Qed.

(** *** Edit operations commute with reversal *)

Lemma edit1_reverse (a b : list A) : edit1 a b → edit1 (reverse a) (reverse b).
Proof.
  destruct 1 as [l1 l2 x|l1 l2 x|l1 l2 x y];
    rewrite !reverse_app, ?reverse_cons, <- ?(assoc_L (++)); simpl.
  - apply edit_ins.
  - apply edit_del.
  - apply edit_sub.
Qed.

Lemma edits_reverse n (a b : list A) : edits n a b → edits n (reverse a) (reverse b).
Proof.
  induction 1 as [a|n a b c H1 _ IH]; [constructor|].
  eapply edits_S; [by apply edit1_reverse|done].
Qed.

(** ** C8 *)

(** C8. [levenshtein] is the edit distance: it is 0 between a sequence
    and itself, the length of the sequence against the empty sequence (on
    either side), symmetric, reached by some sequence of insertions,
    deletions and substitutions that turns [a] into [b], and not larger
    than the number of operations of any such sequence. *)
Theorem levenshtein_is_edit_distance (s a b : list A) :
  levenshtein s s = 0 ∧
  levenshtein s [] = length s ∧
  levenshtein [] s = length s ∧
  levenshtein a b = levenshtein b a ∧
  edits (levenshtein a b) a b ∧
  (∀ n, edits n a b → levenshtein a b ≤ n).
Proof.
  rewrite !levenshtein_dist. repeat split.
  - apply dist_refl.
  - rewrite dist_nil_r. apply length_reverse.
  - simpl. apply length_reverse.
  - apply dist_sym.
  - rewrite <- (reverse_involutive a) at 2. rewrite <- (reverse_involutive b) at 2.
    apply edits_reverse, align_edits, dist_align.
  - intros n Hn. apply edits_reverse, edits_align in Hn as (k & Hk & Hal).
    apply align_dist in Hal. lia.
Qed.

(** *** Further properties of the distance *)

Lemma align_length n (a b : list A) :
  align n a b → length a ≤ length b + n ∧ length b ≤ length a + n.
Proof. induction 1; simpl; lia. Qed.

Lemma align_zero n (a b : list A) : align n a b → n = 0 → a = b.
Proof.
  induction 1 as [|n x a b _ IH|n y a b _ IH|n x y a b _ IH]; intros Hn;
    [done|lia|lia|].
  destruct (decide (x = y)) as [->|]; [|lia]. f_equal. apply IH. lia.
Qed.

Lemma dist_reverse (a b : list A) : dist (reverse a) (reverse b) = dist a b.
Proof.
  apply Nat.le_antisymm.
  - pose proof (dist_align a b) as H.
    apply align_edits, edits_reverse, edits_align in H as (k & Hk & Hal).
    apply align_dist in Hal. lia.
  - pose proof (dist_align (reverse a) (reverse b)) as H.
    apply align_edits, edits_reverse, edits_align in H as (k & Hk & Hal).
    rewrite !reverse_involutive in Hal. apply align_dist in Hal. lia.
Qed.

Lemma dist_triangle (a b c : list A) : dist a c ≤ dist a b + dist b c.
Proof.
  destruct (align_trans _ _ _ _ _ (dist_align a b) (dist_align b c))
    as (k & Hk & Hal).
  apply align_dist in Hal. lia.
Qed.

Lemma dist_cons_same x (a b : list A) : dist (x :: a) (x :: b) = dist a b.
Proof.
  apply Nat.le_antisymm.
  - apply align_dist. pose proof (align_sub _ x x _ _ (dist_align a b)) as H.
    by rewrite decide_True, Nat.add_0_r in H.
  - rewrite dist_cons, decide_True, Nat.add_0_r by done.
    assert (H1 : dist (x :: b) b ≤ 1).
    { apply align_dist, align_del, align_refl. }
    assert (H2 : dist a (x :: a) ≤ 1).
    { apply align_dist, align_ins, align_refl. }
    pose proof (dist_triangle a (x :: b) b).
    pose proof (dist_triangle a (x :: a) b).
    unfold min3. lia.
Qed.

Lemma dist_app_same (p a b : list A) : dist (p ++ a) (p ++ b) = dist a b.
Proof. induction p as [|x p IH]; [done|]. simpl app. by rewrite dist_cons_same. Qed.

Lemma dist_le_max (a b : list A) : dist a b ≤ length a `max` length b.
Proof.
  revert b. induction a as [|x a IHa]; intros b; [simpl; lia|].
  induction b as [|y b IHb]; [rewrite dist_nil_r; simpl; lia|].
  rewrite dist_cons. specialize (IHa b). unfold min3. simpl length.
  case_decide; lia.
Qed.

Lemma levenshtein_le_max (a b : list A) :
  levenshtein a b ≤ length a `max` length b.
Proof. rewrite levenshtein_dist, dist_reverse. apply dist_le_max. Qed.

(** X1. The distance is symmetric and obeys the triangle inequality:
    going through a third sequence never costs less. *)
Theorem levenshtein_triangle (a b c : list A) :
  levenshtein a b = levenshtein b a ∧
  levenshtein a c ≤ levenshtein a b + levenshtein b c.
Proof.
  rewrite !levenshtein_dist. split; [apply dist_sym|apply dist_triangle].
Qed.

(** X2. The distance lies between the difference of the two lengths and
    the greater length; for two sequences of the same length [n] (the rank
    arrays of lines 656-674) it is at most [n]. *)
Theorem levenshtein_bounds (a b : list A) :
  length a - length b ≤ levenshtein a b ∧
  length b - length a ≤ levenshtein a b ∧
  levenshtein a b ≤ length a `max` length b.
Proof.
  rewrite levenshtein_dist, dist_reverse.
  destruct (align_length _ _ _ (dist_align a b)) as [H1 H2].
  split; [lia|]. split; [lia|]. apply dist_le_max.
Qed.

(** X3. The distance is 0 only between equal sequences. *)
Theorem levenshtein_zero_iff (a b : list A) : levenshtein a b = 0 ↔ a = b.
Proof.
  rewrite levenshtein_dist, dist_reverse. split.
  - intros H. apply (align_zero (dist a b)); [apply dist_align|done].
  - intros ->. apply dist_refl.
Qed.

(** X4. When the loops end, the cell [x, y] of the matrix holds the
    distance between the first [x] elements of [seq1] and the first [y]
    elements of [seq2]; row 0 and column 0 hold the lengths of the
    prefixes. *)
Theorem lev_matrix_prefixes (seq1 seq2 : list A) (x y : nat) :
  x ≤ length seq1 → y ≤ length seq2 →
  mget (lev_matrix seq1 seq2) x y = levenshtein (take x seq1) (take y seq2) ∧
  mget (lev_matrix seq1 seq2) x 0 = x ∧
  mget (lev_matrix seq1 seq2) 0 y = y.
Proof.
  intros Hx Hy. rewrite !lev_matrix_spec by (done || lia).
  split; [by rewrite levenshtein_dist|].
  by rewrite prefix_dist_0_r, prefix_dist_0_l.
Qed.

(** X5. A common prefix and a common suffix do not count: the distance is
    that of the parts in between. *)
Theorem levenshtein_common_affixes (p s a b : list A) :
  levenshtein (p ++ a ++ s) (p ++ b ++ s) = levenshtein a b.
Proof.
  rewrite !levenshtein_dist, !dist_reverse, dist_app_same.
  rewrite <- dist_reverse, !reverse_app, dist_app_same. apply dist_reverse.
Qed.

End Levenshtein.

(** X4 on the sequences [1 2 3] and [1 3]. *)
Lemma lev_matrix_prefixes_witness :
  mget (lev_matrix [1; 2; 3] [1; 3]) 3 1 = levenshtein [1; 2; 3] [1] ∧
  mget (lev_matrix [1; 2; 3] [1; 3]) 3 1 = 2.
Proof.
  split; [|reflexivity].
  apply (lev_matrix_prefixes [1; 2; 3] [1; 3] 3 1); simpl; lia.
Defined.

Example levenshtein_kitten_sitting :
  levenshtein (String.list_ascii_of_string "kitten")
              (String.list_ascii_of_string "sitting") = 3.
Proof. reflexivity. Qed.

Example levenshtein_ranks : levenshtein [0; 2; 1; 3] [0; 1; 2; 3] = 2.
Proof. reflexivity. Qed.

End Lev.

(** ** Batch preparation (inspect_order.py, lines 70-149) *)

Module Batch.

(** A tensor of rank at least one is the list of its slices along
    axis 0; [Row] is the type of those slices.  The leading (batch)
    dimension is the length of the list. *)
Abbreviation Tensor Row := (list Row) (only parsing).

(** An entry of the input list of the transformer: a tensor or [None]. *)
Abbreviation entry Row := (option (list Row)) (only parsing).

Section Prepare.
Context {Row : Type}.

(** Operations on the inner axes act slice by slice:
    [drop_last r] is [r[:-1]], [drop_first r] is [r[1:]],
    [greater0 r] is [tf.greater(r, 0)]; [zero] is the slice of
    [tf.zeros([batch_size])] and [zero1] the slice of
    [tf.zeros([batch_size, 1])]. *)
Variables (drop_last drop_first greater0 : Row → Row) (zero zero1 : Row).

(** [tf.shape(t)[0]] *)
Definition batch_dim (t : Tensor Row) : nat := length t.

(** [tf.repeat(t, n, axis=0)]: every slice is repeated [n] times in a
    row. *)
Definition tf_repeat (t : Tensor Row) (n : nat) : Tensor Row :=
  t ≫= replicate n.

(** [tf.zeros([batch_size])] with slices [z]. *)
Definition tf_zeros (batch_size : nat) (z : Row) : Tensor Row :=
  replicate batch_size z.

(** The local function [repeat_tensor_list], lines 91-95 and 132-136: the
    list is updated in place, index by index. *)
Definition repeat_tensor_list (lst : list (entry Row)) (n : nat) : list (entry Row) :=
  for_range 0 (length lst)
    (λ i lst, match lst !! i with
              | Some (Some t) => <[i := Some (tf_repeat t n)]> lst
              | _ => lst
              end) lst.

(** The dictionary of a captioning batch, with the keys of
    [coco_batch_spec]. *)
Record coco_batch := {
  image_indicators : Tensor Row;
  image_path : Tensor Row;
  tags : Tensor Row;
  words : Tensor Row;
  token_indicators : Tensor Row;
  global_features : Tensor Row;
  scores : Tensor Row;
  boxes : Tensor Row;
  labels : Tensor Row;
  boxes_features : Tensor Row }.

(** The dictionary of a translation batch, with the keys of
    [wmt_batch_spec]. *)
Record wmt_batch := {
  encoder_words : Tensor Row;
  encoder_token_indicators : Tensor Row;
  decoder_words : Tensor Row;
  decoder_token_indicators : Tensor Row }.

(** The list literal of lines 105-108, before it is repeated. *)
Definition lm_captioning_list (batch : coco_batch) : list (entry Row) :=
  let image_ind := image_indicators batch in
  let boxes_features := boxes_features batch in
  let boxes := boxes batch in
  let detections := labels batch in
  let words := words batch in
  let mask := token_indicators batch in
  let batch_size := batch_dim mask in
  [ Some (drop_last <$> words); Some (tf_zeros batch_size zero);
    Some (greater0 <$> (drop_last <$> mask)); Some (greater0 <$> image_ind);
    Some (drop_first <$> words); None; None; None; None; None; None;
    Some (tf_zeros batch_size zero);
    Some (tf_zeros batch_size zero); Some detections; Some boxes_features;
    Some boxes ].

Definition prepare_batch_for_lm_captioning (action_refinement : nat)
    (batch : coco_batch) : list (entry Row) :=
  repeat_tensor_list (lm_captioning_list batch) action_refinement.

(** The list literal of lines 145-149, before it is repeated. *)
Definition lm_wmt_list (batch : wmt_batch) : list (entry Row) :=
  let encoder_words := encoder_words batch in
  let encoder_token_ind := encoder_token_indicators batch in
  let words := decoder_words batch in
  let mask := decoder_token_indicators batch in
  let batch_size := batch_dim mask in
  [ Some (drop_last <$> words); Some encoder_words;
    Some (greater0 <$> (drop_last <$> mask)); Some (greater0 <$> encoder_token_ind);
    Some (drop_first <$> words); None; None; None; None; None; None;
    Some (tf_zeros batch_size zero);
    Some (tf_zeros batch_size zero); Some (tf_zeros batch_size zero);
    Some (tf_zeros batch_size zero); Some (tf_zeros batch_size zero1) ].

Definition prepare_batch_for_lm_wmt (action_refinement : nat)
    (batch : wmt_batch) : list (entry Row) :=
  repeat_tensor_list (lm_wmt_list batch) action_refinement.

(** *** [prepare_permutation] (inspect_order.py, lines 243-347) *)

(** An entry of the input list of the permutation transformer: the two
    scalar constants [pretrain_done] and [action_refinement] stand next to
    tensors and [None]. *)
Inductive pt_value : Type :=
  | PNone
  | PTensor (t : Tensor Row)
  | PBool (b : bool)
  | PInt (n : nat).

(** A batch dictionary is one of the two kinds of the batch specs. *)
Inductive batch_dict : Type :=
  | CocoBatch (b : coco_batch)
  | WmtBatch (b : wmt_batch).

(** The functions imported from modules outside this development, and the
    tensor operations on the inner axes, slice by slice:
    [is_start_end_or_pad r] is the test of lines 184-185 on a row of word
    ids, [trim_last r] is [r[:-1, :-1]], [trim_first r] is [r[1:, 1:]],
    [new_axis r] is [r[tf.newaxis]], [squeeze r] is [tf.squeeze] of the
    added axis, [minus] is the subtraction of line 316, [label_matmul v p w]
    is [tf.matmul(p, tf.one_hot(w, v))], [seq_len r] is the length of a
    row. *)
Variables (Model Decoder : Type).
Variable get_permutation : Tensor Row → Tensor Row → string → Tensor Row.
Variable permutation_to_relative : Tensor Row → Tensor Row.
Variable permutation_to_pointer : Tensor Row → Tensor Row * Tensor Row.
Variable pt_permutation_to_relative_l2r : nat → nat → nat → Tensor Row.
Variable order_call : Model → list pt_value → Tensor Row.
Variable order_call_pg :
  Model → list pt_value →
  Tensor Row * Tensor Row * Tensor Row * Tensor Row * Tensor Row.
Variables (is_start_end_or_pad logical_not trim_last trim_first new_axis squeeze : Row → Row).
Variable minus : Row → Row → Row.
Variable label_matmul : nat → Row → Row → Row.
Variable seq_len : Row → nat.

(** [tf.shape(words)[1]] *)
Definition inner_dim (t : Tensor Row) : nat :=
  match t with
  | [] => 0
  | r :: _ => seq_len r
  end.

(** Lines 155-195. *)
Definition prepare_batch_for_pt_captioning (pretrain_done : bool)
    (action_refinement : nat) (batch : coco_batch) : list pt_value :=
  let image_ind := image_indicators batch in
  let boxes_features := boxes_features batch in
  let boxes := boxes batch in
  let detections := labels batch in
  let words := words batch in
  let start_end_or_pad := is_start_end_or_pad <$> words in
  let l2r_relative :=
    pt_permutation_to_relative_l2r (batch_dim words) (inner_dim words) 10 in
  [ PTensor words; PNone;
    PTensor (logical_not <$> start_end_or_pad); PTensor (greater0 <$> image_ind);
    PBool pretrain_done; PInt action_refinement;
    PNone; PTensor l2r_relative; PNone; PNone; PNone; PNone; PNone;
    PTensor detections; PTensor boxes_features; PTensor boxes ].

(** Lines 201-240. *)
Definition prepare_batch_for_pt_wmt (pretrain_done : bool)
    (action_refinement : nat) (batch : wmt_batch) : list pt_value :=
  let encoder_words := encoder_words batch in
  let encoder_token_ind := encoder_token_indicators batch in
  let words := decoder_words batch in
  let start_end_or_pad := is_start_end_or_pad <$> words in
  let l2r_relative :=
    pt_permutation_to_relative_l2r (batch_dim words) (inner_dim words) 10 in
  [ PTensor words; PTensor encoder_words;
    PTensor (logical_not <$> start_end_or_pad);
    PTensor (greater0 <$> encoder_token_ind);
    PBool pretrain_done; PInt action_refinement;
    PNone; PTensor l2r_relative; PNone; PNone; PNone; PNone; PNone;
    PNone; PNone; PNone ].

(** The autoregressive ordering: a name or a keras model. *)
Inductive order_arg : Type :=
  | OrderName (name : string)
  | OrderModel (m : Model).

(** What lines 286-297 bind: [words], [mask], the list [inputs] and the
    function [prepare_batch_for_pt] applied to the batch.  Reading a key
    the dictionary does not have raises [KeyError]; with a dataset that is
    none of the known ones, [prepare_batch_for_lm] is unbound at line
    297. *)
Definition select_dataset (dataset : string) (batch : batch_dict) :
    result (Tensor Row * Tensor Row * list (entry Row)
            * (bool → nat → list pt_value)) :=
  if decide (dataset = "captioning") then
    match batch with
    | CocoBatch b =>
        Return (words b, token_indicators b,
                prepare_batch_for_lm_captioning 1 b,
                λ done n, prepare_batch_for_pt_captioning done n b)
    | WmtBatch _ => Raise KeyError
    end
  else if decide (dataset ∈ ["wmt"; "django"; "gigaword"]) then
    match batch with
    | WmtBatch b =>
        Return (decoder_words b, decoder_token_indicators b,
                prepare_batch_for_lm_wmt 1 b,
                λ done n, prepare_batch_for_pt_wmt done n b)
    | CocoBatch _ => Raise KeyError
    end
  else Raise UnboundLocalError.

(** Lines 299-316: the permutation comes from a fixed order or from the
    permutation transformer. *)
Definition choose_permutation (order : order_arg) (policy_gradient : string)
    (words mask : Tensor Row) (prepare_batch_for_pt : bool → nat → list pt_value)
    (inputs : list (entry Row)) : list (entry Row) * option (list pt_value) :=
  let inputs :=
    match order with
    | OrderName name =>
        if decide (name ∈ ["r2l"; "l2r"; "rare"; "common"; "test"])
        then <[5 := Some (get_permutation mask words name)]> inputs
        else inputs
    | OrderModel _ => inputs
    end in
  match order with
  | OrderModel m =>
      if decide (policy_gradient ≠ "without_bvn") then
        (<[5 := Some (order_call m (prepare_batch_for_pt true 1))]> inputs, None)
      else
        let permu_inputs := prepare_batch_for_pt true 1 in
        let '(p, activations, kl, log_nom, log_denom) :=
          order_call_pg m permu_inputs in
        let inputs := <[5 := Some p]> inputs in
        let permu_inputs := <[length permu_inputs - 6 := PTensor activations]> permu_inputs in
        let permu_inputs := <[length permu_inputs - 5 := PTensor kl]> permu_inputs in
        let permu_inputs :=
          <[length permu_inputs - 4 := PTensor (zip_with minus log_nom log_denom)]>
            permu_inputs in
        (inputs, Some permu_inputs)
  | OrderName _ => (inputs, None)
  end.

(** Lines 336-345, given the permutation [inputs[5]]. *)
Definition fill_positions (tgt_vocab_size : nat) (p : Tensor Row)
    (inputs : list (entry Row)) : result (list (entry Row)) :=
  let inputs := <[6 := Some (trim_last <$> p)]> inputs in
  let inputs := <[7 := Some (permutation_to_relative p)]> inputs in
  let '(hard_pointer_labels, partial_pos) := permutation_to_pointer (new_axis <$> p) in
  let inputs := <[10 := Some partial_pos]> inputs in
  let inputs := <[8 := Some (squeeze <$> hard_pointer_labels)]> inputs in
  match inputs !! 4 with
  | Some (Some labels) =>
      Return (<[9 := Some (zip_with (label_matmul tgt_vocab_size)
                             (trim_first <$> p) labels)]> inputs)
  | _ => Raise TypeError
  end.

Definition prepare_permutation (batch : batch_dict) (tgt_vocab_size : nat)
    (order : order_arg) (dataset : string) (policy_gradient : string)
    (decoder : option Decoder) :
    result (list (entry Row) * option (list pt_value)) :=
  '(words, mask, inputs, prepare_batch_for_pt) ← select_dataset dataset batch;
  let '(inputs, permu_inputs) :=
    choose_permutation order policy_gradient words mask prepare_batch_for_pt inputs in
  (* lines 320-329: [adaptive_search] is not a name of the module *)
  _ ← match order, decoder with
      | OrderName name, Some _ =>
          if decide (name = "sao") then Raise NameError else Return ()
      | _, _ => Return ()
      end;
  if decide (policy_gradient = "with_bvn") then Raise NotImplementedError
  else
    (* [inputs[5]] must be a tensor from here on *)
    p ← match inputs !! 5 with
        | Some (Some p) => Return p
        | _ => if decide (policy_gradient = "without_bvn")
               then Raise ValueError else Raise TypeError
        end;
    inputs ← fill_positions tgt_vocab_size p inputs;
    Return (inputs, permu_inputs).

(** The dataset is one the function knows and the batch dictionary is of
    its kind: lines 286-297 complete. *)
Definition known_dataset (dataset : string) (batch : batch_dict) : Prop :=
  match batch with
  | CocoBatch _ => dataset = "captioning"
  | WmtBatch _ => dataset ∈ ["wmt"; "django"; "gigaword"]
  end.

(** The branch of line 320 is taken. *)
Definition calls_adaptive_search (order : order_arg) (decoder : option Decoder) : Prop :=
  match order, decoder with
  | OrderName name, Some _ => name = "sao"
  | _, _ => False
  end.

(** *** [tf.repeat] along axis 0 *)

Lemma tf_repeat_length (t : Tensor Row) n : batch_dim (tf_repeat t n) = n * batch_dim t.
Proof.
  unfold batch_dim, tf_repeat. induction t as [|r t IH]; [simpl; lia|].
  rewrite bind_cons, length_app, length_replicate, IH. simpl. lia.
Qed.

(** Slice [k] of the repeated tensor is slice [k / n] of the tensor. *)
Lemma tf_repeat_lookup (t : Tensor Row) n k :
  0 < n → tf_repeat t n !! k = t !! (k `div` n).
Proof.
  intros Hn. unfold tf_repeat. revert k.
  induction t as [|r t IH]; intros k; [done|]. rewrite bind_cons.
  destruct (decide (k < n)) as [Hlt|Hge].
  - rewrite lookup_app_l by (by rewrite length_replicate).
    rewrite Nat.div_small by done. simpl. by apply lookup_replicate_2.
  - rewrite lookup_app_r by (rewrite length_replicate; lia).
    rewrite length_replicate, IH.
    replace k with ((k - n) + 1 * n) at 2 by lia.
    rewrite Nat.div_add by lia. by rewrite Nat.add_1_r.
Qed.

(** The loop of [repeat_tensor_list] maps over the list. *)
Lemma repeat_tensor_list_map (lst : list (entry Row)) n :
  repeat_tensor_list lst n = fmap (M:=option) (λ t, tf_repeat t n) <$> lst.
Proof.
  unfold repeat_tensor_list.
  set (f := fmap (M:=option) (λ t, tf_repeat t n)).
  assert (H : for_range 0 (length lst)
                (λ i lst, match lst !! i with
                          | Some (Some t) => <[i := Some (tf_repeat t n)]> lst
                          | _ => lst
                          end) lst
              = (f <$> take (length lst) lst) ++ drop (length lst) lst).
  { apply (for_range_ind (λ i l, l = (f <$> take i lst) ++ drop i lst)); [lia|done|].
    intros i l Hi ->.
    destruct (lookup_lt_is_Some_2 lst i) as [e He]; [lia|].
    assert (Hlen : length (f <$> take i lst) = i)
      by (rewrite length_fmap, length_take; lia).
    rewrite lookup_app_r by lia. rewrite Hlen, Nat.sub_diag, lookup_drop, Nat.add_0_r, He.
    rewrite (take_S_r _ _ _ He), fmap_app, <- (assoc_L (++)). simpl.
    rewrite (drop_S _ _ _ He).
    destruct e as [t|]; simpl.
    - rewrite insert_app_r_alt by lia. rewrite Hlen, Nat.sub_diag. done.
    - done. }
  rewrite H, firstn_all, drop_all. by rewrite app_nil_r.
Qed.

(** [repeated n inp out]: every tensor of [inp] appears in [out] at the
    same place, repeated [n] times along axis 0 (slice [k] of the result
    is slice [k / n] of the tensor), so that its batch dimension is [n]
    times as large; every [None] stays [None]; nothing is added or
    removed. *)
Definition repeated (n : nat) (inp out : list (entry Row)) : Prop :=
  length out = length inp ∧
  ∀ i, match inp !! i with
       | Some (Some t) =>
           ∃ t', out !! i = Some (Some t') ∧ t' = tf_repeat t n ∧
                 batch_dim t' = n * batch_dim t ∧
                 (0 < n → ∀ k, t' !! k = t !! (k `div` n))
       | Some None => out !! i = Some None
       | None => out !! i = None
       end.

Lemma repeat_tensor_list_repeated (lst : list (entry Row)) n :
  repeated n lst (repeat_tensor_list lst n).
Proof.
  rewrite repeat_tensor_list_map. split; [apply length_fmap|].
  intros i. rewrite list_lookup_fmap.
  destruct (lst !! i) as [[t|]|]; simpl; [|done..].
  eexists. split; [done|]. split; [done|]. split; [apply tf_repeat_length|].
  intros Hn k. by apply tf_repeat_lookup.
Qed.

(** ** C9 *)

(** C9. For every batch and every [action_refinement = n], the lists
    returned by [prepare_batch_for_lm_wmt] and
    [prepare_batch_for_lm_captioning] hold, at the place of every tensor
    of the list built from the batch, that tensor repeated [n] times
    along axis 0 (batch dimension [n] times the input one), and [None] at
    the place of every [None]. *)
Theorem prepare_batch_for_lm_repeats (n : nat) (wb : wmt_batch) (cb : coco_batch) :
  repeated n (lm_wmt_list wb) (prepare_batch_for_lm_wmt n wb) ∧
  repeated n (lm_captioning_list cb) (prepare_batch_for_lm_captioning n cb).
Proof. split; apply repeat_tensor_list_repeated. Qed.

(** *** The stub of the Birkhoff-von Neumann policy gradient *)

Lemma select_dataset_known dataset batch :
  known_dataset dataset batch → ∃ r, select_dataset dataset batch = Return r.
Proof.
  unfold known_dataset, select_dataset. destruct batch as [b|b]; intros H.
  - rewrite decide_True by done. eauto.
  - rewrite decide_False.
    + rewrite decide_True by done. eauto.
    + intros ->. rewrite !elem_of_cons, elem_of_nil in H. intuition discriminate.
Qed.

(** With [policy_gradient = 'with_bvn'], [prepare_permutation] returns
    no result for any batch and any other argument; whenever the
    statements before line 331 complete (the dataset is a known one for
    the batch, and the branch of line 320 is not taken), the exception it
    raises is [NotImplementedError]. *)
Theorem prepare_permutation_with_bvn (batch : batch_dict) (tgt_vocab_size : nat)
    (order : order_arg) (dataset : string) (decoder : option Decoder) :
  raises (prepare_permutation batch tgt_vocab_size order dataset "with_bvn" decoder) ∧
  (known_dataset dataset batch → ¬ calls_adaptive_search order decoder →
   prepare_permutation batch tgt_vocab_size order dataset "with_bvn" decoder
   = Raise NotImplementedError).
Proof.
  unfold prepare_permutation. split.
  - destruct (select_dataset dataset batch) as [[[[w m] i] pt]|e]; simpl; [|done].
    destruct (choose_permutation _ _ _ _ _ _) as [i' pi].
    destruct order as [name|md], decoder as [d|]; simpl;
      try (destruct (decide (name = "sao")); simpl); done.
  - intros Hk Hs. destruct (select_dataset_known _ _ Hk) as [[[[w m] i] pt] ->].
    simpl. destruct (choose_permutation _ _ _ _ _ _) as [i' pi].
    destruct order as [name|md], decoder as [d|]; simpl in *;
      try (rewrite decide_False by done); done.
Qed.

(** *** Repeating once, and repeating twice *)

Lemma tf_repeat_1 (t : Tensor Row) : tf_repeat t 1 = t.
Proof.
  unfold tf_repeat. induction t as [|r t IH]; [done|].
  rewrite bind_cons, IH. done.
Qed.

Lemma replicate_bind_replicate n m (r : Row) :
  replicate n r ≫= replicate m = replicate (n * m) r.
Proof.
  induction n as [|n IH]; [done|]. cbn [replicate]. rewrite bind_cons, IH.
  rewrite <- replicate_add. f_equal.
Qed.

Lemma tf_repeat_repeat (t : Tensor Row) n m :
  tf_repeat (tf_repeat t n) m = tf_repeat t (n * m).
Proof.
  unfold tf_repeat. induction t as [|r t IH]; [done|].
  rewrite !bind_cons, bind_app, IH. f_equal. apply replicate_bind_replicate.
Qed.

Lemma tf_repeat_0 (t : Tensor Row) : tf_repeat t 0 = [].
Proof.
  unfold tf_repeat. induction t as [|r t IH]; [done|]. by rewrite bind_cons, IH.
Qed.

Lemma repeat_tensor_list_1 (lst : list (entry Row)) : repeat_tensor_list lst 1 = lst.
Proof.
  rewrite repeat_tensor_list_map. induction lst as [|[t|] lst IH]; [done|..].
  - rewrite fmap_cons, IH. simpl. by rewrite tf_repeat_1.
  - by rewrite fmap_cons, IH.
Qed.

(** X6. Repeating the tensors of a list [n] times and then [m] times is
    repeating them [n * m] times; repeating once, as
    [prepare_permutation] does at line 297, returns the list built from
    the batch; repeating zero times empties every tensor and keeps every
    [None]. *)
Theorem repeat_tensor_list_compose (lst : list (entry Row)) (n m : nat)
    (wb : wmt_batch) (cb : coco_batch) :
  repeat_tensor_list (repeat_tensor_list lst n) m = repeat_tensor_list lst (n * m) ∧
  prepare_batch_for_lm_wmt 1 wb = lm_wmt_list wb ∧
  prepare_batch_for_lm_captioning 1 cb = lm_captioning_list cb ∧
  repeat_tensor_list lst 0 = fmap (M:=option) (λ _, []) <$> lst.
Proof.
  split; [|split; [apply repeat_tensor_list_1|split; [apply repeat_tensor_list_1|]]].
  - rewrite !repeat_tensor_list_map, <- list_fmap_compose.
    apply list_fmap_ext. intros _ [t|] _; simpl; [|done].
    by rewrite tf_repeat_repeat.
  - rewrite repeat_tensor_list_map. apply list_fmap_ext.
    intros _ [t|] _; simpl; [|done]. by rewrite tf_repeat_0.
Qed.

(** *** The shape of the prepared lists *)

(** Every tensor of the list has batch dimension [B]. *)
Definition uniform (B : nat) (l : list (entry Row)) : Prop :=
  ∀ i t, l !! i = Some (Some t) → batch_dim t = B.

(** The entries 5 to 10, and only they, are [None]. *)
Definition holes (l : list (entry Row)) : Prop :=
  ∀ i, l !! i = Some None ↔ 5 ≤ i ≤ 10.

Lemma repeat_tensor_list_uniform B n (l : list (entry Row)) :
  uniform B l → uniform (n * B) (repeat_tensor_list l n).
Proof.
  intros Hu i t. rewrite repeat_tensor_list_map, list_lookup_fmap.
  destruct (l !! i) as [[t'|]|] eqn:Hi; simpl; [|done..].
  intros [= <-]. rewrite tf_repeat_length. f_equal. by eapply Hu.
Qed.

Lemma repeat_tensor_list_holes n (l : list (entry Row)) :
  holes l → holes (repeat_tensor_list l n).
Proof.
  intros Hh i. rewrite repeat_tensor_list_map, list_lookup_fmap.
  etransitivity; [|apply Hh].
  destruct (l !! i) as [[t'|]|]; simpl; split; done.
Qed.

Lemma lookup_16 {X} (P : nat → X → Prop) (x0 x1 x2 x3 x4 x5 x6 x7 x8 x9 x10 x11
    x12 x13 x14 x15 : X) :
  P 0 x0 → P 1 x1 → P 2 x2 → P 3 x3 → P 4 x4 → P 5 x5 → P 6 x6 → P 7 x7 →
  P 8 x8 → P 9 x9 → P 10 x10 → P 11 x11 → P 12 x12 → P 13 x13 → P 14 x14 →
  P 15 x15 →
  ∀ i x, [x0; x1; x2; x3; x4; x5; x6; x7; x8; x9; x10; x11; x12; x13; x14; x15]
           !! i = Some x → P i x.
Proof.
  intros ???????????????? i x.
  do 16 (destruct i as [|i]; [by intros [= <-]|]). done.
Qed.

(** X7. When the tensors of the batch share one batch dimension [B], the
    list prepared for the decoder has 16 entries, every tensor of it has
    batch dimension [action_refinement * B], and the entries 5 to 10, and
    only they, are [None]. *)
Theorem prepare_batch_for_lm_shapes (n B : nat) :
  (∀ wb : wmt_batch,
     batch_dim (encoder_words wb) = B →
     batch_dim (encoder_token_indicators wb) = B →
     batch_dim (decoder_words wb) = B →
     batch_dim (decoder_token_indicators wb) = B →
     let out := prepare_batch_for_lm_wmt n wb in
     length out = 16 ∧ uniform (n * B) out ∧ holes out) ∧
  (∀ cb : coco_batch,
     batch_dim (image_indicators cb) = B →
     batch_dim (words cb) = B →
     batch_dim (token_indicators cb) = B →
     batch_dim (labels cb) = B →
     batch_dim (boxes_features cb) = B →
     batch_dim (boxes cb) = B →
     let out := prepare_batch_for_lm_captioning n cb in
     length out = 16 ∧ uniform (n * B) out ∧ holes out).
Proof.
  assert (Hholes : ∀ x0 x1 x2 x3 x4 x11 x12 x13 x14 x15 : list Row,
            holes [Some x0; Some x1; Some x2; Some x3; Some x4; None; None;
                   None; None; None; None; Some x11; Some x12; Some x13;
                   Some x14; Some x15]).
  { intros ?????????? i.
    do 16 (destruct i as [|i]; [simpl; split; (done || lia)|]).
    simpl. split; [done|lia]. }
  split.
  - intros wb H1 H2 H3 H4 out. subst out. unfold prepare_batch_for_lm_wmt.
    split; [by rewrite repeat_tensor_list_map, length_fmap|].
    split; [|apply repeat_tensor_list_holes, Hholes].
    apply repeat_tensor_list_uniform. intros i t Hi.
    cbv beta zeta delta [lm_wmt_list] in Hi.
    (eapply (lookup_16 (λ _ e, e = Some t → batch_dim t = B));
       [..|exact Hi|reflexivity]);
      intros [= <-]; unfold batch_dim, tf_zeros in *;
      rewrite ?length_fmap, ?length_replicate; done.
  - intros cb H1 H2 H3 H4 H5 H6 out. subst out.
    unfold prepare_batch_for_lm_captioning.
    split; [by rewrite repeat_tensor_list_map, length_fmap|].
    split; [|apply repeat_tensor_list_holes, Hholes].
    apply repeat_tensor_list_uniform. intros i t Hi.
    cbv beta zeta delta [lm_captioning_list] in Hi.
    (eapply (lookup_16 (λ _ e, e = Some t → batch_dim t = B));
       [..|exact Hi|reflexivity]);
      intros [= <-]; unfold batch_dim, tf_zeros in *;
      rewrite ?length_fmap, ?length_replicate; done.
Qed.

(** *** What [prepare_permutation] returns *)

(** The bindings of lines 286-297 for a batch of either kind. *)
Definition batch_words (batch : batch_dict) : Tensor Row :=
  match batch with
  | CocoBatch b => words b
  | WmtBatch b => decoder_words b
  end.

Definition batch_mask (batch : batch_dict) : Tensor Row :=
  match batch with
  | CocoBatch b => token_indicators b
  | WmtBatch b => decoder_token_indicators b
  end.

Definition lm_list (batch : batch_dict) : list (entry Row) :=
  match batch with
  | CocoBatch b => lm_captioning_list b
  | WmtBatch b => lm_wmt_list b
  end.

Definition pt_list (pretrain_done : bool) (action_refinement : nat)
    (batch : batch_dict) : list pt_value :=
  match batch with
  | CocoBatch b => prepare_batch_for_pt_captioning pretrain_done action_refinement b
  | WmtBatch b => prepare_batch_for_pt_wmt pretrain_done action_refinement b
  end.

(** The five orders of line 300. *)
Definition fixed_order (name : string) : Prop :=
  name ∈ ["r2l"; "l2r"; "rare"; "common"; "test"].

Lemma select_dataset_eq dataset batch :
  known_dataset dataset batch →
  select_dataset dataset batch
  = Return (batch_words batch, batch_mask batch, lm_list batch,
            λ done n, pt_list done n batch).
Proof.
  unfold known_dataset, select_dataset. destruct batch as [b|b]; intros H.
  - rewrite decide_True by done. simpl.
    unfold prepare_batch_for_lm_captioning. by rewrite repeat_tensor_list_1.
  - rewrite decide_False.
    + rewrite decide_True by done. simpl.
      unfold prepare_batch_for_lm_wmt. by rewrite repeat_tensor_list_1.
    + intros ->. rewrite !elem_of_cons, elem_of_nil in H. intuition discriminate.
Qed.

#[local] Instance known_dataset_dec dataset batch :
  Decision (known_dataset dataset batch).
Proof. destruct batch; simpl; apply _. Defined.

Lemma select_dataset_unknown dataset batch :
  ¬ known_dataset dataset batch → raises (select_dataset dataset batch).
Proof.
  unfold known_dataset, select_dataset. intros H.
  destruct batch as [b|b]; repeat case_decide; done.
Qed.

Lemma lm_list_shape (batch : batch_dict) :
  ∃ x0 x1 x2 x3 x4 x11 x12 x13 x14 x15,
    lm_list batch = [Some x0; Some x1; Some x2; Some x3; Some x4; None; None;
                     None; None; None; None; Some x11; Some x12; Some x13;
                     Some x14; Some x15].
Proof. destruct batch as [b|b]; simpl; do 10 eexists; reflexivity. Qed.

(** X8. An order name outside the five fixed ones never gives a result,
    whatever the other arguments.  With a known dataset: the name ['sao']
    with a decoder raises [NameError] under every [policy_gradient]
    ([adaptive_search] is not defined in the module); in the other cases,
    when [policy_gradient] is neither ['with_bvn'] nor ['without_bvn'],
    line 336 subscripts [None] and raises [TypeError]. *)
Theorem prepare_permutation_unknown_order (batch : batch_dict)
    (tgt_vocab_size : nat) (name dataset policy_gradient : string)
    (decoder : option Decoder) :
  ¬ fixed_order name →
  raises (prepare_permutation batch tgt_vocab_size (OrderName name) dataset
            policy_gradient decoder) ∧
  (known_dataset dataset batch →
   (calls_adaptive_search (OrderName name) decoder →
    prepare_permutation batch tgt_vocab_size (OrderName name) dataset
      policy_gradient decoder = Raise NameError) ∧
   (¬ calls_adaptive_search (OrderName name) decoder →
    policy_gradient ≠ "with_bvn" → policy_gradient ≠ "without_bvn" →
    prepare_permutation batch tgt_vocab_size (OrderName name) dataset
      policy_gradient decoder = Raise TypeError)).
Proof.
  intros Hname. unfold fixed_order in Hname.
  assert (Hk : known_dataset dataset batch →
    prepare_permutation batch tgt_vocab_size (OrderName name) dataset
      policy_gradient decoder
    = (_ ← match decoder with
           | Some _ => if decide (name = "sao") then Raise NameError else Return ()
           | None => Return ()
           end;
       if decide (policy_gradient = "with_bvn") then Raise NotImplementedError
       else if decide (policy_gradient = "without_bvn") then Raise ValueError
            else Raise TypeError)).
  { intros Hk. unfold prepare_permutation. rewrite (select_dataset_eq _ _ Hk).
    simpl. destruct (decide (name ∈ _)) as [?|_]; [done|].
    destruct (lm_list_shape batch) as (?&?&?&?&?&?&?&?&?&?&->). simpl.
    destruct decoder; [destruct (decide (name = "sao"))|]; simpl;
      repeat case_decide; done. }
  split.
  - destruct (decide (known_dataset dataset batch)) as [Hd|Hd].
    + rewrite (Hk Hd).
      destruct decoder; [destruct (decide (name = "sao"))|]; simpl;
        repeat case_decide; done.
    + unfold prepare_permutation.
      pose proof (select_dataset_unknown _ _ Hd) as Hr.
      destruct (select_dataset dataset batch); [done|done].
  - intros Hd. rewrite (Hk Hd). split.
    + destruct decoder; simpl; [|done]. by intros ->.
    + intros Hs H1 H2.
      destruct decoder; simpl in *; rewrite ?(decide_False _ _ Hs); simpl;
        by rewrite !decide_False.
Qed.

Lemma fixed_order_not_sao name : fixed_order name → name ≠ "sao".
Proof.
  unfold fixed_order. intros H ->.
  rewrite !elem_of_cons, elem_of_nil in H. intuition discriminate.
Qed.

(** X9. With a known dataset, one of the five fixed orders and a
    [policy_gradient] other than ['with_bvn'], [prepare_permutation]
    returns: no inputs for the permutation transformer, and a list of 16
    entries which are all tensors; entry 5 is the permutation of
    [get_permutation], and the entries 0 to 4 and 11 to 15 are those of the
    list prepared for the decoder, not repeated. *)
Theorem prepare_permutation_fixed_order (batch : batch_dict)
    (tgt_vocab_size : nat) (name dataset policy_gradient : string)
    (decoder : option Decoder) :
  known_dataset dataset batch → fixed_order name →
  policy_gradient ≠ "with_bvn" →
  ∃ inputs,
    prepare_permutation batch tgt_vocab_size (OrderName name) dataset
      policy_gradient decoder = Return (inputs, None) ∧
    length inputs = 16 ∧
    (∀ i, i < 5 ∨ 10 < i → inputs !! i = lm_list batch !! i) ∧
    inputs !! 5
    = Some (Some (get_permutation (batch_mask batch) (batch_words batch) name)) ∧
    (∀ i, i < 16 → ∃ t, inputs !! i = Some (Some t)).
Proof.
  intros Hk Hname Hpg. pose proof (fixed_order_not_sao _ Hname) as Hsao.
  unfold prepare_permutation, fixed_order in *.
  rewrite (select_dataset_eq _ _ Hk). simpl.
  destruct (decide (name ∈ _)) as [_|?]; [|done].
  destruct (decide (name = "sao")) as [?|_]; [done|].
  destruct (decide (policy_gradient = "with_bvn")) as [?|_]; [done|].
  destruct (lm_list_shape batch) as (?&?&?&?&?&?&?&?&?&?&->).
  assert (Hdec : match decoder with
                 | Some _ => Return ()
                 | None => Return ()
                 end = Return ()) by (by destruct decoder).
  rewrite Hdec. unfold fill_positions. simpl.
  destruct (permutation_to_pointer _) as [labels partial_pos]. simpl.
  eexists. split; [reflexivity|].
  split; [reflexivity|]. split; [|split; [reflexivity|]].
  - intros i Hi. do 16 (destruct i as [|i]; [(reflexivity || lia)|]). done.
  - intros i Hi. do 16 (destruct i as [|i]; [simpl; eauto|]). lia.
Qed.

(** X10. With a known dataset, a permutation transformer as order and a
    [policy_gradient] other than ['with_bvn'], [prepare_permutation]
    returns a list of 16 entries whose entries 0 to 4 and 11 to 15 are
    those of the list prepared for the decoder.  The transformer is called
    on the list of [prepare_batch_for_pt] with [pretrain_done = True] and
    [action_refinement = 1].  Unless [policy_gradient] is ['without_bvn'],
    no inputs of the transformer are returned; with ['without_bvn'] they
    are returned with the entries 10, 11 and 12 replaced by the
    activations, the KL term and [log_nom - log_denom], the others being
    kept. *)
Theorem prepare_permutation_model (batch : batch_dict) (tgt_vocab_size : nat)
    (m : Model) (dataset policy_gradient : string) (decoder : option Decoder) :
  known_dataset dataset batch → policy_gradient ≠ "with_bvn" →
  ∃ inputs permu_inputs,
    prepare_permutation batch tgt_vocab_size (OrderModel m) dataset
      policy_gradient decoder = Return (inputs, permu_inputs) ∧
    length inputs = 16 ∧
    (∀ i, i < 5 ∨ 10 < i → inputs !! i = lm_list batch !! i) ∧
    (policy_gradient ≠ "without_bvn" →
     permu_inputs = None ∧
     inputs !! 5 = Some (Some (order_call m (pt_list true 1 batch)))) ∧
    (policy_gradient = "without_bvn" →
     let '(p, activations, kl, log_nom, log_denom) :=
       order_call_pg m (pt_list true 1 batch) in
     inputs !! 5 = Some (Some p) ∧
     ∃ pi, permu_inputs = Some pi ∧ length pi = 16 ∧
           pi !! 4 = Some (PBool true) ∧ pi !! 5 = Some (PInt 1) ∧
           pi !! 10 = Some (PTensor activations) ∧
           pi !! 11 = Some (PTensor kl) ∧
           pi !! 12 = Some (PTensor (zip_with minus log_nom log_denom)) ∧
           ∀ i, i < 10 ∨ 12 < i → pi !! i = pt_list true 1 batch !! i).
Proof.
  intros Hk Hpg. unfold prepare_permutation.
  rewrite (select_dataset_eq _ _ Hk). simpl.
  assert (Hdec : match decoder with
                 | Some _ => Return ()
                 | None => Return ()
                 end = Return ()) by (by destruct decoder).
  assert (Hpt : ∃ y0 y1 y2 y3 y6 y7 y8 y9 y10 y11 y12 y13 y14 y15,
            pt_list true 1 batch
            = [y0; y1; y2; y3; PBool true; PInt 1; y6; y7; y8; y9; y10; y11;
               y12; y13; y14; y15]).
  { destruct batch; simpl; do 14 eexists; reflexivity. }
  destruct Hpt as (?&?&?&?&?&?&?&?&?&?&?&?&?&?&Hpt).
  destruct (lm_list_shape batch) as (?&?&?&?&?&?&?&?&?&?&Hlm).
  destruct (decide (policy_gradient ≠ "without_bvn")) as [Hw|Hw].
  - rewrite ?Hdec, Hlm. simpl.
    destruct (decide (policy_gradient = "with_bvn")) as [?|_]; [done|].
    unfold fill_positions. simpl.
    destruct (permutation_to_pointer _) as [labels partial_pos]. simpl.
    do 2 eexists. split; [reflexivity|]. split; [reflexivity|].
    split; [|split; [done|done]].
    intros i Hi. do 16 (destruct i as [|i]; [(reflexivity || lia)|]). done.
  - destruct (order_call_pg m (pt_list true 1 batch))
      as [[[[p activations] kl] log_nom] log_denom] eqn:Hcall.
    rewrite ?Hdec, Hlm, Hpt. simpl.
    destruct (decide (policy_gradient = "with_bvn")) as [?|_]; [done|].
    unfold fill_positions. simpl.
    destruct (permutation_to_pointer _) as [labels partial_pos]. simpl.
    do 2 eexists. split; [reflexivity|]. split; [reflexivity|].
    split; [|split; [done|]].
    + intros i Hi. do 16 (destruct i as [|i]; [(reflexivity || lia)|]). done.
    + intros _. split; [reflexivity|]. eexists. split; [reflexivity|].
      do 6 (split; [reflexivity|]).
      intros i Hi. do 16 (destruct i as [|i]; [(reflexivity || lia)|]). done.
Qed.

End Prepare.

(** The theorem at a translation batch of two sentences of word ids,
    with the order ['l2r'] and the outside functions replaced by simple
    ones on rows of naturals. *)
Lemma prepare_permutation_with_bvn_witness :
  prepare_permutation (Row:=list nat)
    (removelast (A:=nat)) (drop 1) (fmap (M:=list) (λ x : nat, if decide (0 < x) then 1 else 0))
    [] [0] unit unit
    (λ m w _, w) id (λ p, (p, p)) (λ _ _ _, []) (λ _ _, [])
    (λ _ _, ([], [], [], [], []))
    id id id id id id (λ a _, a) (λ _ p _, p) length
    (WmtBatch {| encoder_words := [[2; 7; 3]; [2; 8; 3]];
                 encoder_token_indicators := [[1; 1; 1]; [1; 1; 1]];
                 decoder_words := [[2; 5; 3]; [2; 6; 3]];
                 decoder_token_indicators := [[1; 1; 1]; [1; 1; 1]] |})
    10 (OrderName unit "l2r") "wmt" "with_bvn" None
  = Raise NotImplementedError.
Proof.
  apply prepare_permutation_with_bvn; simpl.
  - apply list_elem_of_here.
  - intros [].
Defined.

(** The further theorems on the same batch, with the same simple
    functions on rows of naturals. *)
Definition demo_wmt : wmt_batch (Row:=list nat) :=
  {| encoder_words := [[2; 7; 3]; [2; 8; 3]];
     encoder_token_indicators := [[1; 1; 1]; [1; 1; 1]];
     decoder_words := [[2; 5; 3]; [2; 6; 3]];
     decoder_token_indicators := [[1; 1; 1]; [1; 1; 1]] |}.

Definition demo_batch : batch_dict (Row:=list nat) := WmtBatch demo_wmt.

Definition demo_prepare_permutation :=
  prepare_permutation (Row:=list nat)
    (removelast (A:=nat)) (drop 1) (fmap (M:=list) (λ x : nat, if decide (0 < x) then 1 else 0))
    [] [0] unit unit
    (λ m w _, w) id (λ p, (p, p)) (λ _ _ _, []) (λ _ _, [[9]])
    (λ _ _, ([[9]], [[8]], [[7]], [[6]], [[5]]))
    id id id id id id (λ a _, a) (λ _ p _, p) length.

(** ** C5 *)

(** C5. With [policy_gradient = 'with_bvn'], the order ['sao'] and a
    decoder, [prepare_permutation] does not reach the [raise] of line 332:
    line 321 calls [adaptive_search], a name that the module neither
    defines nor imports, and the call raises [NameError], not
    [NotImplementedError].  On the same batch with the order ['l2r'] the
    exception is [NotImplementedError]. *)
Theorem prepare_permutation_with_bvn_sao :
  demo_prepare_permutation demo_batch 10 (OrderName unit "sao") "wmt" "with_bvn"
    (Some ())
  = Raise NameError ∧
  demo_prepare_permutation demo_batch 10 (OrderName unit "sao") "wmt" "with_bvn"
    (Some ())
  ≠ Raise NotImplementedError ∧
  demo_prepare_permutation demo_batch 10 (OrderName unit "l2r") "wmt" "with_bvn"
    (Some ())
  = Raise NotImplementedError.
Proof.
  assert (H : demo_prepare_permutation demo_batch 10 (OrderName unit "sao") "wmt"
                "with_bvn" (Some ()) = Raise NameError) by reflexivity.
  split; [exact H|]. split; [rewrite H; discriminate|reflexivity].
Qed.

Lemma prepare_batch_for_lm_shapes_witness :
  let out :=
    prepare_batch_for_lm_wmt (Row:=list nat) (removelast (A:=nat)) (drop 1)
      (fmap (M:=list) (λ x : nat, if decide (0 < x) then 1 else 0)) [] [0] 3
      demo_wmt in
  length out = 16 ∧ uniform (3 * 2) out ∧ holes out.
Proof.
  exact (proj1 (prepare_batch_for_lm_shapes (Row:=list nat) _ _ _ _ _ 3 2)
           demo_wmt eq_refl eq_refl eq_refl eq_refl).
Defined.

Lemma prepare_permutation_unknown_order_witness :
  demo_prepare_permutation demo_batch 10 (OrderName unit "bfs") "wmt" "none" None
  = Raise TypeError ∧
  demo_prepare_permutation demo_batch 10 (OrderName unit "sao") "wmt" "none"
    (Some ())
  = Raise NameError.
Proof.
  assert (Hout : ∀ name, name = "bfs" ∨ name = "sao" → ¬ fixed_order name).
  { unfold fixed_order. intros name Hname.
    rewrite !elem_of_cons, elem_of_nil.
    destruct Hname as [-> | ->]; intuition discriminate. }
  unfold demo_prepare_permutation, demo_batch. split.
  - apply prepare_permutation_unknown_order; simpl.
    + apply Hout. by left.
    + apply list_elem_of_here.
    + intros [].
    + discriminate.
    + discriminate.
  - apply prepare_permutation_unknown_order; simpl.
    + apply Hout. by right.
    + apply list_elem_of_here.
    + reflexivity.
Defined.

Lemma prepare_permutation_fixed_order_witness :
  ∃ inputs,
    demo_prepare_permutation demo_batch 10 (OrderName unit "l2r") "wmt" "none" None
    = Return (inputs, None) ∧
    inputs !! 5 = Some (Some [[2; 5; 3]; [2; 6; 3]]).
Proof.
  destruct (prepare_permutation_fixed_order (Row:=list nat)
              (removelast (A:=nat)) (drop 1)
              (fmap (M:=list) (λ x : nat, if decide (0 < x) then 1 else 0))
              [] [0] unit unit
              (λ m w _, w) id (λ p, (p, p)) (λ _ _ _, []) (λ _ _, [[9]])
              (λ _ _, ([[9]], [[8]], [[7]], [[6]], [[5]]))
              id id id id id id (λ a _, a) (λ _ p _, p) length
              demo_batch 10 "l2r" "wmt" "none" None)
    as (inputs & Hrun & _ & _ & H5 & _).
  - apply list_elem_of_here.
  - apply list_elem_of_further, list_elem_of_here.
  - discriminate.
  - exists inputs. split; [exact Hrun|exact H5].
Defined.

Lemma prepare_permutation_model_witness :
  ∃ inputs pi,
    demo_prepare_permutation demo_batch 10 (OrderModel unit ()) "wmt" "without_bvn" None
    = Return (inputs, Some pi) ∧
    inputs !! 5 = Some (Some [[9]]) ∧ pi !! 12 = Some (PTensor [[6]]).
Proof.
  destruct (prepare_permutation_model (Row:=list nat)
              (removelast (A:=nat)) (drop 1)
              (fmap (M:=list) (λ x : nat, if decide (0 < x) then 1 else 0))
              [] [0] unit unit
              (λ m w _, w) id (λ p, (p, p)) (λ _ _ _, []) (λ _ _, [[9]])
              (λ _ _, ([[9]], [[8]], [[7]], [[6]], [[5]]))
              id id id id id id (λ a _, a) (λ _ p _, p) length
              demo_batch 10 () "wmt" "without_bvn" None)
    as (inputs & permu & Hrun & _ & _ & _ & Hpg).
  - apply list_elem_of_here.
  - discriminate.
  - destruct (Hpg eq_refl) as (H5 & pi & -> & _ & _ & _ & _ & _ & H12 & _).
    exists inputs, pi. split; [exact Hrun|]. split; [exact H5|exact H12].
Defined.

End Batch.

(** ** Vocabulary construction (captions_wmt.py) *)

Module Wmt.

(** The four tokens of line 115. *)
Definition reserved : list string := ["<pad>"; "<unk>"; "<start>"; "<end>"].

(** A [defaultdict(int)] of word counts: its items, in insertion order. *)
Abbreviation freq_dict := (list (string * nat)) (only parsing).

(** [freq[w] += 1] *)
Fixpoint incr (w : string) (freq : freq_dict) : freq_dict :=
  match freq with
  | [] => [(w, 1)]
  | (k, c) :: freq' =>
      if decide (k = w) then (k, S c) :: freq' else (k, c) :: incr w freq'
  end.

(** [sorted(items, key=lambda x: x[1], reverse=True)]: the sort is
    stable, items of equal count keep their order. *)
Fixpoint insert_desc (x : string * nat) (l : list (string * nat)) : list (string * nat) :=
  match l with
  | [] => [x]
  | y :: l' => if decide (y.2 ≤ x.2) then x :: y :: l' else y :: insert_desc x l'
  end.

Definition sorted_desc (items : list (string * nat)) : list (string * nat) :=
  foldr insert_desc [] items.

(** The loop of lines 109-112, entered at index [i] with the current value
    of [split]:
    [for split, frequency in enumerate(sorted_freq): if frequency < min: break] *)
Fixpoint split_loop (min_word_frequency : Z) (sorted_freq : list nat)
    (i split : nat) : nat :=
  match sorted_freq with
  | [] => split
  | frequency :: rest =>
      if decide (Z.of_nat frequency < min_word_frequency)%Z then i
      else split_loop min_word_frequency rest (S i) i
  end.

Definition find_split (min_word_frequency : Z) (sorted_freq : list nat) : nat :=
  split_loop min_word_frequency sorted_freq 0 0.

(** The tuple [vocab] of line 115. *)
Definition new_vocab_tuple (freq : freq_dict) (min_word_frequency : Z) : list string :=
  let items := sorted_desc freq in
  let sorted_w := items.*1 in
  let sorted_freq := items.*2 in
  let split := find_split min_word_frequency sorted_freq in
  reserved ++ take (split + 1) sorted_w.

(** ["\n".join(words)] *)
Definition join_lines (words : list string) : string := String.concat "
" words.

(** The class [Vocabulary] of [voi.process.captions], as far as its
    constructor is given the fields. *)
Record Vocabulary := {
  vocab_words : list string;
  unknown_word : string;
  unknown_id : nat }.

(** [Sentence(word_ids, None)] and [LanguagePair(source, target)]. *)
Record Sentence := { word_ids : list nat; sentence_tags : option (list nat) }.
Record LanguagePair := { source : Sentence; target : Sentence }.

(** The files on the disk: their contents by path. *)
Abbreviation file_system := (gmap string string) (only parsing).

Section ProcessWmt.

(** Outside functions: [os.path.dirname], [os.path.basename],
    [os.path.join]; [read_lines text] is
    [[x.strip() for x in f.readlines()]] on a file of content [text];
    [words_to_ids] is the method of [Vocabulary]; [dumps] is
    [pkl.dumps]. *)
Variables (dirname basename : string → string).
Variable path_join : string → string → string.
Variable read_lines : string → list string.
Variable words_to_ids : Vocabulary → list string → list nat.
Variable dumps : list LanguagePair → string.

(** The inner function [create_vocab_file], lines 102-140;
    [dataset_type] is the variable of the enclosing function.  Unpacking
    the sorted items of an empty table at line 105 raises
    [ValueError]. *)
Definition create_vocab_file (dataset_type : string) (freq : freq_dict)
    (min_word_frequency : Z) (vocab_file : string) (fs : file_system) :
    result (file_system * Vocabulary) :=
  '(fs, vocab) ←
    (if decide (fs !! vocab_file = None ∨ dataset_type = "train") then
       if decide (sorted_desc freq = []) then Raise ValueError
       else
         let vocab := new_vocab_tuple freq min_word_frequency in
         match fs !! vocab_file with
         | None => Return (<[vocab_file := join_lines vocab]> fs, vocab)
         | Some text =>
             let old_vocab := read_lines text in
             let new_vocab := filter (λ v, v ∉ old_vocab) vocab in
             let vocab := old_vocab ++ new_vocab in
             Return (<[vocab_file :=
                         join_lines old_vocab +:+ "
" +:+ join_lines new_vocab]> fs,
                     vocab)
         end
     else
       match fs !! vocab_file with
       | Some text => Return (fs, read_lines text)
       | None => Raise ValueError
       end);
  Return (fs, {| vocab_words := vocab; unknown_word := "<unk>"; unknown_id := 1 |}).

(** The state of the reading loop, lines 67-98. *)
Record counts := {
  freq : list (string * nat);
  src_freq : list (string * nat);
  tgt_freq : list (string * nat);
  all_src_words : list (list string);
  all_tgt_words : list (list string) }.

(** One pass of the loop on a pair of lines, given as the word lists
    [src_list] and [tgt_list] of lines 87-88. *)
Definition count_line (st : counts) (line : list string * list string) : counts :=
  let '(src_list, tgt_list) := line in
  let '(f, sf) :=
    foldl (λ '(f, sf) w, (incr w f, incr w sf)) (freq st, src_freq st) src_list in
  let '(f, tf) :=
    foldl (λ '(f, tf) w, (incr w f, incr w tf)) (f, tgt_freq st) tgt_list in
  {| freq := f; src_freq := sf; tgt_freq := tf;
     all_src_words := all_src_words st ++ [src_list];
     all_tgt_words := all_tgt_words st ++ [tgt_list] |}.

Definition count_lines (corpus : list (list string * list string)) : counts :=
  foldl count_line
    {| freq := []; src_freq := []; tgt_freq := [];
       all_src_words := []; all_tgt_words := [] |} corpus.

(** [np.concatenate([[2], vocab.words_to_ids(words), [3]], 0)] *)
Definition encode (vocab : Vocabulary) (words : list string) : list nat :=
  [2] ++ words_to_ids vocab words ++ [3].

(** Lines 150-156 and 162-168. *)
Definition make_data_list (src_vocab tgt_vocab : Vocabulary) (st : counts) :
    list LanguagePair :=
  zip_with (λ src tgt,
      {| source := {| word_ids := encode src_vocab src; sentence_tags := None |};
         target := {| word_ids := encode tgt_vocab tgt; sentence_tags := None |} |})
    (all_src_words st) (all_tgt_words st).

(** [process_wmt], lines 29-173, on the corpus given line by line as
    word lists; it returns the files on the disk and the data list it
    pickles. *)
Definition process_wmt (out_feature_folder in_feature_folder vocab_file : string)
    (max_length : nat) (min_word_frequency : Z) (dataset_type : string)
    (one_vocab : bool) (corpus : list (list string * list string))
    (fs : file_system) : result (file_system * list LanguagePair) :=
  let st := count_lines corpus in
  '(fs, data_list) ←
    (if negb one_vocab then
       '(fs, src_vocab) ←
         create_vocab_file dataset_type (src_freq st) min_word_frequency
           (dirname vocab_file +:+ "/src_" +:+ basename vocab_file) fs;
       '(fs, tgt_vocab) ←
         create_vocab_file dataset_type (tgt_freq st) min_word_frequency
           (dirname vocab_file +:+ "/tgt_" +:+ basename vocab_file) fs;
       Return (fs, make_data_list src_vocab tgt_vocab st)
     else
       '(fs, vocab) ←
         create_vocab_file dataset_type (freq st) min_word_frequency
           (path_join (dirname vocab_file) (basename vocab_file)) fs;
       Return (fs, make_data_list vocab vocab st));
  let sample_path := path_join out_feature_folder (dataset_type +:+ ".pkl") in
  Return (<[sample_path := dumps data_list]> fs, data_list).

(** The paths of the vocabulary files, lines 144-147 and 158-159, and of
    the file of samples, lines 170-171. *)
Definition vocab_files (one_vocab : bool) (vocab_file : string) : list string :=
  if one_vocab then [path_join (dirname vocab_file) (basename vocab_file)]
  else [dirname vocab_file +:+ "/src_" +:+ basename vocab_file;
        dirname vocab_file +:+ "/tgt_" +:+ basename vocab_file].

Definition sample_file (out_feature_folder dataset_type : string) : string :=
  path_join out_feature_folder (dataset_type +:+ ".pkl").

(** [start_end_or_pad] of inspect_order.py, lines 184-185, on one word
    id. *)
Definition start_end_or_pad (word : nat) : bool :=
  bool_decide (word = 0) || (bool_decide (word = 2) || bool_decide (word = 3)).

(** [below min x]: the count of the item [x] is strictly below the
    threshold. *)
Definition below (min_word_frequency : Z) (x : string * nat) : Prop :=
  (Z.of_nat x.2 < min_word_frequency)%Z.

#[global] Instance below_dec min x : Decision (below min x).
Proof. unfold below. apply _. Defined.

(** *** The sort by decreasing count *)

Example sorted_desc_stable :
  sorted_desc [("a", 1); ("b", 3); ("c", 1); ("d", 3); ("e", 2)]
  = [("b", 3); ("d", 3); ("e", 2); ("a", 1); ("c", 1)].
Proof. reflexivity. Qed.

Example new_vocab_tuple_threshold :
  new_vocab_tuple [("a", 3); ("b", 2); ("c", 1); ("d", 1)] 2
  = ["<pad>"; "<unk>"; "<start>"; "<end>"; "a"; "b"; "c"].
Proof. reflexivity. Qed.

Lemma insert_desc_perm x l : insert_desc x l ≡ₚ x :: l.
Proof.
  induction l as [|y l IH]; simpl; [done|].
  case_decide; [done|]. rewrite IH. apply Permutation_swap.
Qed.

Lemma sorted_desc_perm items : sorted_desc items ≡ₚ items.
Proof.
  induction items as [|x items IH]; simpl; [done|].
  by rewrite insert_desc_perm, IH.
Qed.

(** [decreasing l]: the counts never increase along the list. *)
Definition decreasing (l : list (string * nat)) : Prop :=
  ∀ i j x y, i ≤ j → l !! i = Some x → l !! j = Some y → y.2 ≤ x.2.

Lemma decreasing_cons x l :
  decreasing (x :: l) ↔ (∀ y, y ∈ l → y.2 ≤ x.2) ∧ decreasing l.
Proof.
  split.
  - intros H. split.
    + intros y [j Hj]%list_elem_of_lookup. apply (H 0 (S j)); [lia|done..].
    + intros i j a b Hij Hi Hj. apply (H (S i) (S j)); [lia|done..].
  - intros [Hx Hl] i j a b Hij Hi Hj.
    destruct i as [|i], j as [|j]; simpl in *; simplify_eq; try lia.
    + apply Hx. by eapply list_elem_of_lookup_2.
    + apply (Hl i j); [lia|done..].
Qed.

Lemma insert_desc_decreasing x l : decreasing l → decreasing (insert_desc x l).
Proof.
  induction l as [|y l IH]; intros Hl; simpl.
  - apply decreasing_cons. split; [by intros ? ?%elem_of_nil|].
    intros i j a b _ Hi. by destruct i.
  - apply decreasing_cons in Hl as [Hy Hl]. case_decide as Hle.
    + apply decreasing_cons. split.
      * intros z [->|Hz]%elem_of_cons; [done|]. specialize (Hy z Hz). lia.
      * apply decreasing_cons. done.
    + apply decreasing_cons. split; [|by apply IH].
      intros z Hz. rewrite insert_desc_perm in Hz.
      apply elem_of_cons in Hz as [->|Hz]; [lia|by apply Hy].
Qed.

Lemma sorted_desc_decreasing items : decreasing (sorted_desc items).
Proof.
  induction items as [|x items IH]; simpl.
  - intros i j a b _ Hi. by destruct i.
  - by apply insert_desc_decreasing.
Qed.

Lemma sorted_desc_nil items : sorted_desc items = [] ↔ items = [].
Proof.
  split; [|by intros ->]. intros H.
  apply Permutation_nil_r. rewrite <- H. symmetry. apply sorted_desc_perm.
Qed.

(** *** The split index *)

Lemma split_loop_none min (l : list nat) i split :
  (∀ f, f ∈ l → (min ≤ Z.of_nat f)%Z) →
  split_loop min l i split = if l is [] then split else i + length l - 1.
Proof.
  revert i split. induction l as [|f l IH]; intros i split Hl; simpl; [done|].
  rewrite decide_False by (specialize (Hl f (list_elem_of_here _ _)); lia).
  rewrite IH by (intros g Hg; apply Hl; by right).
  destruct l; simpl; lia.
Qed.

Lemma split_loop_first min (l : list nat) i split k f :
  l !! k = Some f → (Z.of_nat f < min)%Z →
  (∀ j g, j < k → l !! j = Some g → (min ≤ Z.of_nat g)%Z) →
  split_loop min l i split = i + k.
Proof.
  revert i split k. induction l as [|g l IH]; intros i split k Hk Hf Hbefore; [done|].
  simpl. destruct k as [|k]; simpl in Hk.
  - simplify_eq. rewrite decide_True by done. lia.
  - rewrite decide_False by (pose proof (Hbefore 0 g ltac:(lia) eq_refl); lia).
    rewrite (IH (S i) i k); [lia|done|done|].
    intros j h Hj Hh. apply (Hbefore (S j) h); [lia|done].
Qed.

(** Some count is below the threshold: there is a first one. *)
Lemma first_below min (l : list nat) :
  (∃ f, f ∈ l ∧ (Z.of_nat f < min)%Z) →
  ∃ k f, l !! k = Some f ∧ (Z.of_nat f < min)%Z ∧
         ∀ j g, j < k → l !! j = Some g → (min ≤ Z.of_nat g)%Z.
Proof.
  induction l as [|g l IH]; intros (f & Hf & Hlt).
  - by apply elem_of_nil in Hf.
  - destruct (decide (Z.of_nat g < min)%Z) as [Hg|Hg].
    + exists 0, g. split; [done|]. split; [done|]. lia.
    + apply elem_of_cons in Hf as [->|Hf]; [done|].
      destruct IH as (k & h & Hk & Hh & Hbefore); [by eauto|].
      exists (S k), h. split; [done|]. split; [done|].
      intros [|j] a Hj Ha; simpl in Ha; [simplify_eq; lia|].
      apply (Hbefore j); [lia|done].
Qed.

Lemma filter_take_nil {X : Type} (P : X → Prop) `{∀ x, Decision (P x)} (l : list X) k :
  (∀ i x, i < k → l !! i = Some x → ¬ P x) → filter P (take k l) = [].
Proof.
  revert k. induction l as [|a l IH]; intros k Hk; destruct k as [|k]; simpl; try done.
  rewrite filter_cons_False by (apply (Hk 0); [lia|done]).
  apply IH. intros i x Hi Hx. apply (Hk (S i)); [lia|done].
Qed.

(** What line 115 keeps of the sorted items. *)
Lemma find_split_below min (items : list (string * nat)) :
  (∃ x, x ∈ items ∧ below min x) →
  let split := find_split min items.*2 in
  (∃ x, items !! split = Some x ∧ below min x) ∧
  (∀ i x, i < split → items !! i = Some x → ¬ below min x) ∧
  length (filter (below min) (take (split + 1) items)) = 1.
Proof.
  intros (x & Hx & Hlt). simpl.
  destruct (first_below min items.*2) as (k & f & Hk & Hf & Hbefore).
  { exists x.2. split; [|done]. apply list_elem_of_fmap. eauto. }
  unfold find_split. rewrite (split_loop_first min _ 0 0 k f Hk Hf Hbefore). simpl.
  rewrite list_lookup_fmap in Hk.
  destruct (items !! k) as [y|] eqn:Hy; simplify_eq/=.
  assert (Hnot : ∀ i z, i < k → items !! i = Some z → ¬ below min z).
  { intros i z Hi Hz. unfold below.
    specialize (Hbefore i z.2 Hi). rewrite list_lookup_fmap, Hz in Hbefore.
    specialize (Hbefore eq_refl). lia. }
  split; [by eauto|]. split; [done|].
  rewrite Nat.add_1_r, (take_S_r _ _ _ Hy), filter_app.
  rewrite filter_take_nil by done. simpl.
  by rewrite filter_cons_True, filter_nil by done.
Qed.

Lemma find_split_none min (items : list (string * nat)) :
  (∀ x, x ∈ items → ¬ below min x) →
  take (find_split min items.*2 + 1) items = items.
Proof.
  intros Hall. unfold find_split. rewrite split_loop_none.
  - destruct items as [|x items]; [done|]. apply take_ge.
    simpl. rewrite length_fmap. lia.
  - intros f [y [-> Hy]]%list_elem_of_fmap. specialize (Hall y Hy).
    unfold below in Hall. lia.
Qed.

(** ** C10 *)

(** C10. When the vocabulary file does not exist (and the table of
    counts is not empty), [create_vocab_file] writes the four reserved
    tokens followed by the first [split + 1] words in the order of
    decreasing count; if some word has a count below
    [min_word_frequency], [split] is the index of the first such word, no
    word before it is below the threshold, and exactly one of the kept
    words is below it; if no word is below the threshold, all words are
    kept. *)
Theorem create_vocab_file_fresh (dataset_type : string)
    (freq : list (string * nat)) (min_word_frequency : Z)
    (vocab_file : string) (fs : gmap string string) :
  fs !! vocab_file = None → freq ≠ [] →
  let items := sorted_desc freq in
  let split := find_split min_word_frequency items.*2 in
  let kept := take (split + 1) items in
  create_vocab_file dataset_type freq min_word_frequency vocab_file fs
  = Return (<[vocab_file := join_lines (reserved ++ kept.*1)]> fs,
            {| vocab_words := reserved ++ kept.*1;
               unknown_word := "<unk>"; unknown_id := 1 |}) ∧
  items ≡ₚ freq ∧ decreasing items ∧
  ((∃ x, x ∈ freq ∧ below min_word_frequency x) →
   (∃ x, items !! split = Some x ∧ below min_word_frequency x) ∧
   (∀ i x, i < split → items !! i = Some x → ¬ below min_word_frequency x) ∧
   length (filter (below min_word_frequency) kept) = 1) ∧
  ((∀ x, x ∈ freq → ¬ below min_word_frequency x) → kept = items).
Proof.
  intros Hfs Hne items split kept.
  split; [|split; [apply sorted_desc_perm|split; [apply sorted_desc_decreasing|split]]].
  - unfold create_vocab_file. rewrite decide_True by (by left).
    rewrite decide_False by (by rewrite sorted_desc_nil).
    rewrite Hfs. simpl. unfold new_vocab_tuple.
    by rewrite <- fmap_take.
  - intros (x & Hx & Hb). apply find_split_below.
    exists x. split; [|done]. unfold items. by rewrite sorted_desc_perm.
  - intros Hall. apply find_split_none.
    intros x Hx. apply Hall. unfold items in Hx. by rewrite sorted_desc_perm in Hx.
Qed.

(** *** Reserved token ids *)

(** [wrapped ids]: the sentence starts with the start id 2 and ends with
    the end id 3. *)
Definition wrapped (ids : list nat) : Prop := ∃ body, ids = [2] ++ body ++ [3].

Lemma encode_wrapped vocab words : wrapped (encode vocab words).
Proof. by eexists. Qed.

Lemma make_data_list_wrapped src_vocab tgt_vocab st pair :
  pair ∈ make_data_list src_vocab tgt_vocab st →
  wrapped (word_ids (source pair)) ∧ wrapped (word_ids (target pair)).
Proof.
  unfold make_data_list. intros [i Hi]%list_elem_of_lookup.
  apply lookup_zip_with_Some in Hi as (src & tgt & -> & _ & _).
  simpl. split; apply encode_wrapped.
Qed.

Lemma create_vocab_file_inv dataset_type freq min vocab_file fs fs' vocab :
  create_vocab_file dataset_type freq min vocab_file fs = Return (fs', vocab) →
  unknown_word vocab = "<unk>" ∧ unknown_id vocab = 1 ∧
  (fs !! vocab_file = None →
   ∃ rest, vocab_words vocab = reserved ++ rest ∧
           fs' = <[vocab_file := join_lines (reserved ++ rest)]> fs) ∧
  (∀ text rest, fs !! vocab_file = Some text → read_lines text = reserved ++ rest →
   ∃ rest', vocab_words vocab = reserved ++ rest').
Proof.
  unfold create_vocab_file. intros H.
  destruct (decide (fs !! vocab_file = None ∨ dataset_type = "train")) as [Hc|Hc].
  - destruct (decide (sorted_desc freq = [])); [done|].
    destruct (fs !! vocab_file) as [text|] eqn:Hfs; simpl in H; simplify_eq.
    + simpl. repeat split; [done|]. intros text' rest ? Hr. simplify_eq.
      rewrite Hr. by eexists.
    + simpl. repeat split; [|done]. intros _. unfold new_vocab_tuple. eauto.
  - destruct (fs !! vocab_file) as [text|] eqn:Hfs; simpl in H; simplify_eq.
    simpl. repeat split; [done|]. intros text' rest ? Hr. simplify_eq. eauto.
Qed.

Lemma process_wmt_data_list out_folder in_folder vocab_file max_length min
    dataset_type one_vocab corpus fs fs' data_list :
  process_wmt out_folder in_folder vocab_file max_length min dataset_type
    one_vocab corpus fs = Return (fs', data_list) →
  ∃ src_vocab tgt_vocab,
    data_list = make_data_list src_vocab tgt_vocab (count_lines corpus).
Proof.
  unfold process_wmt. intros H. destruct one_vocab; simpl in H.
  - destruct (create_vocab_file _ _ _ _ _) as [[fs1 v]|]; simpl in H; simplify_eq.
    eauto.
  - destruct (create_vocab_file _ _ _ _ _) as [[fs1 v1]|]; simpl in H; [|done].
    destruct (create_vocab_file _ _ _ _ _) as [[fs2 v2]|]; simpl in H; simplify_eq.
    eauto.
Qed.

Lemma create_vocab_file_other dataset_type freq min vocab_file fs fs' vocab path :
  create_vocab_file dataset_type freq min vocab_file fs = Return (fs', vocab) →
  path ≠ vocab_file → fs' !! path = fs !! path.
Proof.
  unfold create_vocab_file. intros H Hne.
  destruct (decide (fs !! vocab_file = None ∨ dataset_type = "train")) as [Hc|Hc].
  - destruct (decide (sorted_desc freq = [])); [done|].
    destruct (fs !! vocab_file) as [text|]; simpl in H; simplify_eq;
      by rewrite lookup_insert_ne.
  - destruct (fs !! vocab_file) as [text|]; simpl in H; by simplify_eq.
Qed.

Lemma append_inj_l (d x y : string) : d +:+ x = d +:+ y → x = y.
Proof. induction d as [|a d IH]; simpl; [done|]. intros [= H]. by apply IH. Qed.

Lemma src_tgt_paths_differ (d b : string) : d +:+ "/src_" +:+ b ≠ d +:+ "/tgt_" +:+ b.
Proof. intros H%append_inj_l. discriminate. Qed.

(** Every vocabulary file that [process_wmt] creates begins with the
    reserved tokens. *)
Lemma process_wmt_vocab_files out_folder in_folder vocab_file max_length min
    dataset_type one_vocab corpus fs fs' data_list path :
  process_wmt out_folder in_folder vocab_file max_length min dataset_type
    one_vocab corpus fs = Return (fs', data_list) →
  path ∈ vocab_files one_vocab vocab_file →
  fs !! path = None → path ≠ sample_file out_folder dataset_type →
  ∃ rest, fs' !! path = Some (join_lines (reserved ++ rest)).
Proof.
  unfold process_wmt, vocab_files, sample_file. intros H Hpath Hnone Hsample.
  destruct one_vocab; simpl in H.
  - apply list_elem_of_singleton in Hpath as ->.
    destruct (create_vocab_file _ _ _ _ _) as [[fs1 v]|] eqn:Hc; simpl in H; simplify_eq.
    apply create_vocab_file_inv in Hc as (_ & _ & Hfresh & _).
    destruct (Hfresh Hnone) as (rest & _ & ->). exists rest.
    rewrite lookup_insert_ne by done. apply lookup_insert_eq.
  - destruct (create_vocab_file _ _ _ _ fs) as [[fs1 v1]|] eqn:Hc1; simpl in H; [|done].
    destruct (create_vocab_file _ _ _ _ fs1) as [[fs2 v2]|] eqn:Hc2; simpl in H;
      simplify_eq.
    rewrite lookup_insert_ne by done.
    apply elem_of_cons in Hpath as [->|Hpath].
    + rewrite (create_vocab_file_other _ _ _ _ _ _ _ _ Hc2)
        by apply src_tgt_paths_differ.
      apply create_vocab_file_inv in Hc1 as (_ & _ & Hfresh & _).
      destruct (Hfresh Hnone) as (rest & _ & ->). exists rest.
      apply lookup_insert_eq.
    + apply list_elem_of_singleton in Hpath as ->.
      assert (Hnone1 : fs1 !! (dirname vocab_file +:+ "/tgt_" +:+ basename vocab_file) = None).
      { rewrite (create_vocab_file_other _ _ _ _ _ _ _ _ Hc1); [done|].
        intros Heq. by apply (src_tgt_paths_differ (dirname vocab_file) (basename vocab_file)). }
      apply create_vocab_file_inv in Hc2 as (_ & _ & Hfresh & _).
      destruct (Hfresh Hnone1) as (rest & _ & ->). exists rest.
      apply lookup_insert_eq.
Qed.

(** ** C6 *)

(** C6. Ids 0, 1, 2, 3 are those of pad, unknown, start and end: a
    vocabulary that [create_vocab_file] writes to a file that did not
    exist begins with [<pad>], [<unk>], [<start>], [<end>], and one it
    builds from an existing file that begins with them begins with them
    too; its unknown word is [<unk>] with id 1; every vocabulary file that
    [process_wmt] creates begins with the four tokens, and every source
    and target sentence that it encodes starts with id 2 and ends with id
    3; ids 0, 2 and 3, and not 1, are the ones the order inspection treats
    as pad, start or end. *)
Theorem reserved_token_ids (dataset_type vocab_file out_folder in_folder : string)
    (freq : list (string * nat)) (min_word_frequency : Z) (max_length : nat)
    (one_vocab : bool) (corpus : list (list string * list string))
    (fs fs1 fs2 : gmap string string) (vocab : Vocabulary)
    (data_list : list LanguagePair) :
  (create_vocab_file dataset_type freq min_word_frequency vocab_file fs
   = Return (fs1, vocab) →
   unknown_word vocab = "<unk>" ∧ unknown_id vocab = 1 ∧
   (fs !! vocab_file = None →
    ∃ rest, vocab_words vocab = reserved ++ rest ∧
            fs1 = <[vocab_file := join_lines (reserved ++ rest)]> fs) ∧
   (∀ text rest, fs !! vocab_file = Some text → read_lines text = reserved ++ rest →
    ∃ rest', vocab_words vocab = reserved ++ rest')) ∧
  (process_wmt out_folder in_folder vocab_file max_length min_word_frequency
     dataset_type one_vocab corpus fs = Return (fs2, data_list) →
   (∀ pair, pair ∈ data_list →
      wrapped (word_ids (source pair)) ∧ wrapped (word_ids (target pair))) ∧
   (∀ path, path ∈ vocab_files one_vocab vocab_file →
      fs !! path = None → path ≠ sample_file out_folder dataset_type →
      ∃ rest, fs2 !! path = Some (join_lines (reserved ++ rest)))) ∧
  reserved !! 0 = Some "<pad>" ∧ reserved !! 1 = Some "<unk>" ∧
  reserved !! 2 = Some "<start>" ∧ reserved !! 3 = Some "<end>" ∧
  start_end_or_pad 0 = true ∧ start_end_or_pad 1 = false ∧
  start_end_or_pad 2 = true ∧ start_end_or_pad 3 = true.
Proof.
  split; [apply create_vocab_file_inv|]. split; [|done].
  intros H. split.
  - intros pair Hp. apply process_wmt_data_list in H as (v1 & v2 & ->).
    by eapply make_data_list_wrapped.
  - intros path Hpath Hnone Hsample. by eapply process_wmt_vocab_files.
Qed.

(** *** The tables of counts *)

(** [freq[w]] on a [defaultdict(int)]: 0 for a word never counted. *)
Fixpoint get_count (w : string) (d : list (string * nat)) : nat :=
  match d with
  | [] => 0
  | (k, c) :: d' => if decide (k = w) then c else get_count w d'
  end.

(** How many times [w] stands in a list of words. *)
Definition occurrences (w : string) (l : list string) : nat :=
  length (filter (λ x, x = w) l).

(** [for w in l: d[w] += 1] *)
Definition incr_all (d : list (string * nat)) (l : list string) : list (string * nat) :=
  foldl (λ d w, incr w d) d l.

Lemma get_count_incr w w' d :
  get_count w (incr w' d) = get_count w d + (if decide (w' = w) then 1 else 0).
Proof.
  induction d as [|[k c] d IH]; simpl.
  - destruct (decide (w' = w)); done.
  - destruct (decide (k = w')) as [->|Hk]; simpl.
    + destruct (decide (w' = w)); lia.
    + destruct (decide (k = w)) as [->|]; [|done].
      rewrite decide_False by done. lia.
Qed.

Lemma incr_keys w d :
  (incr w d).*1 = if decide (w ∈ d.*1) then d.*1 else d.*1 ++ [w].
Proof.
  induction d as [|[k c] d IH]; [done|].
  cbn [incr]. rewrite (fmap_cons fst (k, c) d). cbn [fst].
  destruct (decide (k = w)) as [->|Hk].
  - rewrite decide_True; [by rewrite fmap_cons|apply list_elem_of_here].
  - rewrite fmap_cons, IH. cbn [fst].
    destruct (decide (w ∈ d.*1)) as [Hin|Hin].
    + rewrite decide_True; [done|by apply list_elem_of_further].
    + rewrite decide_False; [done|].
      rewrite elem_of_cons. intros [->|?]; done.
Qed.

Lemma incr_NoDup w d : NoDup d.*1 → NoDup (incr w d).*1.
Proof.
  intros Hd. rewrite incr_keys. destruct (decide (w ∈ d.*1)); [done|].
  apply NoDup_app. split; [done|]. split; [|apply NoDup_singleton].
  intros x Hx ->%list_elem_of_singleton. done.
Qed.

Lemma incr_positive w d :
  Forall (λ x, 0 < x.2) d → Forall (λ x, 0 < x.2) (incr w d).
Proof.
  induction 1 as [|[k c] d Hc Hd IH]; simpl.
  - repeat constructor.
  - destruct (decide (k = w)); constructor; simpl in *; (lia || done).
Qed.

Lemma get_count_positive w d :
  Forall (λ x, 0 < x.2) d → (w ∈ d.*1 ↔ 0 < get_count w d).
Proof.
  induction 1 as [|[k c] d Hc Hd IH]; simpl.
  - rewrite elem_of_nil. lia.
  - rewrite elem_of_cons. simpl in *. destruct (decide (k = w)) as [->|].
    + split; [lia|by left].
    + rewrite <- IH. split; [intros [?|?]; done|by right].
Qed.

Lemma occurrences_app w l1 l2 :
  occurrences w (l1 ++ l2) = occurrences w l1 + occurrences w l2.
Proof. unfold occurrences. by rewrite filter_app, length_app. Qed.

Lemma incr_all_snoc d l w : incr_all d (l ++ [w]) = incr w (incr_all d l).
Proof. unfold incr_all. by rewrite foldl_app. Qed.

Lemma incr_all_app d l1 l2 : incr_all d (l1 ++ l2) = incr_all (incr_all d l1) l2.
Proof. unfold incr_all. by rewrite foldl_app. Qed.

Lemma get_count_incr_all w d l :
  get_count w (incr_all d l) = get_count w d + occurrences w l.
Proof.
  induction l as [|x l IH] using rev_ind; [unfold occurrences; simpl; lia|].
  rewrite incr_all_snoc, get_count_incr, IH, occurrences_app.
  unfold occurrences at 3. rewrite filter_cons, filter_nil.
  destruct (decide (x = w)); simpl; lia.
Qed.

Lemma incr_all_NoDup d l : NoDup d.*1 → NoDup (incr_all d l).*1.
Proof.
  intros Hd. induction l as [|x l IH] using rev_ind; [done|].
  rewrite incr_all_snoc. by apply incr_NoDup.
Qed.

Lemma incr_all_positive d l :
  Forall (λ x, 0 < x.2) d → Forall (λ x, 0 < x.2) (incr_all d l).
Proof.
  intros Hd. induction l as [|x l IH] using rev_ind; [done|].
  rewrite incr_all_snoc. by apply incr_positive.
Qed.

(** The two tables updated together in the loops of lines 90-95. *)
Lemma foldl_incr_pair (f sf : list (string * nat)) (l : list string) :
  foldl (λ '(f, sf) w, (incr w f, incr w sf)) (f, sf) l
  = (incr_all f l, incr_all sf l).
Proof.
  revert f sf. induction l as [|w l IH]; intros f sf; [done|].
  simpl. by rewrite IH.
Qed.

Lemma count_line_eq st src_list tgt_list :
  count_line st (src_list, tgt_list)
  = {| freq := incr_all (incr_all (freq st) src_list) tgt_list;
       src_freq := incr_all (src_freq st) src_list;
       tgt_freq := incr_all (tgt_freq st) tgt_list;
       all_src_words := all_src_words st ++ [src_list];
       all_tgt_words := all_tgt_words st ++ [tgt_list] |}.
Proof. unfold count_line. by rewrite !foldl_incr_pair. Qed.

Lemma count_lines_snoc corpus line :
  count_lines (corpus ++ [line]) = count_line (count_lines corpus) line.
Proof. unfold count_lines. by rewrite foldl_app. Qed.

Lemma occurrences_pos w l : w ∈ l ↔ 0 < occurrences w l.
Proof.
  unfold occurrences. split.
  - intros Hin. assert (Hf : w ∈ filter (λ x, x = w) l)
      by (by apply list_elem_of_filter).
    destruct (filter _ l); [by apply elem_of_nil in Hf|simpl; lia].
  - intros Hpos. destruct (filter (λ x, x = w) l) as [|x l'] eqn:E;
      [simpl in Hpos; lia|].
    assert (Hx : x ∈ filter (λ x, x = w) l) by (rewrite E; apply list_elem_of_here).
    apply list_elem_of_filter in Hx as [-> ?]. done.
Qed.

(** What the reading loop keeps true of its five variables. *)
Lemma count_lines_inv (corpus : list (list string * list string)) :
  let st := count_lines corpus in
  (∀ w, get_count w (src_freq st) = occurrences w (concat corpus.*1)) ∧
  (∀ w, get_count w (tgt_freq st) = occurrences w (concat corpus.*2)) ∧
  (∀ w, get_count w (freq st)
        = occurrences w (concat corpus.*1) + occurrences w (concat corpus.*2)) ∧
  NoDup (freq st).*1 ∧ NoDup (src_freq st).*1 ∧ NoDup (tgt_freq st).*1 ∧
  Forall (λ x, 0 < x.2) (freq st) ∧ Forall (λ x, 0 < x.2) (src_freq st) ∧
  Forall (λ x, 0 < x.2) (tgt_freq st) ∧
  all_src_words st = corpus.*1 ∧ all_tgt_words st = corpus.*2.
Proof.
  simpl. induction corpus as [|[s t] corpus IH] using rev_ind.
  - unfold occurrences. simpl. repeat split; (done || constructor).
  - destruct IH as (H1 & H2 & H3 & H4 & H5 & H6 & H7 & H8 & H9 & H10 & H11).
    rewrite count_lines_snoc, count_line_eq. simpl.
    rewrite !fmap_app, !concat_app, H10, H11. simpl. rewrite !app_nil_r.
    repeat split; try done; try (by apply incr_all_NoDup);
      try (by apply incr_all_positive).
    + intros w. by rewrite get_count_incr_all, H1, occurrences_app.
    + intros w. by rewrite get_count_incr_all, H2, occurrences_app.
    + intros w. rewrite !get_count_incr_all, H3, !occurrences_app. lia.
    + by do 2 apply incr_all_NoDup.
    + by do 2 apply incr_all_positive.
Qed.

(** X11. After the reading loop, each table holds every word once; the
    count of a word in [src_freq] (in [tgt_freq]) is the number of times
    it stands in the source (target) lines, and its count in [freq] is the
    sum of the two; the keys of [freq] are the words met; [all_src_words]
    and [all_tgt_words] hold the lines in order. *)
Theorem count_lines_counts (corpus : list (list string * list string)) (w : string) :
  let st := count_lines corpus in
  get_count w (src_freq st) = occurrences w (concat corpus.*1) ∧
  get_count w (tgt_freq st) = occurrences w (concat corpus.*2) ∧
  get_count w (freq st) = get_count w (src_freq st) + get_count w (tgt_freq st) ∧
  NoDup (freq st).*1 ∧ NoDup (src_freq st).*1 ∧ NoDup (tgt_freq st).*1 ∧
  (w ∈ (freq st).*1 ↔ w ∈ concat corpus.*1 ∨ w ∈ concat corpus.*2) ∧
  all_src_words st = corpus.*1 ∧ all_tgt_words st = corpus.*2.
Proof.
  simpl.
  destruct (count_lines_inv corpus)
    as (H1 & H2 & H3 & H4 & H5 & H6 & H7 & _ & _ & H10 & H11).
  simpl in *. rewrite H1, H2, H3. repeat split; try done.
  - rewrite (get_count_positive _ _ H7), H3, !occurrences_pos. lia.
  - rewrite (get_count_positive _ _ H7), H3, !occurrences_pos. lia.
Qed.

(** *** One pair of sentences per line *)

Lemma make_data_list_lookup src_vocab tgt_vocab corpus i s t :
  corpus !! i = Some (s, t) →
  make_data_list src_vocab tgt_vocab (count_lines corpus) !! i
  = Some {| source := {| word_ids := encode src_vocab s; sentence_tags := None |};
            target := {| word_ids := encode tgt_vocab t; sentence_tags := None |} |}.
Proof.
  intros Hi. unfold make_data_list.
  destruct (count_lines_inv corpus) as (_&_&_&_&_&_&_&_&_& Hs & Ht).
  simpl in Hs, Ht. rewrite Hs, Ht, lookup_zip_with, !list_lookup_fmap, Hi. done.
Qed.

Lemma make_data_list_length src_vocab tgt_vocab corpus :
  length (make_data_list src_vocab tgt_vocab (count_lines corpus)) = length corpus.
Proof.
  unfold make_data_list.
  destruct (count_lines_inv corpus) as (_&_&_&_&_&_&_&_&_& Hs & Ht).
  simpl in Hs, Ht. rewrite Hs, Ht, length_zip_with, !length_fmap. lia.
Qed.

(** X12. When [process_wmt] returns, the data list has one
    [LanguagePair] per line of the corpus, in the order of the lines: the
    pair of line [i] holds the encoding of its source words and of its
    target words (by the same vocabulary when [one_vocab] is set); the
    pickled list is what the sample file holds. *)
Theorem process_wmt_one_pair_per_line (out_folder in_folder vocab_file : string)
    (max_length : nat) (min_word_frequency : Z) (dataset_type : string)
    (one_vocab : bool) (corpus : list (list string * list string))
    (fs fs' : gmap string string) (data_list : list LanguagePair) :
  process_wmt out_folder in_folder vocab_file max_length min_word_frequency
    dataset_type one_vocab corpus fs = Return (fs', data_list) →
  length data_list = length corpus ∧
  fs' !! sample_file out_folder dataset_type = Some (dumps data_list) ∧
  ∃ src_vocab tgt_vocab,
    (one_vocab = true → src_vocab = tgt_vocab) ∧
    ∀ i s t, corpus !! i = Some (s, t) →
      data_list !! i
      = Some {| source := {| word_ids := encode src_vocab s; sentence_tags := None |};
                target := {| word_ids := encode tgt_vocab t; sentence_tags := None |} |}.
Proof.
  unfold process_wmt, sample_file. intros H. destruct one_vocab; simpl in H.
  - destruct (create_vocab_file _ _ _ _ _) as [[fs1 v]|]; simpl in H; simplify_eq.
    split; [apply make_data_list_length|]. split; [apply lookup_insert_eq|].
    exists v, v. split; [done|]. intros i s t. apply make_data_list_lookup.
  - destruct (create_vocab_file _ _ _ _ _) as [[fs1 v1]|]; simpl in H; [|done].
    destruct (create_vocab_file _ _ _ _ _) as [[fs2 v2]|]; simpl in H; simplify_eq.
    split; [apply make_data_list_length|]. split; [apply lookup_insert_eq|].
    exists v1, v2. split; [done|]. intros i s t. apply make_data_list_lookup.
Qed.

(** *** Vocabulary files that exist, and tables that are empty *)

Lemma create_vocab_file_empty dataset_type min vocab_file fs :
  fs !! vocab_file = None ∨ dataset_type = "train" →
  create_vocab_file dataset_type [] min vocab_file fs = Raise ValueError.
Proof. intros H. unfold create_vocab_file. by rewrite decide_True. Qed.

Lemma create_vocab_file_read dataset_type freq min vocab_file fs text :
  fs !! vocab_file = Some text → dataset_type ≠ "train" →
  create_vocab_file dataset_type freq min vocab_file fs
  = Return (fs, {| vocab_words := read_lines text; unknown_word := "<unk>";
                   unknown_id := 1 |}).
Proof.
  intros Hf Hd. unfold create_vocab_file. rewrite decide_False.
  - by rewrite Hf.
  - rewrite Hf. intros [?|?]; done.
Qed.

(** X13. On a corpus without lines, [process_wmt] raises [ValueError]
    (line 105 unpacks an empty [zip]) whenever the first vocabulary file
    is to be written: when it does not exist, or when the dataset type is
    ['train']. *)
Theorem process_wmt_empty_corpus (out_folder in_folder vocab_file : string)
    (max_length : nat) (min_word_frequency : Z) (dataset_type : string)
    (one_vocab : bool) (fs : gmap string string) (path : string) :
  head (vocab_files one_vocab vocab_file) = Some path →
  fs !! path = None ∨ dataset_type = "train" →
  process_wmt out_folder in_folder vocab_file max_length min_word_frequency
    dataset_type one_vocab [] fs = Raise ValueError.
Proof.
  unfold vocab_files, process_wmt. intros Hp Hc.
  destruct one_vocab; simpl in *; simplify_eq;
    by rewrite create_vocab_file_empty.
Qed.

(** X14. With a dataset type other than ['train'] and vocabulary files
    that exist, [process_wmt] returns for every corpus; it writes the
    sample file and nothing else, and the data list is encoded with the
    vocabularies read from the files: the counts of the corpus and
    [min_word_frequency] play no part. *)
Theorem process_wmt_read_only (out_folder in_folder vocab_file : string)
    (max_length : nat) (dataset_type : string) (one_vocab : bool)
    (corpus : list (list string * list string)) (fs : gmap string string) :
  dataset_type ≠ "train" →
  (∀ path, path ∈ vocab_files one_vocab vocab_file → is_Some (fs !! path)) →
  ∃ data_list,
    length data_list = length corpus ∧
    ∀ min_word_frequency,
      process_wmt out_folder in_folder vocab_file max_length min_word_frequency
        dataset_type one_vocab corpus fs
      = Return (<[sample_file out_folder dataset_type := dumps data_list]> fs,
                data_list).
Proof.
  unfold vocab_files, process_wmt, sample_file. intros Hd Hf.
  destruct one_vocab.
  - destruct (Hf _ (list_elem_of_here _ _)) as [text Ht].
    eexists. split; [|intros min; simpl;
      rewrite (create_vocab_file_read _ _ _ _ _ _ Ht Hd); simpl; reflexivity].
    apply make_data_list_length.
  - destruct (Hf _ (list_elem_of_here _ _)) as [ts Hs].
    destruct (Hf _ (list_elem_of_further _ _ _ (list_elem_of_here _ _))) as [tt Ht].
    eexists. split; [|intros min; simpl;
      rewrite (create_vocab_file_read _ _ _ _ _ _ Hs Hd); simpl;
      rewrite (create_vocab_file_read _ _ _ _ _ _ Ht Hd); simpl; reflexivity].
    apply make_data_list_length.
Qed.

(** *** Adding to an old vocabulary *)

(** X15. On ['train'] with a vocabulary file that exists and a table that
    is not empty, [create_vocab_file] keeps the old vocabulary and appends
    the words of the new tuple that the old one lacks: every old word
    keeps its index, every word of the new tuple is in the result, no
    appended word was in the old vocabulary, and nothing is appended when
    the old one already holds the tuple. *)
Theorem create_vocab_file_append (freq : list (string * nat))
    (min_word_frequency : Z) (vocab_file text : string) (fs : gmap string string) :
  fs !! vocab_file = Some text → freq ≠ [] →
  let old_vocab := read_lines text in
  let vocab := new_vocab_tuple freq min_word_frequency in
  let new_vocab := filter (λ v, v ∉ old_vocab) vocab in
  create_vocab_file "train" freq min_word_frequency vocab_file fs
  = Return (<[vocab_file := join_lines old_vocab +:+ "
" +:+ join_lines new_vocab]> fs,
            {| vocab_words := old_vocab ++ new_vocab; unknown_word := "<unk>";
               unknown_id := 1 |}) ∧
  (∀ i w, old_vocab !! i = Some w → (old_vocab ++ new_vocab) !! i = Some w) ∧
  (∀ w, w ∈ vocab → w ∈ old_vocab ++ new_vocab) ∧
  (∀ w, w ∈ new_vocab → w ∉ old_vocab) ∧
  ((∀ w, w ∈ vocab → w ∈ old_vocab) → new_vocab = []).
Proof.
  intros Hf Hne old_vocab vocab new_vocab. split; [|split; [|split; [|split]]].
  - unfold create_vocab_file. rewrite decide_True by (by right).
    rewrite decide_False by (by rewrite sorted_desc_nil). by rewrite Hf.
  - intros i w Hi. by apply lookup_app_l_Some.
  - intros w Hw. rewrite elem_of_app. destruct (decide (w ∈ old_vocab)); [by left|].
    right. by apply list_elem_of_filter.
  - intros w Hw. by apply list_elem_of_filter in Hw as [? _].
  - intros Hall. unfold new_vocab. induction vocab as [|v vocab IH]; [done|].
    rewrite filter_cons, decide_False.
    + apply IH. intros w Hw. apply Hall. by right.
    + intros Hv. apply Hv, Hall. by left.
Qed.

(** *** A vocabulary without repeated words *)

Lemma sorted_desc_keys_NoDup (d : list (string * nat)) :
  NoDup d.*1 → NoDup (sorted_desc d).*1.
Proof.
  intros H. by rewrite sorted_desc_perm.
Qed.

Lemma new_vocab_tuple_NoDup (d : list (string * nat)) min :
  NoDup d.*1 → (∀ w, w ∈ d.*1 → w ∉ reserved) →
  NoDup (new_vocab_tuple d min).
Proof.
  intros Hd Hr. unfold new_vocab_tuple. cbv zeta. apply NoDup_app.
  split; [|split].
  - unfold reserved. apply NoDup_ListNoDup. repeat constructor; simpl; intuition discriminate.
  - intros w Hw Hin. apply elem_of_take in Hin as (i & Hin & _).
    apply list_elem_of_lookup_2 in Hin.
    rewrite sorted_desc_perm in Hin. by apply (Hr w).
  - eapply sublist_NoDup; [|apply sublist_take]. by apply sorted_desc_keys_NoDup.
Qed.

(** X16. When no word of the corpus is one of the four reserved tokens,
    the vocabulary tuples built from the three tables of counts hold no
    word twice, whatever the threshold: every word has one id. *)
Theorem vocabulary_no_duplicates (corpus : list (list string * list string))
    (min_word_frequency : Z) :
  (∀ w, w ∈ concat corpus.*1 ∨ w ∈ concat corpus.*2 → w ∉ reserved) →
  let st := count_lines corpus in
  NoDup (new_vocab_tuple (freq st) min_word_frequency) ∧
  NoDup (new_vocab_tuple (src_freq st) min_word_frequency) ∧
  NoDup (new_vocab_tuple (tgt_freq st) min_word_frequency).
Proof.
  intros Hr. simpl.
  destruct (count_lines_inv corpus)
    as (H1 & H2 & H3 & H4 & H5 & H6 & H7 & H8 & H9 & _).
  simpl in *. split; [|split]; apply new_vocab_tuple_NoDup; try done.
  - intros w Hw. apply Hr.
    rewrite (get_count_positive _ _ H7), H3 in Hw. rewrite !occurrences_pos. lia.
  - intros w Hw. apply Hr. left.
    rewrite (get_count_positive _ _ H8), H1 in Hw. by rewrite occurrences_pos.
  - intros w Hw. apply Hr. right.
    rewrite (get_count_positive _ _ H9), H2 in Hw. by rewrite occurrences_pos.
Qed.

(** *** Raising the threshold *)

Lemma split_loop_ge min (l : list nat) i split :
  split_loop min l i split = split ∨ i ≤ split_loop min l i split.
Proof.
  revert i split. induction l as [|f l IH]; intros i split; simpl; [by left|].
  case_decide; [by right|]. right.
  destruct (IH (S i) i) as [->|?]; lia.
Qed.

Lemma split_loop_le min (l : list nat) i split :
  split ≤ i → split_loop min l i split < i + length l ∨ l = [].
Proof.
  revert i split. induction l as [|f l IH]; intros i split Hs; [by right|].
  left. simpl. case_decide; [lia|].
  destruct (IH (S i) i) as [?| ->]; simpl; lia.
Qed.

Lemma split_loop_mono min min' (l : list nat) i split :
  (min ≤ min')%Z →
  split_loop min' l i split ≤ split_loop min l i split.
Proof.
  intros Hm. revert i split. induction l as [|f l IH]; intros i split; simpl; [done|].
  destruct (decide (Z.of_nat f < min')%Z) as [H'|H'].
  - destruct (decide (Z.of_nat f < min)%Z); [done|].
    destruct (split_loop_ge min l (S i) i) as [->|?]; lia.
  - rewrite decide_False by lia. apply IH.
Qed.

(** X17. At least one word of the table is kept and at most all of them,
    whatever the threshold; a higher threshold keeps a prefix of what a
    lower one keeps, so never more words. *)
Theorem new_vocab_tuple_threshold_monotone (freq : list (string * nat))
    (min min' : Z) :
  freq ≠ [] → (min ≤ min')%Z →
  5 ≤ length (new_vocab_tuple freq min) ≤ 4 + length freq ∧
  new_vocab_tuple freq min' `prefix_of` new_vocab_tuple freq min ∧
  length (new_vocab_tuple freq min') ≤ length (new_vocab_tuple freq min).
Proof.
  intros Hne Hm. unfold new_vocab_tuple, find_split. cbv zeta.
  assert (Hlen : length (sorted_desc freq) = length freq)
    by (by rewrite sorted_desc_perm).
  assert (Hpos : 0 < length freq) by (destruct freq; [done|simpl; lia]).
  pose proof (split_loop_mono min min' (sorted_desc freq).*2 0 0 Hm) as Hmono.
  set (k := split_loop min (sorted_desc freq).*2 0 0) in *.
  set (k' := split_loop min' (sorted_desc freq).*2 0 0) in *.
  rewrite !length_app, !length_take, !length_fmap, Hlen. simpl length.
  split; [lia|]. split; [|lia].
  apply prefix_app. exists (drop (k' + 1) (take (k + 1) (sorted_desc freq).*1)).
  rewrite <- (take_drop (k' + 1) (take (k + 1) (sorted_desc freq).*1)) at 1.
  f_equal. rewrite take_take. f_equal. lia.
Qed.

End ProcessWmt.

(** *** The theorems on a small corpus *)

(** An instance of the outside method [words_to_ids] for the examples:
    the index of the word in the vocabulary, or the unknown id. *)
Definition index_or_unknown (vocab : Vocabulary) (words : list string) : list nat :=
  (λ w, match list_find (λ x, x = w) (vocab_words vocab) with
        | Some (i, _) => i
        | None => unknown_id vocab
        end) <$> words.

(** C10 on the counts [a: 3, b: 2, c: 1] with threshold 2: the words
    [a], [b] and the first word below the threshold, [c], are written. *)
Lemma create_vocab_file_fresh_witness :
  let freq := [("a", 3); ("b", 2); ("c", 1)] in
  (∅ : gmap string string) !! "vocab.txt" = None ∧ freq ≠ [] ∧
  create_vocab_file (λ _, []) "train" freq 2 "vocab.txt" ∅
  = Return (<["vocab.txt" := join_lines (reserved ++ ["a"; "b"; "c"])]> ∅,
            {| vocab_words := reserved ++ ["a"; "b"; "c"];
               unknown_word := "<unk>"; unknown_id := 1 |}) ∧
  length (filter (below 2) (take 3 (sorted_desc freq))) = 1.
Proof.
  intros freq.
  assert (H1 : (∅ : gmap string string) !! "vocab.txt" = None) by reflexivity.
  assert (H2 : freq ≠ []) by discriminate.
  destruct (create_vocab_file_fresh (λ _, []) "train" freq 2 "vocab.txt" ∅ H1 H2)
    as (Hret & _ & _ & Hbelow & _).
  split; [exact H1|]. split; [exact H2|]. split; [exact Hret|].
  apply Hbelow. exists ("c", 1). split.
  - unfold freq. apply list_elem_of_In. simpl. tauto.
  - unfold below. simpl. lia.
Defined.

(** C6 on a corpus of one pair of sentences and an empty disk. *)
Lemma reserved_token_ids_witness :
  let dirname := λ _ : string, "data" in
  let basename := λ _ : string, "vocab.txt" in
  let path_join := λ a b : string, a +:+ "/" +:+ b in
  let corpus := [(["a"; "b"; "a"], ["x"; "y"])] in
  ∃ fs1 fs2,
    create_vocab_file (λ _, []) "train" [("a", 2); ("b", 1)] 1 "data/vocab.txt" ∅
    = Return (fs1, {| vocab_words := reserved ++ ["a"; "b"];
                      unknown_word := "<unk>"; unknown_id := 1 |}) ∧
    process_wmt dirname basename path_join (λ _, []) index_or_unknown (λ _, "")
      "out" "in" "data/vocab.txt" 10 1 "train" false corpus ∅
    = Return (fs2,
              [ {| source := {| word_ids := [2; 4; 5; 4; 3]; sentence_tags := None |};
                   target := {| word_ids := [2; 4; 5; 3]; sentence_tags := None |} |} ]) ∧
    fs1 = <["data/vocab.txt" := join_lines (reserved ++ ["a"; "b"])]> ∅ ∧
    wrapped [2; 4; 5; 4; 3] ∧ wrapped [2; 4; 5; 3].
Proof.
  intros dirname basename path_join corpus.
  eexists _, _.
  assert (Hc : create_vocab_file (λ _, []) "train" [("a", 2); ("b", 1)] 1
                 "data/vocab.txt" ∅
               = Return (<["data/vocab.txt" := join_lines (reserved ++ ["a"; "b"])]> ∅,
                         {| vocab_words := reserved ++ ["a"; "b"];
                            unknown_word := "<unk>"; unknown_id := 1 |}))
    by reflexivity.
  assert (Hp : process_wmt dirname basename path_join (λ _, []) index_or_unknown
                 (λ _, "") "out" "in" "data/vocab.txt" 10 1 "train" false corpus ∅
               = Return (<["out/train.pkl" := ""]>
                           (<["data/tgt_vocab.txt" := join_lines (reserved ++ ["x"; "y"])]>
                              (<["data/src_vocab.txt" := join_lines (reserved ++ ["a"; "b"])]> ∅)),
                   [ {| source := {| word_ids := [2; 4; 5; 4; 3]; sentence_tags := None |};
                        target := {| word_ids := [2; 4; 5; 3]; sentence_tags := None |} |} ]))
    by (vm_compute; reflexivity).
  destruct (reserved_token_ids dirname basename path_join (λ _, []) index_or_unknown
              (λ _, "") "train" "data/vocab.txt" "out" "in" [("a", 2); ("b", 1)] 1 10
              false corpus ∅
              (<["data/vocab.txt" := join_lines (reserved ++ ["a"; "b"])]> ∅)
              (<["out/train.pkl" := ""]>
                 (<["data/tgt_vocab.txt" := join_lines (reserved ++ ["x"; "y"])]>
                    (<["data/src_vocab.txt" := join_lines (reserved ++ ["a"; "b"])]> ∅)))
              {| vocab_words := reserved ++ ["a"; "b"];
                 unknown_word := "<unk>"; unknown_id := 1 |}
              [ {| source := {| word_ids := [2; 4; 5; 4; 3]; sentence_tags := None |};
                   target := {| word_ids := [2; 4; 5; 3]; sentence_tags := None |} |} ])
    as (Hv & Hw & _).
  destruct (Hv Hc) as (_ & _ & Hfresh & _).
  destruct (Hfresh eq_refl) as (rest & Hrest & Hfs).
  destruct (Hw Hp) as [Hw' _].
  specialize (Hw' _ (list_elem_of_here _ _)) as [Hs Ht].
  split; [exact Hc|]. split; [exact Hp|]. split; [reflexivity|].
  split; [exact Hs|exact Ht].
Defined.

(** The further theorems on the same corpus. *)
Definition demo_process_wmt :=
  process_wmt (λ _ : string, "data") (λ _ : string, "vocab.txt")
    (λ a b : string, a +:+ "/" +:+ b) (λ _, reserved ++ ["a"]) index_or_unknown
    (λ _, "").

Definition demo_corpus : list (list string * list string) :=
  [(["a"; "b"; "a"], ["x"; "y"])].

Lemma process_wmt_one_pair_per_line_witness :
  ∃ fs2 data_list,
    demo_process_wmt "out" "in" "data/vocab.txt" 10 1 "train" false demo_corpus ∅
    = Return (fs2, data_list) ∧
    length data_list = 1 ∧ fs2 !! "out/train.pkl" = Some "".
Proof.
  assert (Hp : demo_process_wmt "out" "in" "data/vocab.txt" 10 1 "train" false
                 demo_corpus ∅
               = Return (<["out/train.pkl" := ""]>
                           (<["data/tgt_vocab.txt" := join_lines (reserved ++ ["x"; "y"])]>
                              (<["data/src_vocab.txt" := join_lines (reserved ++ ["a"; "b"])]> ∅)),
                   [ {| source := {| word_ids := [2; 4; 5; 4; 3]; sentence_tags := None |};
                        target := {| word_ids := [2; 4; 5; 3]; sentence_tags := None |} |} ]))
    by (vm_compute; reflexivity).
  unfold demo_process_wmt in Hp.
  destruct (process_wmt_one_pair_per_line _ _ _ _ _ _ _ _ _ _ _ _ _ _ _ _ _ Hp)
    as (Hlen & Hfile & _).
  eexists _, _. split; [exact Hp|]. split; [exact Hlen|exact Hfile].
Defined.

Lemma process_wmt_empty_corpus_witness :
  demo_process_wmt "out" "in" "data/vocab.txt" 10 1 "train" true [] ∅
  = Raise ValueError.
Proof.
  apply (process_wmt_empty_corpus _ _ _ _ _ _ "out" "in" "data/vocab.txt" 10 1
           "train" true ∅ "data/vocab.txt").
  - reflexivity.
  - left. reflexivity.
Defined.

Lemma process_wmt_read_only_witness :
  ∃ data_list,
    length data_list = 1 ∧
    ∀ min_word_frequency,
      demo_process_wmt "out" "in" "data/vocab.txt" 10 min_word_frequency "val"
        true demo_corpus (<["data/vocab.txt" := "old"]> ∅)
      = Return (<["out/val.pkl" := ""]> (<["data/vocab.txt" := "old"]> ∅),
                data_list).
Proof.
  apply (process_wmt_read_only (λ _ : string, "data") (λ _ : string, "vocab.txt")
           (λ a b : string, a +:+ "/" +:+ b) (λ _, reserved ++ ["a"])
           index_or_unknown (λ _, "") "out" "in" "data/vocab.txt" 10 "val" true
           demo_corpus (<["data/vocab.txt" := "old"]> ∅)).
  - discriminate.
  - intros path Hin. apply list_elem_of_singleton in Hin as ->.
    exists "old". apply lookup_insert_eq.
Defined.

Lemma create_vocab_file_append_witness :
  ∃ fs',
    create_vocab_file (λ _, reserved ++ ["a"]) "train" [("a", 2); ("b", 1)] 1
      "vocab.txt" (<["vocab.txt" := "old"]> ∅)
    = Return (fs', {| vocab_words := reserved ++ ["a"; "b"];
                      unknown_word := "<unk>"; unknown_id := 1 |}).
Proof.
  destruct (create_vocab_file_append (λ _, reserved ++ ["a"]) [("a", 2); ("b", 1)]
              1 "vocab.txt" "old" (<["vocab.txt" := "old"]> ∅))
    as [Hrun _].
  - apply lookup_insert_eq.
  - discriminate.
  - eexists. exact Hrun.
Defined.

Lemma vocabulary_no_duplicates_witness :
  NoDup (new_vocab_tuple (freq (count_lines demo_corpus)) 1) ∧
  new_vocab_tuple (freq (count_lines demo_corpus)) 1
  = reserved ++ ["a"; "b"; "x"; "y"].
Proof.
  split; [|reflexivity].
  apply (vocabulary_no_duplicates demo_corpus 1).
  intros w Hw. unfold reserved. simpl in Hw.
  rewrite !elem_of_cons, !elem_of_nil in Hw. rewrite !elem_of_cons, elem_of_nil.
  intros Hr. destruct Hw as [Hw|Hw];
    repeat (destruct Hw as [->|Hw]; [intuition discriminate|]); done.
Defined.

Lemma new_vocab_tuple_threshold_monotone_witness :
  new_vocab_tuple [("a", 3); ("b", 2); ("c", 1)] 3
    `prefix_of` new_vocab_tuple [("a", 3); ("b", 2); ("c", 1)] 2 ∧
  new_vocab_tuple [("a", 3); ("b", 2); ("c", 1)] 3 = reserved ++ ["a"; "b"] ∧
  new_vocab_tuple [("a", 3); ("b", 2); ("c", 1)] 2 = reserved ++ ["a"; "b"; "c"].
Proof.
  split; [|split; reflexivity].
  apply (new_vocab_tuple_threshold_monotone [("a", 3); ("b", 2); ("c", 1)] 2 3);
    [discriminate|lia].
Defined.

(** *** The sort is stable *)

Lemma insert_desc_filter (c : nat) (x : string * nat) (l : list (string * nat)) :
  filter (λ y, y.2 = c) (insert_desc x l) = filter (λ y, y.2 = c) (x :: l).
Proof.
  induction l as [|y l IH]; [done|]. cbn [insert_desc].
  destruct (decide (y.2 ≤ x.2)) as [Hle|Hgt]; [done|].
  rewrite filter_cons, IH, !filter_cons.
  destruct (decide (y.2 = c)), (decide (x.2 = c)); (done || lia).
Qed.

(** X28. The sort of line 106 is the stable sort by decreasing count: the
    result holds the same items, the counts never increase along it, and
    the items of one count keep the order they had in the table. *)
Theorem sorted_desc_stable_sort (items : list (string * nat)) (c : nat) :
  sorted_desc items ≡ₚ items ∧
  decreasing (sorted_desc items) ∧
  filter (λ y, y.2 = c) (sorted_desc items) = filter (λ y, y.2 = c) items.
Proof.
  split; [apply sorted_desc_perm|]. split; [apply sorted_desc_decreasing|].
  induction items as [|x items IH]; [done|].
  change (sorted_desc (x :: items)) with (insert_desc x (sorted_desc items)).
  by rewrite insert_desc_filter, !filter_cons, IH.
Qed.

(** *** The reading loop (captions_wmt.py, lines 74-98) *)

(** [s[-1]], which raises [IndexError] on the empty string, and
    [s[:-1]]. *)
Fixpoint last_char (s : string) : option Ascii.ascii :=
  match s with
  | EmptyString => None
  | String a EmptyString => Some a
  | String _ s' => last_char s'
  end.

Fixpoint remove_last (s : string) : string :=
  match s with
  | EmptyString => EmptyString
  | String _ EmptyString => EmptyString
  | String a s' => String a (remove_last s')
  end.

(** The character ['\n']. *)
Definition line_feed : Ascii.ascii := Ascii.ascii_of_nat 10.

(** What the loop leaves: the counter [tot_lines] and the word lists of
    the lines, or the [IndexError] of lines 83 and 85. *)
Inductive reading : Type :=
  | Lines (tot_lines : nat) (corpus : list (list string * list string))
  | IndexError.

Section ReadLoop.

(** [strip s] is [s.strip()] and [split s] is [s.split(' ')]. *)
Variables (strip : string → string) (split : string → list string).

(** Lines 81-86 on one line: [line = line.strip()], then
    [if line[-1] == '\n': line = line[:-1]]. *)
Definition clean (line : string) : option string :=
  let line := strip line in
  match last_char line with
  | None => None
  | Some c => Some (if decide (c = line_feed) then remove_last line else line)
  end.

(** The loop, on the lines that are left to read in the two files;
    [readline] returns the empty string at the end of a file. *)
Fixpoint read_loop (src_file tgt_file : list string) (tot_lines : nat)
    (corpus : list (list string * list string)) : reading :=
  let tot_lines := S tot_lines in
  match src_file with
  | [] => Lines tot_lines corpus
  | src :: src_file =>
      let tgt := default EmptyString (head tgt_file) in
      if decide (src = EmptyString) then Lines tot_lines corpus
      else
        match clean src, clean tgt with
        | Some src, Some tgt =>
            read_loop src_file (tail tgt_file) tot_lines
              (corpus ++ [(split src, split tgt)])
        | _, _ => IndexError
        end
  end.

Definition read_corpus (src_file tgt_file : list string) : reading :=
  read_loop src_file tgt_file 0 [].

Lemma read_loop_spec (src_file tgt_file : list string) n acc :
  Forall (λ l, l ≠ EmptyString) src_file →
  match read_loop src_file tgt_file n acc with
  | Lines tot_lines corpus =>
      tot_lines = n + length src_file + 1 ∧
      ∃ new, corpus = acc ++ new ∧ length new = length src_file ∧
        ∀ i s, src_file !! i = Some s →
          ∃ s' t', clean s = Some s' ∧
                   clean (default EmptyString (tgt_file !! i)) = Some t' ∧
                   new !! i = Some (split s', split t')
  | IndexError =>
      ∃ i s, src_file !! i = Some s ∧
             (clean s = None ∨ clean (default EmptyString (tgt_file !! i)) = None)
  end.
Proof.
  intros Hsrc. revert tgt_file n acc.
  induction Hsrc as [|src src_file Hne Hsrc IH]; intros tgt_file n acc.
  - simpl. split; [lia|]. exists []. rewrite app_nil_r. by repeat split.
  - cbn [read_loop]. rewrite decide_False by done.
    assert (Hhead : default EmptyString (head tgt_file)
                    = default EmptyString (tgt_file !! 0)) by (by destruct tgt_file).
    assert (Htail : ∀ i, tail tgt_file !! i = tgt_file !! S i)
      by (by destruct tgt_file).
    rewrite Hhead.
    destruct (clean src) as [s'|] eqn:Hs; [|exists 0, src; by split; [|left]].
    destruct (clean (default EmptyString (tgt_file !! 0))) as [t'|] eqn:Ht;
      [|exists 0, src; by split; [|right]].
    specialize (IH (tail tgt_file) (S n) (acc ++ [(split s', split t')])).
    destruct (read_loop _ _ _ _) as [tot corpus|].
    + destruct IH as (-> & new & -> & Hlen & Hnew). split; [simpl; lia|].
      exists ((split s', split t') :: new). rewrite <- (assoc_L (++)).
      split; [done|]. split; [simpl; lia|].
      intros [|i] s Hi; simpl in Hi.
      * simplify_eq. exists s', t'. by repeat split.
      * destruct (Hnew i s Hi) as (s1 & t1 & H1 & H2 & H3).
        rewrite Htail in H2. exists s1, t1. by repeat split.
    + destruct IH as (i & s & Hi & Hc). exists (S i), s. split; [done|].
      by rewrite Htail in Hc.
Qed.

(** X18. The source file decides how far the loop reads.  When the loop
    ends normally, there is one pair of word lists per source line, made
    of the words of the cleaned source line and of the cleaned target line
    of the same number, and [tot_lines] is one more than the number of
    lines.  The loop raises [IndexError] exactly when a source line, or
    the target line of the same number, is empty once stripped; a target
    file shorter than the source file is such a case. *)
Theorem read_corpus_lines (src_file tgt_file : list string) :
  Forall (λ l, l ≠ EmptyString) src_file →
  match read_corpus src_file tgt_file with
  | Lines tot_lines corpus =>
      tot_lines = length src_file + 1 ∧ length corpus = length src_file ∧
      ∀ i s, src_file !! i = Some s →
        ∃ s' t', clean s = Some s' ∧
                 clean (default EmptyString (tgt_file !! i)) = Some t' ∧
                 corpus !! i = Some (split s', split t')
  | IndexError =>
      ∃ i s, src_file !! i = Some s ∧
             (clean s = None ∨ clean (default EmptyString (tgt_file !! i)) = None)
  end ∧
  (strip EmptyString = EmptyString → length tgt_file < length src_file →
   read_corpus src_file tgt_file = IndexError).
Proof.
  intros Hsrc. unfold read_corpus.
  pose proof (read_loop_spec src_file tgt_file 0 [] Hsrc) as H.
  destruct (read_loop src_file tgt_file 0 []) as [tot corpus|].
  - destruct H as (-> & new & -> & Hlen & Hnew). simpl.
    split; [by repeat split|]. intros Hstrip Hshort.
    destruct (lookup_lt_is_Some_2 src_file (length tgt_file) Hshort) as [s Hs].
    destruct (Hnew _ _ Hs) as (s' & t' & _ & Ht & _).
    rewrite lookup_ge_None_2 in Ht by done. simpl in Ht.
    unfold clean in Ht. rewrite Hstrip in Ht. done.
  - split; [exact H|done].
Qed.

End ReadLoop.

(** X18 on two files of two lines, with a [strip] that removes one
    trailing line feed and a [split] that keeps the line whole. *)
Lemma read_corpus_lines_witness :
  read_corpus (λ s, if decide (last_char s = Some line_feed)
                    then remove_last s else s) (λ s, [s])
    ["a b
"; "c
"] ["x
"; "y
"]
  = Lines 3 [(["a b"], ["x"]); (["c"], ["y"])] ∧
  read_corpus (λ s, if decide (last_char s = Some line_feed)
                    then remove_last s else s) (λ s, [s])
    ["a b
"; "c
"] ["x
"]
  = IndexError.
Proof.
  split; [reflexivity|].
  apply (read_corpus_lines
           (λ s, if decide (last_char s = Some line_feed)
                 then remove_last s else s) (λ s, [s])).
  - repeat constructor; discriminate.
  - reflexivity.
  - simpl. lia.
Defined.

End Wmt.

(** ** The validity mask of the permutation layer
    (permutation_layer.py, lines 60-92) *)

Module PermLayer.

#[local] Instance Q_inhabited : Inhabited Q := populate 0%Q.

(** Lines 68-69: [tf.logical_and(tf.expand_dims(queries_mask, -2),
    tf.expand_dims(queries_mask, -1))], for one element of the batch. *)
Definition pair_mask (queries_mask : list bool) : list (list bool) :=
  (λ qi, (λ qj, qj && qi) <$> queries_mask) <$> queries_mask.

(** Lines 75-76: [tf.eye(n, num_columns=n, dtype=tf.bool)]. *)
Definition eye (n : nat) : list (list bool) :=
  (λ i, (λ j, bool_decide (i = j)) <$> seq 0 n) <$> seq 0 n.

(** [tf.logical_or] of two matrices of the same shape. *)
Definition logical_or (a b : list (list bool)) : list (list bool) :=
  zip_with (zip_with orb) a b.

(** Line 77, before the cast to floats. *)
Definition eye_mask (queries_mask : list bool) : list (list bool) :=
  logical_or (pair_mask queries_mask) (eye (length queries_mask)).

(** The sum of a list of rationals. *)
Definition Qsum (l : list Q) : Q := foldr Qplus 0%Q l.

Definition row_sum (P : list (list Q)) (i : nat) : Q := Qsum (P !!! i).
Definition col_sum (P : list (list Q)) (j : nat) : Q := Qsum ((λ row, row !!! j) <$> P).

(** Modelled from the spec: the layer [StickBreaking] of
    [voi.nn.base.stick_breaking] is not part of the sources.  This is the
    numerical contract of the doubly-stochastic normalizer: the output has
    the shape of the mask, every cell the mask marks invalid is exactly 0,
    and every row and every column sums to 1 within [eps]. *)
Definition normalized (eps : Q) (mask : list (list bool)) (P : list (list Q)) : Prop :=
  let n := length mask in
  length P = n ∧
  (∀ i, i < n → length (P !!! i) = n) ∧
  (∀ i j, i < n → j < n → (mask !!! i) !!! j = false → ((P !!! i) !!! j == 0)%Q) ∧
  (∀ i, i < n → (1 - eps <= row_sum P i)%Q ∧ (row_sum P i <= 1 + eps)%Q) ∧
  (∀ j, j < n → (1 - eps <= col_sum P j)%Q ∧ (col_sum P j <= 1 + eps)%Q).

Section Call.

(** The normalizer, called at line 91 with the scaled noise sample and
    the mask. *)
Variable stick_breaking : list (list Q) → list (list bool) → list (list Q).

(** Lines 79-92, given the sample [noise.sample()] of the Gaussian. *)
Definition call (noise_sample : list (list Q)) (temperature : Q)
    (queries_mask : list bool) : list (list Q) :=
  stick_breaking ((λ row : list Q, (λ x, x / temperature)%Q <$> row) <$> noise_sample)
                 (eye_mask queries_mask).

End Call.

(** The identity matrix, as a matrix of rationals. *)
Definition identity (n : nat) : list (list Q) :=
  (λ i, (λ j, if bool_decide (i = j) then 1%Q else 0%Q) <$> seq 0 n) <$> seq 0 n.

(** *** The cells of the masks *)

Lemma pair_mask_cell qm i j qi qj :
  qm !! i = Some qi → qm !! j = Some qj →
  (pair_mask qm !!! i) !!! j = qj && qi.
Proof.
  intros Hi Hj. unfold pair_mask.
  rewrite (list_lookup_total_correct _ i ((λ qj, qj && qi) <$> qm))
    by (by rewrite list_lookup_fmap, Hi).
  apply list_lookup_total_correct. by rewrite list_lookup_fmap, Hj.
Qed.

Lemma eye_cell n i j : i < n → j < n → (eye n !!! i) !!! j = bool_decide (i = j).
Proof.
  intros Hi Hj. unfold eye.
  rewrite (list_lookup_total_correct _ i ((λ j, bool_decide (i = j)) <$> seq 0 n))
    by (by rewrite list_lookup_fmap, lookup_seq_lt).
  apply list_lookup_total_correct. by rewrite list_lookup_fmap, lookup_seq_lt.
Qed.

Lemma eye_mask_cell qm i j qi qj :
  qm !! i = Some qi → qm !! j = Some qj →
  (eye_mask qm !!! i) !!! j = (qj && qi) || bool_decide (i = j).
Proof.
  intros Hi Hj. unfold eye_mask, logical_or.
  pose proof (lookup_lt_Some _ _ _ Hi) as Hil.
  pose proof (lookup_lt_Some _ _ _ Hj) as Hjl.
  assert (Hp : pair_mask qm !! i = Some ((λ qj, qj && qi) <$> qm))
    by (unfold pair_mask; by rewrite list_lookup_fmap, Hi).
  assert (He : eye (length qm) !! i
               = Some ((λ j, bool_decide (i = j)) <$> seq 0 (length qm)))
    by (unfold eye; by rewrite list_lookup_fmap, lookup_seq_lt).
  rewrite (list_lookup_total_correct _ i
             (zip_with orb ((λ qj, qj && qi) <$> qm)
                ((λ j, bool_decide (i = j)) <$> seq 0 (length qm))))
    by (rewrite lookup_zip_with, Hp; simpl; by rewrite He).
  apply list_lookup_total_correct.
  rewrite lookup_zip_with, !list_lookup_fmap, Hj, lookup_seq_lt by done. done.
Qed.

Lemma eye_mask_length qm : length (eye_mask qm) = length qm.
Proof.
  unfold eye_mask, logical_or, pair_mask, eye.
  rewrite length_zip_with, !length_fmap, length_seq. lia.
Qed.

(** *** Sums with a single non-zero term *)

Lemma Qsum_zero (l : list Q) :
  (∀ j, j < length l → (l !!! j == 0)%Q) → (Qsum l == 0)%Q.
Proof.
  induction l as [|x l IH]; intros H; simpl; [reflexivity|].
  rewrite (H 0) by (simpl; lia). rewrite IH; [reflexivity|].
  intros j Hj. apply (H (S j)). simpl. lia.
Qed.

Lemma Qsum_single (l : list Q) i :
  i < length l →
  (∀ j, j < length l → j ≠ i → (l !!! j == 0)%Q) →
  (Qsum l == l !!! i)%Q.
Proof.
  revert i. induction l as [|x l IH]; intros i Hi H; simpl in Hi; [lia|].
  destruct i as [|i]; simpl.
  - rewrite Qsum_zero; [ring|]. intros j Hj. apply (H (S j)); simpl; lia.
  - rewrite (H 0) by (simpl; lia). rewrite (IH i); [ring|lia|].
    intros j Hj Hne. apply (H (S j)); simpl; lia.
Qed.

(** *** Why the identity is added to the mask *)

Lemma identity_cell n i j :
  i < n → j < n → (identity n !!! i) !!! j = if bool_decide (i = j) then 1%Q else 0%Q.
Proof.
  intros Hi Hj. unfold identity.
  rewrite (list_lookup_total_correct _ i
             ((λ j, if bool_decide (i = j) then 1%Q else 0%Q) <$> seq 0 n))
    by (by rewrite list_lookup_fmap, lookup_seq_lt).
  apply list_lookup_total_correct. by rewrite list_lookup_fmap, lookup_seq_lt.
Qed.

Lemma identity_row_length n i : i < n → length (identity n !!! i) = n.
Proof.
  intros Hi. unfold identity.
  rewrite (list_lookup_total_correct _ i
             ((λ j, if bool_decide (i = j) then 1%Q else 0%Q) <$> seq 0 n))
    by (by rewrite list_lookup_fmap, lookup_seq_lt).
  by rewrite length_fmap, length_seq.
Qed.

Lemma identity_length n : length (identity n) = n.
Proof. unfold identity. by rewrite length_fmap, length_seq. Qed.

(** The mask with the identity admits a doubly stochastic matrix whatever
    the padding is: the identity matrix itself. *)
Lemma identity_normalized qm : normalized 0 (eye_mask qm) (identity (length qm)).
Proof.
  unfold normalized. rewrite eye_mask_length. set (n := length qm).
  split; [apply identity_length|]. split; [apply identity_row_length|]. split.
  { intros i j Hi Hj Hm.
    destruct (lookup_lt_is_Some_2 qm i Hi) as [qi Hqi].
    destruct (lookup_lt_is_Some_2 qm j Hj) as [qj Hqj].
    rewrite (eye_mask_cell _ _ _ _ _ Hqi Hqj) in Hm.
    apply orb_false_iff in Hm as [_ Hm].
    rewrite identity_cell, Hm by done. reflexivity. }
  assert (Hrow : ∀ i, i < n → (row_sum (identity n) i == 1)%Q).
  { intros i Hi. unfold row_sum.
    rewrite (Qsum_single _ i); rewrite ?identity_row_length by done; [|done|].
    - rewrite identity_cell, bool_decide_eq_true_2 by done. reflexivity.
    - intros j Hj Hne. rewrite identity_cell, bool_decide_eq_false_2 by done.
      reflexivity. }
  assert (Hcol : ∀ j, j < n → (col_sum (identity n) j == 1)%Q).
  { intros j Hj. unfold col_sum.
    assert (Hl : length ((λ row : list Q, row !!! j) <$> identity n) = n)
      by (by rewrite length_fmap, identity_length).
    assert (Hc : ∀ i, i < n →
              ((λ row : list Q, row !!! j) <$> identity n) !!! i
              = if bool_decide (i = j) then 1%Q else 0%Q).
    { intros i Hi. rewrite <- (identity_cell n i j) by done.
      apply list_lookup_total_correct. rewrite list_lookup_fmap.
      rewrite (list_lookup_lookup_total_lt (identity n) i)
        by (by rewrite identity_length). done. }
    rewrite (Qsum_single _ j); rewrite ?Hl; [|done|].
    - rewrite Hc, bool_decide_eq_true_2 by done. reflexivity.
    - intros i Hi Hne. rewrite Hc, bool_decide_eq_false_2 by done. reflexivity. }
  split; intros k Hk; [rewrite Hrow by done|rewrite Hcol by done]; lra.
Qed.

(** The pairwise mask alone leaves no valid cell in the row of a pad
    token: no matrix fulfils the contract for it. *)
Lemma pair_mask_infeasible eps qm P i :
  (eps < 1)%Q → qm !! i = Some false → ¬ normalized eps (pair_mask qm) P.
Proof.
  intros Heps Hi (Hlen & Hrows & Hzero & Hrow & _).
  assert (Hn : length (pair_mask qm) = length qm)
    by (unfold pair_mask; by rewrite length_fmap).
  rewrite Hn in *. pose proof (lookup_lt_Some _ _ _ Hi) as Hin.
  assert (Hs : (row_sum P i == 0)%Q).
  { unfold row_sum. apply Qsum_zero. rewrite Hrows by done. intros j Hj.
    apply Hzero; [done..|].
    destruct (lookup_lt_is_Some_2 qm j Hj) as [qj Hqj].
    rewrite (pair_mask_cell _ _ _ _ _ Hi Hqj). apply andb_false_r. }
  destruct (Hrow i Hin) as [Hlo _]. rewrite Hs in Hlo. lra.
Qed.

(** ** C3 *)

(** A mask is square and marks its diagonal valid. *)
Definition diagonal_valid (mask : list (list bool)) : Prop :=
  let n := length mask in
  (∀ i, i < n → length (mask !!! i) = n) ∧
  (∀ k, k < n → (mask !!! k) !!! k = true).

(** Modelled from the spec: the layer [StickBreaking] of
    [voi.nn.base.stick_breaking] is not part of the sources.  The
    normalizer meets its numerical contract, whatever the scores are, on
    every square mask that marks its diagonal valid; such a mask leaves no
    row and no column without a valid cell. *)
Definition meets_contract (eps : Q)
    (stick_breaking : list (list Q) → list (list bool) → list (list Q)) : Prop :=
  ∀ scores mask, diagonal_valid mask → normalized eps mask (stick_breaking scores mask).

Lemma eye_mask_row_length qm i :
  i < length qm → length (eye_mask qm !!! i) = length qm.
Proof.
  intros Hi. destruct (lookup_lt_is_Some_2 qm i Hi) as [qi Hqi].
  unfold eye_mask, logical_or.
  rewrite (list_lookup_total_correct _ i
             (zip_with orb ((λ qj, qj && qi) <$> qm)
                ((λ j, bool_decide (i = j)) <$> seq 0 (length qm)))).
  - rewrite length_zip_with, !length_fmap, length_seq. lia.
  - rewrite lookup_zip_with. unfold pair_mask, eye.
    rewrite !list_lookup_fmap, Hqi, lookup_seq_lt by done. done.
Qed.

Lemma eye_mask_diagonal_valid qm : diagonal_valid (eye_mask qm).
Proof.
  unfold diagonal_valid. rewrite eye_mask_length.
  split; [apply eye_mask_row_length|].
  intros k Hk. destruct (lookup_lt_is_Some_2 qm k Hk) as [qk Hqk].
  rewrite (eye_mask_cell _ _ _ _ _ Hqk Hqk).
  rewrite bool_decide_eq_true_2 by done. apply orb_true_r.
Qed.

(** The contract can be met: the normalizer that returns the identity
    matrix meets it exactly. *)
Lemma identity_meets_contract :
  meets_contract 0 (λ _ mask, identity (length mask)).
Proof.
  intros scores mask [Hrows Hdiag]. unfold normalized. set (n := length mask) in *.
  split; [apply identity_length|]. split; [apply identity_row_length|]. split.
  { intros i j Hi Hj Hm. rewrite identity_cell by done.
    destruct (decide (i = j)) as [->|Hne].
    - rewrite Hdiag in Hm by done. done.
    - by rewrite bool_decide_eq_false_2. }
  assert (Hrow : ∀ i, i < n → (row_sum (identity n) i == 1)%Q).
  { intros i Hi. unfold row_sum.
    rewrite (Qsum_single _ i); rewrite ?identity_row_length by done; [|done|].
    - rewrite identity_cell, bool_decide_eq_true_2 by done. reflexivity.
    - intros j Hj Hne. rewrite identity_cell, bool_decide_eq_false_2 by done.
      reflexivity. }
  assert (Hcol : ∀ j, j < n → (col_sum (identity n) j == 1)%Q).
  { intros j Hj. unfold col_sum.
    assert (Hl : length ((λ row : list Q, row !!! j) <$> identity n) = n)
      by (by rewrite length_fmap, identity_length).
    assert (Hc : ∀ i, i < n →
              ((λ row : list Q, row !!! j) <$> identity n) !!! i
              = if bool_decide (i = j) then 1%Q else 0%Q).
    { intros i Hi. rewrite <- (identity_cell n i j) by done.
      apply list_lookup_total_correct. rewrite list_lookup_fmap.
      rewrite (list_lookup_lookup_total_lt (identity n) i)
        by (by rewrite identity_length). done. }
    rewrite (Qsum_single _ j); rewrite ?Hl; [|done|].
    - rewrite Hc, bool_decide_eq_true_2 by done. reflexivity.
    - intros i Hi Hne. rewrite Hc, bool_decide_eq_false_2 by done. reflexivity. }
  split; intros k Hk; [rewrite Hrow by done|rewrite Hcol by done]; lra.
Qed.

(** C3. Whenever the normalizer meets its contract, the matrix that
    [call] returns is doubly stochastic within [eps] on the mask that is
    the OR of the pairwise-valid mask with the identity: [call] hands the
    normalizer a mask that marks every diagonal cell valid.  In the row
    and in the column of a token that [queries_mask] excludes (a pad
    token) that mask marks the diagonal cell only, and the returned matrix
    has there the row and the column of the identity matrix (the diagonal
    cell within [eps] of 1, all other cells 0): pad tokens keep their
    place.  The pairwise mask alone would leave a pad token without a
    valid cell, and no matrix could be doubly stochastic on it. *)
Theorem padding_invariant (stick_breaking : list (list Q) → list (list bool) → list (list Q))
    (noise_sample : list (list Q)) (temperature eps : Q)
    (queries_mask : list bool) (i : nat) :
  meets_contract eps stick_breaking →
  let P := call stick_breaking noise_sample temperature queries_mask in
  let n := length queries_mask in
  normalized eps (eye_mask queries_mask) P ∧
  (queries_mask !! i = Some false →
   (eye_mask queries_mask !!! i) !!! i = true ∧
   (1 - eps <= (P !!! i) !!! i)%Q ∧ ((P !!! i) !!! i <= 1 + eps)%Q ∧
   ((eps < 1)%Q → (0 < (P !!! i) !!! i)%Q) ∧
   (∀ j, j < n → j ≠ i →
      (eye_mask queries_mask !!! i) !!! j = false ∧
      (eye_mask queries_mask !!! j) !!! i = false ∧
      ((P !!! i) !!! j == 0)%Q ∧ ((P !!! j) !!! i == 0)%Q) ∧
   (∀ P', (eps < 1)%Q → ¬ normalized eps (pair_mask queries_mask) P')).
Proof.
  intros Hsb P n.
  pose proof (eye_mask_diagonal_valid queries_mask) as Hdv.
  assert (Hn : normalized eps (eye_mask queries_mask) P) by (by apply Hsb).
  split; [exact Hn|]. intros Hi.
  pose proof (lookup_lt_Some _ _ _ Hi) as Hin. fold n in Hin.
  destruct Hdv as [_ Hdiag]. rewrite eye_mask_length in Hdiag. fold n in Hdiag.
  assert (Hmask : ∀ j, j < n → j ≠ i →
            (eye_mask queries_mask !!! i) !!! j = false ∧
            (eye_mask queries_mask !!! j) !!! i = false).
  { intros j Hj Hne.
    destruct (lookup_lt_is_Some_2 queries_mask j Hj) as [qj Hqj].
    rewrite (eye_mask_cell _ _ _ _ _ Hi Hqj), (eye_mask_cell _ _ _ _ _ Hqj Hi).
    rewrite !bool_decide_eq_false_2 by done.
    by rewrite andb_false_r. }
  destruct Hn as (Hlen & Hrows & Hzero & Hrow & _).
  rewrite eye_mask_length in *. fold n in Hlen, Hrows, Hzero, Hrow.
  assert (Hz : ∀ j, j < n → j ≠ i →
            ((P !!! i) !!! j == 0)%Q ∧ ((P !!! j) !!! i == 0)%Q).
  { intros j Hj Hne. destruct (Hmask j Hj Hne) as [H1 H2].
    split; apply Hzero; done. }
  assert (Hs : (row_sum P i == (P !!! i) !!! i)%Q).
  { unfold row_sum. apply Qsum_single; rewrite Hrows by done; [done|].
    intros j Hj Hne. by apply Hz. }
  destruct (Hrow i Hin) as [Hlo Hhi]. rewrite Hs in Hlo, Hhi.
  split; [by apply Hdiag|]. split; [done|]. split; [done|].
  split; [intros; lra|]. split.
  - intros j Hj Hne. destruct (Hmask j Hj Hne), (Hz j Hj Hne). done.
  - intros P' Heps. by eapply pair_mask_infeasible.
Qed.

(** The theorem on the sentence [start a b end pad] of length 5, whose
    mask excludes the start, end and pad tokens, with the normalizer that
    returns the identity matrix. *)
Lemma padding_invariant_witness :
  let queries_mask := [false; true; true; false; false] in
  let P := call (λ _ mask, identity (length mask)) [] 1 queries_mask in
  meets_contract 0 (λ _ mask, identity (length mask)) ∧
  queries_mask !! 4 = Some false ∧
  normalized 0 (eye_mask queries_mask) P ∧
  Qeq ((P !!! 4) !!! 4) 1 ∧ Qeq ((P !!! 4) !!! 1) 0 ∧ Qeq ((P !!! 1) !!! 4) 0.
Proof.
  intros queries_mask P.
  assert (Hq : queries_mask !! 4 = Some false) by reflexivity.
  destruct (padding_invariant (λ _ mask, identity (length mask)) [] 1 0 queries_mask 4
              identity_meets_contract)
    as (Hn & Hpad).
  destruct (Hpad Hq) as (_ & Hlo & Hhi & _ & Hz & _).
  split; [exact identity_meets_contract|]. split; [exact Hq|].
  split; [exact Hn|]. split.
  - apply Qle_antisym; [exact Hhi|exact Hlo].
  - destruct (Hz 1) as (_ & _ & H41 & H14); [simpl; lia|discriminate|].
    split; [exact H41|exact H14].
Defined.

(** *** The mask as a whole *)

(** [tf.cast(mask, tf.float32)] on one cell, and
    [tf.reduce_sum(mask, axis=[1, 2])] of line 83 for one element of the
    batch: the number of cells that are true. *)
Definition cast (b : bool) : nat := if b then 1 else 0.

Definition reduce_sum (mask : list (list bool)) : nat :=
  sum_list ((λ row, sum_list (cast <$> row)) <$> mask).

(** X19. The mask given to the normalizer is square and symmetric; a
    cell is valid exactly when it lies on the diagonal or when both of its
    tokens are valid. *)
Theorem eye_mask_cells (queries_mask : list bool) (i j : nat) :
  i < length queries_mask → j < length queries_mask →
  length (eye_mask queries_mask) = length queries_mask ∧
  length (eye_mask queries_mask !!! i) = length queries_mask ∧
  (eye_mask queries_mask !!! i) !!! j = (eye_mask queries_mask !!! j) !!! i ∧
  ((eye_mask queries_mask !!! i) !!! j = true ↔
   i = j ∨ (queries_mask !! i = Some true ∧ queries_mask !! j = Some true)).
Proof.
  intros Hi Hj.
  destruct (lookup_lt_is_Some_2 queries_mask i Hi) as [qi Hqi].
  destruct (lookup_lt_is_Some_2 queries_mask j Hj) as [qj Hqj].
  split; [apply eye_mask_length|]. split; [by apply eye_mask_row_length|].
  rewrite (eye_mask_cell _ _ _ _ _ Hqi Hqj), (eye_mask_cell _ _ _ _ _ Hqj Hqi).
  rewrite Hqi, Hqj. split.
  - destruct (decide (i = j)) as [->|Hne].
    + by simplify_eq.
    + rewrite !bool_decide_eq_false_2 by done. by destruct qi, qj.
  - destruct (decide (i = j)) as [->|Hne].
    + rewrite bool_decide_eq_true_2 by done. rewrite orb_true_r. split; [by left|done].
    + rewrite bool_decide_eq_false_2 by done. rewrite orb_false_r.
      destruct qi, qj; simpl; split; try done; try (intros [?|[??]]; done).
      by right.
Qed.

Lemma pair_mask_row_sum (qm : list bool) (qi : bool) :
  sum_list (cast <$> ((λ qj, qj && qi) <$> qm))
  = if qi then sum_list (cast <$> qm) else 0.
Proof.
  rewrite <- list_fmap_compose. destruct qi.
  - f_equal. apply list_fmap_ext. intros _ q _. simpl. by rewrite andb_true_r.
  - rewrite (list_fmap_ext _ (λ _, 0) qm) by (by intros _ [] _).
    induction qm as [|q qm IH]; [done|]. by rewrite fmap_cons.
Qed.

Lemma sum_list_cast_zero (qm : list bool) :
  sum_list (cast <$> qm) = 0 ↔ Forall (λ q, q = false) qm.
Proof.
  induction qm as [|q qm IH]; simpl; [split; [constructor|done]|].
  rewrite Forall_cons, <- IH. destruct q; simpl.
  - split; [lia|]. intros [? _]. done.
  - split; [done|]. intros [_ ?]. done.
Qed.

(** X20. The divisor of line 83 is the square of the number of valid
    tokens: it is zero exactly when the sentence has no valid token, and
    then the mean of line 82 is a division by zero. *)
Theorem mask_divisor (queries_mask : list bool) :
  reduce_sum (pair_mask queries_mask)
  = sum_list (cast <$> queries_mask) * sum_list (cast <$> queries_mask) ∧
  (reduce_sum (pair_mask queries_mask) = 0 ↔
   Forall (λ q, q = false) queries_mask).
Proof.
  assert (H : reduce_sum (pair_mask queries_mask)
              = sum_list (cast <$> queries_mask) * sum_list (cast <$> queries_mask)).
  { unfold reduce_sum, pair_mask.
    generalize queries_mask at 2 3 as l. intros l.
    induction l as [|q l IH]; [done|].
    rewrite !fmap_cons. cbn [sum_list sum_list_with].
    rewrite IH, pair_mask_row_sum. destruct q; simpl; lia. }
  split; [exact H|]. rewrite H, <- sum_list_cast_zero. nia.
Qed.

(** X19 on the mask of the sentence [start a b end pad]. *)
Lemma eye_mask_cells_witness :
  (eye_mask [false; true; true; false; false] !!! 1) !!! 2 = true ∧
  (eye_mask [false; true; true; false; false] !!! 1) !!! 2
  = (eye_mask [false; true; true; false; false] !!! 2) !!! 1.
Proof.
  destruct (eye_mask_cells [false; true; true; false; false] 1 2)
    as (_ & _ & Hsym & Hvalid); [simpl; lia..|].
  split; [|exact Hsym]. apply Hvalid. right. split; reflexivity.
Defined.

End PermLayer.

(** ** Permutations, relative positions and absolute positions *)

Module Perm.

(** [tf.argmax] along the last axis: the first index that holds the
    greatest value. *)
Fixpoint argmax_from (l : list nat) (i best_i best : nat) : nat :=
  match l with
  | [] => best_i
  | x :: l' =>
      if decide (best < x) then argmax_from l' (S i) i x
      else argmax_from l' (S i) best_i best
  end.

Definition argmax (l : list nat) : nat :=
  match l with
  | [] => 0
  | x :: l' => argmax_from l' 1 0 x
  end.

(** [tf.one_hot(c, depth)] *)
Definition one_hot (c depth : nat) : list nat :=
  (λ k, if bool_decide (k = c) then 1 else 0) <$> seq 0 depth.

(** [tf.nn.relu] on integers. *)
Definition relu (z : Z) : Z := Z.max 0 z.

Definition Zsum (l : list Z) : Z := foldr Z.add 0%Z l.

(** The number of columns of a matrix. *)
Definition ncols {X : Type} (m : list (list X)) : nat :=
  match m with
  | [] => 0
  | row :: _ => length row
  end.

(** [tf.reduce_sum(m, axis=2)] on a tensor [batch, beam, i, j], for one
    element of the batch and of the beam: the sum over the row index [i],
    for every column [j]. *)
Definition reduce_sum_rows (m : list (list Z)) : list Z :=
  (λ j, Zsum ((λ row : list Z, row !!! j) <$> m)) <$> seq 0 (ncols m).

(** inspect_order.py, lines 324-325:
    [pos = tf.argmax(rel_pos, axis=-1, output_type=tf.int32) - 1;
     pos = tf.reduce_sum(tf.nn.relu(pos), axis=2)]. *)
Definition relative_to_absolute (rel_pos : list (list (list nat))) : list Z :=
  let pos := fmap (M:=list) (fmap (M:=list) (λ c, Z.of_nat (argmax c) - 1)%Z) rel_pos in
  reduce_sum_rows (fmap (M:=list) (fmap (M:=list) relu) pos).

(** inspect_order.py, lines 574-575: the same on [pos[:, :, 1:, 1:]], the
    tensor without its first row and column. *)
Definition decoder_positions (rel_pos : list (list (list nat))) : list Z :=
  let pos := fmap (M:=list) (fmap (M:=list) (λ c, Z.of_nat (argmax c) - 1)%Z) rel_pos in
  let pos := drop 1 <$> drop 1 pos in
  reduce_sum_rows (fmap (M:=list) (fmap (M:=list) relu) pos).

(** The absolute position of generation step [k]:
    [pos(k) = argmax_c P[k, c]]. *)
Definition pos (P : list (list nat)) (k : nat) : nat := argmax (P !!! k).

(** A hard permutation matrix: square, entries in {0, 1}, every row and
    every column sums to 1. *)
Definition hard_permutation (P : list (list nat)) : Prop :=
  let n := length P in
  Forall (λ row, length row = n ∧ Forall (λ x, x = 0 ∨ x = 1) row ∧ sum_list row = 1) P ∧
  Forall (λ j, sum_list ((λ row : list nat, row !!! j) <$> P) = 1) (seq 0 n).

#[global] Instance hard_permutation_dec P : Decision (hard_permutation P).
Proof. unfold hard_permutation. apply _. Defined.

(** Modelled from the spec: [permutation_to_relative] of
    [voi.permutation_utils] is not part of the sources.  [R[i, j]] is the
    one-hot code, over the three relation classes, of
    [sign(pos(i) - pos(j))], for the first [L - 1] generation steps (shape
    [[L-1, L-1, 3]]; the last step is left out, as it is from the absolute
    positions [inputs[5][:, :-1, :-1]] of line 337).  The classes are
    numbered as the decoding of inspect_order.py reads them: [argmax - 1]
    is 1 for the relation that is counted (step [i] is ordered before step
    [j]), 0 for the self relation and -1 for the relation after. *)
Definition rel_class (pi pj : nat) : nat :=
  Z.to_nat (1 - Z.sgn (Z.of_nat pi - Z.of_nat pj)).

Definition permutation_to_relative (P : list (list nat)) : list (list (list nat)) :=
  let n := length P in
  (λ i, (λ j, one_hot (rel_class (pos P i) (pos P j)) 3) <$> seq 0 (n - 1))
    <$> seq 0 (n - 1).

(** The number of steps, among the first [m], that are ordered before
    step [j]. *)
Definition steps_before (P : list (list nat)) (m j : nat) : nat :=
  length (filter (λ i, pos P i < pos P j) (seq 0 m)).

(** Modelled from the spec: [permutation_to_pointer] of
    [voi.permutation_utils] is not part of the sources.  At generation
    step [t] the tokens of steps [0 .. t-1] are placed; the insertion slots
    are the slot after each placed token (slot [s] after the token of step
    [s]) and the leftmost slot (slot [t]).  Token [t] belongs, in absolute
    order, right after the placed token with the greatest position below
    its own, or in the leftmost slot when there is none. *)
Definition left_neighbour (P : list (list nat)) (t : nat) : option nat :=
  foldr (λ s best,
           match best with
           | Some b => if decide (pos P b < pos P s) then Some s else Some b
           | None => Some s
           end)
        None (filter (λ s, pos P s < pos P t) (seq 0 t)).

Definition pointer_slot (P : list (list nat)) (t : nat) : nat :=
  match left_neighbour P t with
  | None => t
  | Some s => s
  end.

(** Modelled from the spec: the pointer label of step [t], the one-hot
    distribution over its [t + 1] insertion slots. *)
Definition pointer_label (P : list (list nat)) (t : nat) : list nat :=
  one_hot (pointer_slot P t) (t + 1).

(** Modelled from the spec: the side output at step [t], the absolute
    position assigned to each step so far. *)
Definition step_positions (P : list (list nat)) (t : nat) : list nat :=
  pos P <$> seq 0 (t + 1).

(** Modelled from the spec: the two outputs of [permutation_to_pointer],
    for the steps 1 to [L - 2]. *)
Definition permutation_to_pointer (P : list (list nat)) :
    list (list nat) * list (list nat) :=
  let steps := seq 1 (length P - 2) in
  (pointer_label P <$> steps, step_positions P <$> steps).

(** Column [c] of [P], restricted to the rows of the steps placed before
    step [t]. *)
Definition column_prefix (P : list (list nat)) (c t : nat) : list nat :=
  (λ s, (P !!! s) !!! c) <$> seq 0 t.

(** The round-trip law as it is claimed: decoding the relative positions
    of [P] gives back the absolute position of every step they cover. *)
Definition round_trip_law (P : list (list nat)) : Prop :=
  ∀ j, j < length P - 1 →
    relative_to_absolute (permutation_to_relative P) !! j = Some (Z.of_nat (pos P j)).

(** The same for the decoding of lines 574-575, whose entry [j - 1]
    belongs to step [j]. *)
Definition decoder_law (P : list (list nat)) : Prop :=
  ∀ j, 1 ≤ j < length P - 1 →
    decoder_positions (permutation_to_relative P) !! (j - 1)
    = Some (Z.of_nat (pos P j)).

(** A table of values indexed by two lists of indices. *)
Definition table {X : Type} (rows cols : list nat) (f : nat → nat → X) : list (list X) :=
  (λ i, (λ j, f i j) <$> cols) <$> rows.

(** *** Examples *)

(** The order [start b a end], with one pad token: the steps hold the
    positions 0, 2, 1, 3, 4. *)
Example relative_to_absolute_example :
  let P := [[1; 0; 0; 0; 0]; [0; 0; 1; 0; 0]; [0; 1; 0; 0; 0];
            [0; 0; 0; 1; 0]; [0; 0; 0; 0; 1]] in
  relative_to_absolute (permutation_to_relative P) = [0; 2; 1; 3]%Z ∧
  decoder_positions (permutation_to_relative P) = [1; 0; 2]%Z ∧
  pos P <$> seq 0 5 = [0; 2; 1; 3; 4].
Proof. done. Qed.

(** The identity of size 5 (the sequence [start a b end pad]): token [a]
    goes into slot 0, after the start token, and token [b] into slot 1,
    after [a]. *)
Example pointer_labels_identity :
  let P := [[1; 0; 0; 0; 0]; [0; 1; 0; 0; 0]; [0; 0; 1; 0; 0];
            [0; 0; 0; 1; 0]; [0; 0; 0; 0; 1]] in
  pointer_slot P 1 = 0 ∧ pointer_slot P 2 = 1 ∧
  (permutation_to_pointer P).1 = [[1; 0]; [0; 1; 0]; [0; 0; 1; 0]].
Proof. done. Qed.

(** *** Tables *)

Lemma permutation_to_relative_table P :
  permutation_to_relative P
  = table (seq 0 (length P - 1)) (seq 0 (length P - 1))
      (λ i j, one_hot (rel_class (pos P i) (pos P j)) 3).
Proof. done. Qed.

Lemma fmap_fmap_table {X Y : Type} (g : X → Y) rows cols (f : nat → nat → X) :
  fmap (M:=list) (fmap (M:=list) g) (table rows cols f) = table rows cols (λ i j, g (f i j)).
Proof.
  unfold table. rewrite <- list_fmap_compose. apply list_fmap_ext.
  intros _ i _. simpl. by rewrite <- list_fmap_compose.
Qed.

Lemma drop_table {X : Type} k rows cols (f : nat → nat → X) :
  drop k (table rows cols f) = table (drop k rows) cols f.
Proof. unfold table. by rewrite fmap_drop. Qed.

Lemma drop_cols_table {X : Type} k rows cols (f : nat → nat → X) :
  drop k <$> table rows cols f = table rows (drop k cols) f.
Proof.
  unfold table. rewrite <- list_fmap_compose. apply list_fmap_ext.
  intros _ i _. simpl. by rewrite fmap_drop.
Qed.

(** The sum over the rows of a table, column by column. *)
Lemma reduce_sum_rows_table rows cols (f : nat → nat → Z) k j :
  rows ≠ [] → cols !! k = Some j →
  reduce_sum_rows (table rows cols f) !! k = Some (Zsum ((λ i, f i j) <$> rows)).
Proof.
  intros Hrows Hk. unfold reduce_sum_rows.
  pose proof (lookup_lt_Some _ _ _ Hk) as Hlt.
  assert (Hn : ncols (table rows cols f) = length cols).
  { destruct rows as [|i rows]; [done|]. simpl. by rewrite length_fmap. }
  rewrite Hn, list_lookup_fmap, lookup_seq_lt by done. simpl. f_equal. f_equal.
  unfold table. rewrite <- list_fmap_compose. apply list_fmap_ext.
  intros _ i _. simpl. apply list_lookup_total_correct.
  by rewrite list_lookup_fmap, Hk.
Qed.

Lemma Zsum_indicator (Q : nat → Prop) `{∀ i, Decision (Q i)} (l : list nat) :
  Zsum ((λ i, if decide (Q i) then 1 else 0)%Z <$> l) = Z.of_nat (length (filter Q l)).
Proof.
  induction l as [|i l IH]; [done|]. rewrite fmap_cons. simpl Zsum. rewrite IH.
  destruct (decide (Q i)) as [Hq|Hq].
  - rewrite filter_cons_True by done. simpl length. lia.
  - rewrite filter_cons_False by done. lia.
Qed.

(** What lines 324-325 compute from one cell of the relative positions. *)
Lemma relu_class pi pj :
  relu (Z.of_nat (argmax (one_hot (rel_class pi pj) 3)) - 1)
  = if decide (pi < pj) then 1%Z else 0%Z.
Proof.
  unfold rel_class.
  destruct (Z.sgn_spec (Z.of_nat pi - Z.of_nat pj)) as [[Hs ->]|[[Hs ->]|[Hs ->]]];
    [rewrite decide_False by lia|rewrite decide_False by lia|rewrite decide_True by lia];
    reflexivity.
Qed.

(** The decoding counts, for every step, the steps ordered before it. *)
Lemma relative_to_absolute_count P j :
  j < length P - 1 →
  relative_to_absolute (permutation_to_relative P) !! j
  = Some (Z.of_nat (steps_before P (length P - 1) j)).
Proof.
  intros Hj. unfold relative_to_absolute.
  rewrite permutation_to_relative_table, !fmap_fmap_table.
  rewrite (reduce_sum_rows_table _ _ _ j j).
  - f_equal. unfold steps_before. rewrite <- Zsum_indicator.
    f_equal. apply list_fmap_ext. intros _ i _. apply relu_class.
  - intros Hnil. apply (f_equal length) in Hnil. rewrite length_seq in Hnil.
    simpl in Hnil. lia.
  - by apply lookup_seq_lt.
Qed.

Lemma decoder_positions_count P j :
  j < length P - 2 →
  decoder_positions (permutation_to_relative P) !! j
  = Some (Z.of_nat (length (filter (λ i, pos P i < pos P (S j))
                              (seq 1 (length P - 2))))).
Proof.
  intros Hj. unfold decoder_positions.
  rewrite permutation_to_relative_table, fmap_fmap_table, drop_table,
    drop_cols_table, fmap_fmap_table, !drop_seq.
  replace (length P - 1 - 1) with (length P - 2) by lia.
  rewrite (reduce_sum_rows_table _ _ _ j (S j)).
  - f_equal. rewrite <- Zsum_indicator.
    f_equal. apply list_fmap_ext. intros _ i _. apply relu_class.
  - intros Hnil. apply (f_equal length) in Hnil. rewrite length_seq in Hnil.
    simpl in Hnil. lia.
  - by rewrite lookup_seq_lt.
Qed.

(** *** Rows and columns of a hard permutation matrix *)

Lemma sum_list_lookup_le (l : list nat) k x : l !! k = Some x → x ≤ sum_list l.
Proof.
  revert k. induction l as [|y l IH]; intros [|k] Hk; simplify_eq/=; [lia|].
  specialize (IH k Hk). lia.
Qed.

Lemma sum_one_unique (l : list nat) k k' :
  sum_list l = 1 → l !! k = Some 1 → l !! k' = Some 1 → k = k'.
Proof.
  revert k k'. induction l as [|y l IH]; intros [|k] [|k'] Hs Hk Hk'; simplify_eq/=.
  - done.
  - pose proof (sum_list_lookup_le _ _ _ Hk'). lia.
  - pose proof (sum_list_lookup_le _ _ _ Hk). lia.
  - f_equal. apply IH; [|done..].
    pose proof (sum_list_lookup_le _ _ _ Hk). lia.
Qed.

Lemma sum_one_exists (l : list nat) :
  Forall (λ x, x = 0 ∨ x = 1) l → sum_list l = 1 → ∃ k, l !! k = Some 1.
Proof.
  induction 1 as [|y l [->| ->] _ IH]; intros Hs; simpl in Hs; [lia| |].
  - destruct (IH Hs) as [k Hk]. by exists (S k).
  - by exists 0.
Qed.

Lemma argmax_from_top (l : list nat) i best_i :
  Forall (λ x, x = 0 ∨ x = 1) l → argmax_from l i best_i 1 = best_i.
Proof.
  intros Hl. revert i. induction Hl as [|y l Hy _ IH]; intros i; [done|].
  cbn [argmax_from]. rewrite decide_False by lia. apply IH.
Qed.

Lemma argmax_from_one (l : list nat) i best_i k :
  Forall (λ x, x = 0 ∨ x = 1) l → sum_list l = 1 → l !! k = Some 1 →
  argmax_from l i best_i 0 = i + k.
Proof.
  intros Hl. revert i best_i k.
  induction Hl as [|y l Hy Hl IH]; intros i best_i [|k] Hs Hk;
    [done|done|..]; cbn [argmax_from]; simpl in Hs, Hk.
  - simplify_eq. rewrite decide_True by lia. rewrite argmax_from_top by done. lia.
  - pose proof (sum_list_lookup_le _ _ _ Hk).
    rewrite decide_False by lia. rewrite (IH _ _ k) by (done || lia). lia.
Qed.

Lemma argmax_one (l : list nat) k :
  Forall (λ x, x = 0 ∨ x = 1) l → sum_list l = 1 → l !! k = Some 1 → argmax l = k.
Proof.
  intros Hl Hs Hk. destruct l as [|y l]; [done|].
  apply Forall_cons in Hl as [Hy Hl]. unfold argmax.
  destruct k as [|k]; simpl in Hs, Hk.
  - simplify_eq. by apply argmax_from_top.
  - pose proof (sum_list_lookup_le _ _ _ Hk).
    replace y with 0 by lia.
    rewrite (argmax_from_one _ _ _ k) by (done || lia). done.
Qed.

Section HardPermutation.
Variable P : list (list nat).
Hypothesis HP : hard_permutation P.

Lemma hard_row k :
  k < length P →
  length (P !!! k) = length P ∧ Forall (λ x, x = 0 ∨ x = 1) (P !!! k) ∧
  sum_list (P !!! k) = 1.
Proof.
  intros Hk. destruct HP as [Hrows _].
  destruct (lookup_lt_is_Some_2 P k Hk) as [row Hrow].
  rewrite (list_lookup_total_correct _ _ _ Hrow).
  by apply (proj1 (Forall_lookup _ _) Hrows k).
Qed.

(** The position of a step is the column that holds the 1 of its row. *)
Lemma pos_one k : k < length P → (P !!! k) !! pos P k = Some 1.
Proof.
  intros Hk. destruct (hard_row k Hk) as (_ & H01 & Hs).
  destruct (sum_one_exists _ H01 Hs) as [c Hc].
  unfold pos. by rewrite (argmax_one _ c).
Qed.

Lemma pos_lt k : k < length P → pos P k < length P.
Proof.
  intros Hk. destruct (hard_row k Hk) as (Hl & _ & _).
  rewrite <- Hl. eapply lookup_lt_Some, pos_one. done.
Qed.

(** Two steps never share a position: the column sums to 1. *)
Lemma pos_inj k k' : k < length P → k' < length P → pos P k = pos P k' → k = k'.
Proof.
  intros Hk Hk' Heq. destruct HP as [_ Hcols].
  pose proof (pos_lt k Hk) as Hc.
  pose proof (proj1 (Forall_lookup _ _) Hcols (pos P k) (pos P k)
                (lookup_seq_lt 0 _ _ Hc)) as Hsum.
  simpl in Hsum. apply (sum_one_unique _ _ _ Hsum); rewrite list_lookup_fmap.
  - rewrite (list_lookup_lookup_total_lt P k) by done. simpl. f_equal.
    apply list_lookup_total_correct, pos_one. done.
  - rewrite (list_lookup_lookup_total_lt P k') by done. simpl. f_equal.
    rewrite Heq. apply list_lookup_total_correct, pos_one. done.
Qed.

End HardPermutation.

(** *** Counting the steps placed before a step *)

Lemma length_filter_lt_seq c m :
  length (filter (λ x, x < c) (seq 0 m)) = c `min` m.
Proof.
  induction m as [|m IH]; [simpl; lia|].
  rewrite seq_S, filter_app, length_app, IH. simpl.
  destruct (decide (m < c)).
  - rewrite filter_cons_True by done. simpl. lia.
  - rewrite filter_cons_False by done. simpl. lia.
Qed.

Lemma length_filter_fmap {X Y : Type} (f : X → Y) (Q : Y → Prop) (Q' : X → Prop)
    `{∀ y, Decision (Q y)} `{∀ x, Decision (Q' x)} (l : list X) :
  (∀ x, Q' x ↔ Q (f x)) →
  length (filter Q (f <$> l)) = length (filter Q' l).
Proof.
  intros HQ. induction l as [|x l IH]; [done|]. rewrite fmap_cons.
  destruct (decide (Q (f x))) as [Hq|Hq].
  - rewrite !filter_cons_True by (done || by apply HQ). simpl. by rewrite IH.
  - rewrite !filter_cons_False by (done || by rewrite HQ). done.
Qed.

(** When the last step holds the last position, the positions of the
    other steps are a rearrangement of [0 .. L-2]. *)
Lemma positions_permutation P :
  hard_permutation P → pos P (length P - 1) = length P - 1 →
  pos P <$> seq 0 (length P - 1) ≡ₚ seq 0 (length P - 1).
Proof.
  intros HP Hlast. set (m := length P - 1) in *.
  apply submseteq_length_Permutation; [|by rewrite length_fmap].
  apply NoDup_submseteq.
  - apply NoDup_fmap_2_strong; [|apply NoDup_seq].
    intros k k' Hk%elem_of_seq Hk'%elem_of_seq. apply (pos_inj P HP); lia.
  - intros c (k & -> & Hk%elem_of_seq)%list_elem_of_fmap. apply elem_of_seq.
    pose proof (pos_lt P HP k ltac:(lia)).
    assert (pos P k ≠ m); [|lia].
    intros Heq. rewrite <- Hlast in Heq.
    apply (pos_inj P HP) in Heq; lia.
Qed.

Lemma steps_before_pos P j :
  hard_permutation P → pos P (length P - 1) = length P - 1 →
  j < length P - 1 → steps_before P (length P - 1) j = pos P j.
Proof.
  intros HP Hlast Hj. unfold steps_before.
  transitivity (length (filter (λ c, c < pos P j) (pos P <$> seq 0 (length P - 1)))).
  { symmetry. by apply length_filter_fmap. }
  rewrite (positions_permutation P HP Hlast), length_filter_lt_seq.
  assert (Hin : pos P j ∈ seq 0 (length P - 1)).
  { rewrite <- (positions_permutation P HP Hlast).
    apply list_elem_of_fmap. exists j. split; [done|]. apply elem_of_seq. lia. }
  apply elem_of_seq in Hin. lia.
Qed.

(** ** C1 *)

(** C1, as amended.  For every hard permutation matrix [P] of size [L]
    that gives the last generation step the last position, the decoding of
    lines 324-325 (argmax over the class axis, minus 1, relu, sum over the
    row axis), applied to the relative positions of [P], yields for each
    of the first [L - 1] steps the number of other steps ordered before
    it, which is the absolute position of that step under [P].  When the
    first step also holds the first position, the decoding of lines
    574-575, which drops the first row and column, yields for each later
    step the number of the other later steps that are ordered before it:
    its absolute position minus one. *)
Theorem round_trip_positions (P : list (list nat)) (j : nat) :
  hard_permutation P →
  pos P (length P - 1) = length P - 1 →
  j < length P - 1 →
  relative_to_absolute (permutation_to_relative P) !! j = Some (Z.of_nat (pos P j)) ∧
  pos P j = steps_before P (length P - 1) j ∧
  (pos P 0 = 0 → 1 ≤ j →
   decoder_positions (permutation_to_relative P) !! (j - 1)
   = Some (Z.of_nat (pos P j) - 1)%Z).
Proof.
  intros HP Hlast Hj.
  pose proof (steps_before_pos P j HP Hlast Hj) as Hcount.
  split; [by rewrite relative_to_absolute_count, Hcount|]. split; [done|].
  intros Hfirst Hj1.
  rewrite decoder_positions_count by lia.
  replace (S (j - 1)) with j by lia. f_equal.
  unfold steps_before in Hcount.
  replace (length P - 1) with (S (length P - 2)) in Hcount by lia.
  simpl seq in Hcount. rewrite filter_cons_True in Hcount.
  - simpl in Hcount. lia.
  - rewrite Hfirst. assert (pos P j ≠ 0); [|lia].
    rewrite <- Hfirst. intros Heq. apply (pos_inj P HP) in Heq; lia.
Qed.

(** The theorem at the order [start b a end]: the steps are placed at
    positions 0, 2, 1, 3. *)
Lemma round_trip_positions_witness :
  let P := [[1; 0; 0; 0]; [0; 0; 1; 0]; [0; 1; 0; 0]; [0; 0; 0; 1]] in
  hard_permutation P ∧ pos P 3 = 3 ∧
  relative_to_absolute (permutation_to_relative P) !! 1 = Some 2%Z ∧
  decoder_positions (permutation_to_relative P) !! 0 = Some 1%Z.
Proof.
  intros P.
  assert (HP : hard_permutation P) by (refine (bool_decide_unpack _ _); vm_compute; exact I).
  assert (Hlast : pos P (length P - 1) = length P - 1) by reflexivity.
  destruct (round_trip_positions P 1 HP Hlast ltac:(simpl; lia)) as (Hr & _ & Hd).
  split; [exact HP|]. split; [reflexivity|]. split; [exact Hr|].
  apply (Hd eq_refl). lia.
Defined.

(** The law fails as it is claimed.  The matrix that exchanges two steps
    is a hard permutation matrix, but its relative positions cover the
    first step only, for which the decoding yields 0 and not its position
    1.  And on the identity of size 3 the decoding of lines 574-575 yields
    0 for step 1, whose position is 1. *)
Lemma round_trip_counterexample :
  (hard_permutation [[0; 1]; [1; 0]] ∧ ¬ round_trip_law [[0; 1]; [1; 0]]) ∧
  (hard_permutation [[1; 0; 0]; [0; 1; 0]; [0; 0; 1]] ∧
   ¬ decoder_law [[1; 0; 0]; [0; 1; 0]; [0; 0; 1]]).
Proof.
  split; split.
  - refine (bool_decide_unpack _ _). vm_compute. exact I.
  - intros H. specialize (H 0 ltac:(simpl; lia)). vm_compute in H. discriminate.
  - refine (bool_decide_unpack _ _). vm_compute. exact I.
  - intros H. specialize (H 1 ltac:(simpl; lia)). vm_compute in H. discriminate.
Qed.

(** *** One-hot vectors *)

Lemma one_hot_length c d : length (one_hot c d) = d.
Proof. unfold one_hot. by rewrite length_fmap, length_seq. Qed.

Lemma one_hot_lookup c d k :
  k < d → one_hot c d !! k = Some (if bool_decide (k = c) then 1 else 0).
Proof. intros Hk. unfold one_hot. by rewrite list_lookup_fmap, lookup_seq_lt. Qed.

Lemma one_hot_01 c d : Forall (λ x, x = 0 ∨ x = 1) (one_hot c d).
Proof.
  apply Forall_lookup. intros k x Hk.
  pose proof (lookup_lt_Some _ _ _ Hk) as Hlt. rewrite one_hot_length in Hlt.
  rewrite one_hot_lookup in Hk by done. case_bool_decide; simplify_eq; auto.
Qed.

Lemma sum_indicator_seq c j d :
  sum_list ((λ k, if bool_decide (k = c) then 1 else 0) <$> seq j d)
  = if decide (j ≤ c < j + d) then 1 else 0.
Proof.
  revert j. induction d as [|d IH]; intros j.
  - simpl. by rewrite decide_False by lia.
  - rewrite <- cons_seq, fmap_cons. simpl sum_list. rewrite IH.
    case_bool_decide; repeat case_decide; lia.
Qed.

Lemma one_hot_sum c d : c < d → sum_list (one_hot c d) = 1.
Proof.
  intros Hc. unfold one_hot. rewrite sum_indicator_seq.
  by rewrite decide_True by lia.
Qed.

(** The slots after the placed tokens. *)
Lemma one_hot_after_slots c t :
  take t (one_hot c (t + 1))
  = (λ s, if bool_decide (s = c) then 1 else 0) <$> seq 0 t.
Proof.
  unfold one_hot. rewrite <- fmap_take, take_seq. f_equal. f_equal. lia.
Qed.

(** *** The cells of a hard permutation matrix *)

Lemma hard_cell P s c :
  hard_permutation P → s < length P →
  (P !!! s) !!! c = if bool_decide (c = pos P s) then 1 else 0.
Proof.
  intros HP Hs. destruct (hard_row P HP s Hs) as (Hl & H01 & Hsum).
  pose proof (pos_one P HP s Hs) as Hone.
  case_bool_decide as Hc; [subst; by apply list_lookup_total_correct|].
  destruct ((P !!! s) !! c) as [x|] eqn:Hx.
  - rewrite (list_lookup_total_correct _ _ _ Hx).
    destruct (proj1 (Forall_lookup _ _) H01 c x Hx) as [->| ->]; [done|].
    destruct Hc. by apply (sum_one_unique _ _ _ Hsum).
  - by rewrite list_lookup_total_alt, Hx.
Qed.

(** A column of a hard permutation matrix, on the rows of the placed
    steps, marks the placed step that holds the position (if any). *)
Lemma column_prefix_hard P c t :
  hard_permutation P → t ≤ length P →
  column_prefix P c t = (λ s, if bool_decide (c = pos P s) then 1 else 0) <$> seq 0 t.
Proof.
  intros HP Ht. unfold column_prefix. apply list_fmap_ext.
  intros i s Hs. apply lookup_seq in Hs as [-> Hi]. apply hard_cell; [done|lia].
Qed.

(** *** The placed token left of a step *)

Lemma left_neighbour_spec P t :
  match left_neighbour P t with
  | None => ∀ s, s < t → ¬ pos P s < pos P t
  | Some s => s < t ∧ pos P s < pos P t ∧
              ∀ s', s' < t → pos P s' < pos P t → pos P s' ≤ pos P s
  end.
Proof.
  unfold left_neighbour.
  assert (Hgen : ∀ cands : list nat,
    match foldr (λ s best,
                   match best with
                   | Some b => if decide (pos P b < pos P s) then Some s else Some b
                   | None => Some s
                   end) None cands with
    | None => cands = []
    | Some s => s ∈ cands ∧ ∀ s', s' ∈ cands → pos P s' ≤ pos P s
    end).
  { induction cands as [|a cands IH]; simpl; [done|].
    destruct (foldr _ None cands) as [b|].
    - destruct IH as [Hb Hmax]. case_decide as Hlt.
      + split; [by left|]. intros s' [->|Hs']%elem_of_cons; [done|].
        specialize (Hmax s' Hs'). lia.
      + split; [by right|]. intros s' [->|Hs']%elem_of_cons; [lia|by apply Hmax].
    - subst. split; [by left|]. by intros s' ->%list_elem_of_singleton. }
  specialize (Hgen (filter (λ s, pos P s < pos P t) (seq 0 t))).
  destruct (foldr _ None _) as [s|].
  - destruct Hgen as [[Hlt Hs%elem_of_seq]%list_elem_of_filter Hmax].
    split; [lia|]. split; [done|].
    intros s' Hs' Hlt'. apply Hmax, list_elem_of_filter. split; [done|].
    apply elem_of_seq. lia.
  - intros s Hs Hlt.
    assert (Hin : s ∈ filter (λ s, pos P s < pos P t) (seq 0 t)).
    { apply list_elem_of_filter. split; [done|]. apply elem_of_seq. lia. }
    rewrite Hgen in Hin. by apply elem_of_nil in Hin.
Qed.

Lemma pointer_slot_leftmost P t :
  hard_permutation P → t < length P →
  pointer_slot P t = t ↔ ∀ s, s < t → pos P t < pos P s.
Proof.
  intros HP Ht. unfold pointer_slot.
  pose proof (left_neighbour_spec P t) as Hn.
  destruct (left_neighbour P t) as [b|].
  - destruct Hn as (Hb & Hlt & _). split; [lia|].
    intros Hall. specialize (Hall b Hb). lia.
  - split; [|done]. intros _ s Hs. specialize (Hn s Hs).
    assert (pos P s ≠ pos P t); [|lia].
    intros Heq. apply (pos_inj P HP) in Heq; lia.
Qed.

Lemma pointer_slot_after P t s :
  hard_permutation P → t < length P → s < t →
  pointer_slot P t = s ↔
  pos P s < pos P t ∧ ∀ s', s' < t → pos P s' < pos P t → pos P s' ≤ pos P s.
Proof.
  intros HP Ht Hs. unfold pointer_slot.
  pose proof (left_neighbour_spec P t) as Hn.
  destruct (left_neighbour P t) as [b|].
  - destruct Hn as (Hb & Hlt & Hmax). split.
    + intros ->. done.
    + intros [Hlt' Hmax'].
      apply (pos_inj P HP); [lia..|].
      specialize (Hmax s Hs Hlt'). specialize (Hmax' b Hb Hlt). lia.
  - split; [lia|]. intros [Hlt _]. by destruct (Hn s Hs).
Qed.

(** ** C4 *)

(** C4. For every hard permutation matrix [P], [permutation_to_pointer]
    returns two values.  The first holds, for every generation step [t]
    from 1 to [L - 2], the distribution over the insertion slots among the
    [t] tokens placed before: it is one-hot, it marks the slot where token
    [t] belongs in absolute order (after the placed token with the
    greatest position below its own, or leftmost), and on the slots after
    the placed tokens it is a column of [P] restricted to the rows of the
    placed steps, namely the column of the position of the token it is
    inserted after.  The second holds the absolute position assigned to
    each step so far. *)
Theorem pointer_labels (P : list (list nat)) (t : nat) :
  hard_permutation P → 1 ≤ t ≤ length P - 2 →
  ∃ labels positions label,
    permutation_to_pointer P = (labels, positions) ∧
    labels !! (t - 1) = Some label ∧
    positions !! (t - 1) = Some (pos P <$> seq 0 (t + 1)) ∧
    length label = t + 1 ∧ Forall (λ x, x = 0 ∨ x = 1) label ∧ sum_list label = 1 ∧
    (∀ s, s < t →
       label !! s = Some 1 ↔
       pos P s < pos P t ∧
       ∀ s', s' < t → pos P s' < pos P t → pos P s' ≤ pos P s) ∧
    (label !! t = Some 1 ↔ ∀ s, s < t → pos P t < pos P s) ∧
    ∃ c, c < length P ∧ take t label = column_prefix P c t ∧
         ∀ s, left_neighbour P t = Some s → c = pos P s.
Proof.
  intros HP Ht. eexists _, _, (pointer_label P t).
  split; [reflexivity|].
  assert (Hstep : seq 1 (length P - 2) !! (t - 1) = Some t).
  { rewrite lookup_seq_lt by lia. f_equal. lia. }
  pose proof (left_neighbour_spec P t) as Hn.
  assert (Hslot : pointer_slot P t < t + 1).
  { unfold pointer_slot. destruct (left_neighbour P t); [|lia].
    destruct Hn as [? _]. lia. }
  split; [by rewrite list_lookup_fmap, Hstep|].
  split; [by rewrite list_lookup_fmap, Hstep|].
  unfold pointer_label.
  split; [apply one_hot_length|]. split; [apply one_hot_01|].
  split; [by apply one_hot_sum|]. split; [|split].
  - intros s Hs. rewrite one_hot_lookup by lia.
    rewrite <- pointer_slot_after by (done || lia).
    case_bool_decide; split; intros; (done || congruence).
  - rewrite one_hot_lookup by lia. rewrite <- pointer_slot_leftmost by (done || lia).
    case_bool_decide; split; intros; (done || congruence).
  - rewrite one_hot_after_slots. unfold pointer_slot.
    destruct (left_neighbour P t) as [b|].
    + destruct Hn as (Hb & Hlt & _). exists (pos P b).
      split; [apply pos_lt; [done|lia]|]. split; [|by intros s [= ->]].
      rewrite column_prefix_hard by (done || lia).
      apply list_fmap_ext. intros i s Hi. apply lookup_seq in Hi as [-> Hi].
      simpl. destruct (decide (i = b)) as [->|Hne].
      * by rewrite !bool_decide_eq_true_2.
      * rewrite (bool_decide_eq_false_2 (i = b)) by done.
        rewrite bool_decide_eq_false_2; [done|].
        intros Heq. apply (pos_inj P HP) in Heq; lia.
    + exists (pos P t). split; [apply pos_lt; [done|lia]|]. split; [|done].
      rewrite column_prefix_hard by (done || lia).
      apply list_fmap_ext. intros i s Hi. apply lookup_seq in Hi as [-> Hi].
      simpl. rewrite (bool_decide_eq_false_2 (i = t)) by lia.
      rewrite bool_decide_eq_false_2; [done|].
      intros Heq. apply (pos_inj P HP) in Heq; lia.
Qed.

(** The theorem at the order that places the steps at positions
    0, 3, 1, 2, 4, for step 3: the token goes after the token of step 2. *)
Lemma pointer_labels_witness :
  let P := [[1; 0; 0; 0; 0]; [0; 0; 0; 1; 0]; [0; 1; 0; 0; 0];
            [0; 0; 1; 0; 0]; [0; 0; 0; 0; 1]] in
  hard_permutation P ∧
  (permutation_to_pointer P).1 !! 2 = Some [0; 0; 1; 0] ∧
  (permutation_to_pointer P).2 !! 2 = Some [0; 3; 1; 2] ∧
  ∃ c, take 3 [0; 0; 1; 0] = column_prefix P c 3.
Proof.
  intros P.
  assert (HP : hard_permutation P) by (refine (bool_decide_unpack _ _); vm_compute; exact I).
  destruct (pointer_labels P 3 HP ltac:(simpl; lia))
    as (labels & positions & label & Hp & Hl & Hpos & _ & _ & _ & _ & _ & c & _ & Hc & _).
  split; [exact HP|].
  assert (Hlabels : labels = (permutation_to_pointer P).1) by (by rewrite Hp).
  assert (Hlabel : label = [0; 0; 1; 0]).
  { rewrite Hlabels in Hl. vm_compute in Hl. by injection Hl. }
  split; [rewrite Hp; simpl fst; by rewrite <- Hlabel|].
  split; [rewrite Hp; exact Hpos|].
  exists c. by rewrite <- Hlabel.
Defined.

End Perm.

(** ** The search decoders and their caller *)

Module Search.

(** The id of the end-of-sequence token. *)
Definition end_id : nat := 3.

(** Modelled from the spec: [beam_search] and [nucleus_sampling] of
    [voi.algorithms] are not part of the sources.  A hypothesis owns the
    tokens emitted so far (in generation order, the start token not
    counted), the absolute order of the generation steps that its
    insertion choices imply, its cumulative log-probability, and whether it
    has emitted the end-of-sequence token. *)
Record hypothesis := {
  tokens : list nat;
  order : list nat;
  log_prob : Q;
  ended : bool }.

(** A joint choice: the next token, its insertion slot among the
    [current length + 1] slots, and its log-probability. *)
Definition choice : Type := nat * nat * Q.

(** The hypothesis at decode start: length 0, just the start token. *)
Definition initial : hypothesis :=
  {| tokens := []; order := []; log_prob := 0; ended := false |}.

(** [insert_after s step order]: the order with [step] placed right after
    the step [s]. *)
Fixpoint insert_after (s step : nat) (order : list nat) : list nat :=
  match order with
  | [] => [step]
  | x :: rest =>
      if decide (x = s) then x :: step :: rest else x :: insert_after s step rest
  end.

(** Modelled from the spec: extension creates a new hypothesis; the token
    is emitted and its step is inserted into the absolute order at the
    chosen slot, after the token of step [slot] or, with the last slot,
    leftmost. *)
Definition extend (h : hypothesis) (c : choice) : hypothesis :=
  let '(token, slot, lp) := c in
  let step := length (tokens h) in
  {| tokens := tokens h ++ [token];
     order := if decide (slot < step) then insert_after slot step (order h)
              else step :: order h;
     log_prob := (log_prob h + lp)%Q;
     ended := bool_decide (token = end_id) |}.

(** Modelled from the spec (section 7): the kinds of failure.  A
    truncated decode is not one of them: it is a status flag. *)
Inductive failure : Type :=
  | ShapeMismatch
  | InvalidPermutation
  | EmptyRow
  | NonConvergent.

(** What an operation of the core hands to its caller: a value, or a
    failure that surfaces at once. *)
Inductive outcome (A : Type) : Type :=
  | Done (a : A)
  | Failed (f : failure).
Arguments Done {A} a.
Arguments Failed {A} f.

#[global] Instance outcome_bind : MBind outcome :=
  λ A B k c, match c with
             | Done a => k a
             | Failed f => Failed f
             end.

(** The outcomes of a list of operations, up to the first failure. *)
Fixpoint collect {A : Type} (l : list (outcome A)) : outcome (list A) :=
  match l with
  | [] => Done []
  | c :: l' => a ← c; rest ← collect l'; Done (a :: rest)
  end.

(** Modelled from the spec: a hypothesis of [current length] tokens has
    [current length + 1] insertion slots; a joint choice of another slot
    is malformed input and surfaces as [ShapeMismatch]. *)
Definition extend_checked (h : hypothesis) (c : choice) : outcome hypothesis :=
  if decide (c.1.2 ≤ length (tokens h)) then Done (extend h c)
  else Failed ShapeMismatch.

(** The stable sort of the candidates by decreasing cumulative
    log-probability. *)
Fixpoint insert_by_score (h : hypothesis) (l : list hypothesis) : list hypothesis :=
  match l with
  | [] => [h]
  | h' :: l' =>
      if Qle_bool (log_prob h') (log_prob h) then h :: h' :: l'
      else h' :: insert_by_score h l'
  end.

Definition sort_by_score (l : list hypothesis) : list hypothesis :=
  foldr insert_by_score [] l.

(** The two modes of the decoder. *)
Inductive mode : Type :=
  | BeamSearch (beam_width : nat)
  | NucleusSampling (num_samples : nat) (nucleus_probability : Q).

(** Modelled from the spec (sections 4.4 and 6): the record of a decoded
    output that is handed to the caller: the tokens, the absolute order
    recovered from the insertion choices, the log-probability and the
    truncation flag. *)
Record output := {
  out_tokens : list nat;
  out_order : list nat;
  out_log_prob : Q;
  out_truncated : bool }.

(** Modelled from the spec: a hypothesis is finalized at its current
    length; it is flagged as truncated when it has not emitted the
    end-of-sequence token. *)
Definition finalize (h : hypothesis) : output :=
  {| out_tokens := tokens h; out_order := order h; out_log_prob := log_prob h;
     out_truncated := negb (ended h) |}.

Section Decoder.

(** The scoring source: the joint choices for a hypothesis at a step. *)
Variable score : list nat → list nat → nat → list choice.

(** The draw of sample [i] at a step from the joint choices, truncated to
    the nucleus of probability [p] and renormalized; the generator of the
    random numbers is part of it. *)
Variable draw : Q → nat → nat → list choice → choice.

(** Modelled from the spec: one decode step of beam search.  Every live
    hypothesis is extended by every joint choice; the finalized hypotheses
    are held aside and count toward the budget; the [beam_width] best are
    kept. *)
Definition beam_step (beam_width step : nat) (beam : list hypothesis) :
    outcome (list hypothesis) :=
  let finalized := filter (λ h, ended h = true) beam in
  let live := filter (λ h, ended h = false) beam in
  candidates ←
    collect (live ≫= λ h, extend_checked h <$> score (tokens h) (order h) step);
  Done (take beam_width (sort_by_score (finalized ++ candidates))).

(** Modelled from the spec: one decode step of nucleus sampling.  Every
    live draw proceeds on its own. *)
Definition nucleus_step (p : Q) (step : nat) (samples : list hypothesis) :
    outcome (list hypothesis) :=
  collect (imap (λ i h, if ended h then Done h
                        else extend_checked h
                               (draw p i step (score (tokens h) (order h) step)))
                samples).

Definition decode_step (m : mode) : nat → list hypothesis → outcome (list hypothesis) :=
  match m with
  | BeamSearch beam_width => beam_step beam_width
  | NucleusSampling _ p => nucleus_step p
  end.

Definition initial_frontier (m : mode) : list hypothesis :=
  match m with
  | BeamSearch beam_width => replicate beam_width initial
  | NucleusSampling num_samples _ => replicate num_samples initial
  end.

(** Modelled from the spec: the decode loop.  A step is taken until every
    hypothesis is finalized or [max_iterations] steps are taken; [step]
    counts the steps taken.  When no step is left, the loop ends with the
    frontier as it is. *)
Fixpoint iterate (m : mode) (remaining step : nat) (frontier : list hypothesis) :
    outcome (list hypothesis) :=
  match remaining with
  | 0 => Done frontier
  | S remaining' =>
      if forallb ended frontier then Done frontier
      else frontier ← decode_step m step frontier;
           iterate m remaining' (S step) frontier
  end.

(** Modelled from the spec: the decoder.  The hypotheses that the loop
    ends with are finalized, those still live at their current length. *)
Definition search (m : mode) (max_iterations : nat) : outcome (list output) :=
  frontier ← iterate m max_iterations 0 (initial_frontier m);
  Done (fmap (M:=list) finalize frontier).

(** The scoring source and the draws offer slots of the hypothesis
    only. *)
Definition valid_source : Prop :=
  (∀ toks ord step c, c ∈ score toks ord step → c.1.2 ≤ length toks) ∧
  (∀ p i step toks ord, (draw p i step (score toks ord step)).1.2 ≤ length toks).

End Decoder.

(** What holds of a hypothesis after [step] decode steps: it has at most
    [step] tokens, exactly [step] if it is live, and it is finalized by
    the end-of-sequence token if it is finalized at all. *)
Definition well_formed (step : nat) (h : hypothesis) : Prop :=
  length (tokens h) ≤ step ∧
  (ended h = false → length (tokens h) = step) ∧
  (ended h = true ↔ last (tokens h) = Some end_id).

(** *** The caller (inspect_order.py, lines 485-516) *)

(** The objects a decoder hands to its caller. *)
Inductive pyobj : Type :=
  | Captions (cap : list (list nat))
  | LogProbs (logp : list Q)
  | RelativePositions (rel_pos : list (list (list (list nat))))
  | PyNone.

Section Caller.
Variable Inputs : Type.

(** The decoder called at line 499:
    [nucleus_sampling(inputs, model, dataset_type, num_samples=...,
    nucleus_probability=..., max_iterations=..., return_rel_pos=True)]. *)
Variable nucleus_sampling : Inputs → string → nat → Q → nat → bool → list pyobj.

(** Lines 490-516; [inputs] is the value of
    [prepare_batch_for_lm(tf.constant(1), b)] at line 496 and [permu] the
    permutation computed at lines 509-515.  With a dataset type that is
    none of the known ones, neither [prepare_batch_for_lm] nor [maxit] is
    bound, and line 496 raises [NameError]; unpacking a tuple that has not
    exactly three elements raises [ValueError]. *)
Definition decode_function (dataset_type : string) (beam_size : nat)
    (inputs : Inputs) (permu : pyobj) : result (pyobj * pyobj * pyobj * pyobj) :=
  maxit ← (if decide (dataset_type = "captioning") then Return 40
           else if decide (dataset_type ∈ ["wmt"; "django"]) then Return 150
           else if decide (dataset_type ∈ ["gigaword"]) then Return 40
           else Raise NameError);
  match nucleus_sampling inputs dataset_type beam_size (1 # 2) maxit true with
  | [cap; logp; rel_pos] => Return (cap, logp, rel_pos, permu)
  | _ => Raise ValueError
  end.

End Caller.

(** *** The decode loop *)

Lemma initial_well_formed : well_formed 0 initial.
Proof. unfold well_formed. simpl. split; [lia|]. split; [done|]. split; done. Qed.

Lemma extend_well_formed step h c :
  well_formed step h → ended h = false → well_formed (S step) (extend h c).
Proof.
  intros (_ & Hlive & _) He. destruct c as [[token slot] lp].
  unfold well_formed, extend. simpl.
  rewrite length_app, last_snoc, (Hlive He). simpl.
  split; [lia|]. split; [lia|].
  split.
  - intros Ht%bool_decide_eq_true. by rewrite Ht.
  - intros [= Ht]. by apply bool_decide_eq_true.
Qed.

Lemma finalized_well_formed step step' h :
  well_formed step h → ended h = true → step ≤ step' → well_formed step' h.
Proof.
  intros (Hlen & _ & Hend) He Hle. split; [lia|]. split; [congruence|done].
Qed.

Lemma elem_of_insert_by_score h x l : h ∈ insert_by_score x l → h = x ∨ h ∈ l.
Proof.
  induction l as [|y l IH]; simpl.
  - intros ->%list_elem_of_singleton. by left.
  - destruct (Qle_bool _ _).
    + intros [->|H]%elem_of_cons; [by left|by right].
    + intros [->|H]%elem_of_cons; [right; by left|].
      destruct (IH H) as [->|H']; [by left|right; by right].
Qed.

Lemma elem_of_sort_by_score h l : h ∈ sort_by_score l → h ∈ l.
Proof.
  induction l as [|x l IH]; simpl; [done|].
  intros [->|H]%elem_of_insert_by_score; [by left|right; by apply IH].
Qed.

(** *** Outcomes of lists *)

Lemma collect_Done {A : Type} (l : list (outcome A)) (l' : list A) :
  collect l = Done l' ↔ l = Done <$> l'.
Proof.
  revert l'. induction l as [|c l IH]; intros l'; simpl.
  - split; [intros [= <-]; done|]. by destruct l'.
  - destruct c as [a|f]; simpl.
    + destruct (collect l) as [rest|f] eqn:E; simpl.
      * split.
        -- intros [= <-]. rewrite fmap_cons. f_equal. by apply IH.
        -- destruct l' as [|a' l']; [done|]. rewrite fmap_cons. intros [= -> Hl].
           apply IH in Hl. by simplify_eq.
      * split; [done|]. destruct l' as [|a' l']; [done|].
        rewrite fmap_cons. intros [= -> Hl]. apply IH in Hl. done.
    + split; [done|]. by destruct l'.
Qed.

Lemma collect_Failed {A : Type} (l : list (outcome A)) f :
  collect l = Failed f → Failed f ∈ l.
Proof.
  induction l as [|c l IH]; simpl; [done|].
  destruct c as [a|f']; simpl.
  - destruct (collect l) as [rest|f''] eqn:E; simpl; [done|].
    intros [= ->]. right. by apply IH.
  - intros [= ->]. by left.
Qed.

Lemma extend_checked_Failed h c f : extend_checked h c = Failed f → f = ShapeMismatch.
Proof. unfold extend_checked. case_decide; by intros [= <-]. Qed.

Section Loop.
Variable score : list nat → list nat → nat → list choice.
Variable draw : Q → nat → nat → list choice → choice.

(** A step fails by a malformed choice only. *)
Lemma decode_step_Failed m step frontier f :
  decode_step score draw m step frontier = Failed f → f = ShapeMismatch.
Proof.
  destruct m as [beam_width|num_samples p]; simpl.
  - unfold beam_step. destruct (collect _) as [cs|f'] eqn:E; simpl; [done|].
    intros [= ->]. apply collect_Failed in E.
    apply list_elem_of_bind in E as (h & E & _).
    apply list_elem_of_fmap in E as (c & E & _). symmetry in E.
    by eapply extend_checked_Failed.
  - unfold nucleus_step. intros E%collect_Failed.
    apply elem_of_lookup_imap in E as (i & h & E & _).
    destruct (ended h); [done|]. symmetry in E. by eapply extend_checked_Failed.
Qed.

Lemma iterate_Failed m remaining step frontier f :
  iterate score draw m remaining step frontier = Failed f → f = ShapeMismatch.
Proof.
  revert step frontier. induction remaining as [|remaining IH]; intros step frontier;
    simpl; [done|].
  destruct (forallb ended frontier); [done|].
  destruct (decode_step score draw m step frontier) as [frontier'|f'] eqn:E; simpl.
  - apply IH.
  - intros [= ->]. by eapply decode_step_Failed.
Qed.

Hypothesis Hvalid : valid_source score draw.

Lemma decode_step_Done m step frontier :
  Forall (well_formed step) frontier →
  ∃ frontier', decode_step score draw m step frontier = Done frontier' ∧
               Forall (well_formed (S step)) frontier'.
Proof.
  intros Hf. destruct Hvalid as [Hscore Hdraw].
  rewrite Forall_forall in Hf. destruct m as [beam_width|num_samples p]; simpl.
  - unfold beam_step.
    set (live := filter (λ h, ended h = false) frontier).
    assert (Hc : collect (live ≫= λ h,
                   extend_checked h <$> score (tokens h) (order h) step)
                 = Done (live ≫= λ h, extend h <$> score (tokens h) (order h) step)).
    { apply collect_Done. clearbody live. induction live as [|h live IH]; [done|].
      rewrite !bind_cons, fmap_app, IH. f_equal.
      rewrite <- list_fmap_compose. apply list_fmap_ext. intros i c Hc.
      unfold extend_checked. simpl. rewrite decide_True; [done|].
      eapply Hscore. by eapply list_elem_of_lookup_2. }
    rewrite Hc. simpl. eexists. split; [done|].
    apply Forall_forall. intros h Hh.
    apply subseteq_take, elem_of_sort_by_score, elem_of_app in Hh as [Hh|Hh].
    + apply list_elem_of_filter in Hh as [He Hh].
      apply (finalized_well_formed step); [by apply Hf|done|lia].
    + apply list_elem_of_bind in Hh as (h0 & Hh & Hh0).
      apply list_elem_of_filter in Hh0 as [He Hh0].
      apply list_elem_of_fmap in Hh as (c & -> & _).
      by apply extend_well_formed; [apply Hf|].
  - unfold nucleus_step.
    assert (Hc : collect (imap (λ i h, if ended h then Done h
                        else extend_checked h
                               (draw p i step (score (tokens h) (order h) step)))
                           frontier)
                 = Done (imap (λ i h, if ended h then h
                        else extend h
                               (draw p i step (score (tokens h) (order h) step)))
                           frontier)).
    { apply collect_Done. rewrite fmap_imap. apply imap_ext. intros i h _. simpl.
      destruct (ended h); [done|]. unfold extend_checked.
      by rewrite decide_True by apply Hdraw. }
    rewrite Hc. eexists. split; [done|].
    apply Forall_forall. intros h Hh.
    apply elem_of_lookup_imap in Hh as (i & h0 & -> & Hh0).
    apply list_elem_of_lookup_2 in Hh0.
    destruct (ended h0) eqn:He.
    + apply (finalized_well_formed step); [by apply Hf|done|lia].
    + by apply extend_well_formed; [apply Hf|].
Qed.

Lemma iterate_Done m remaining step frontier :
  Forall (well_formed step) frontier →
  ∃ frontier', iterate score draw m remaining step frontier = Done frontier' ∧
               Forall (well_formed (step + remaining)) frontier'.
Proof.
  revert step frontier. induction remaining as [|remaining IH]; intros step frontier Hf.
  - simpl. exists frontier. by rewrite Nat.add_0_r.
  - simpl. destruct (forallb ended frontier) eqn:Hall.
    + exists frontier. split; [done|]. apply Forall_forall. intros h Hh.
      assert (Hended : Forall ended frontier) by (apply forallb_True; by rewrite Hall).
      rewrite Forall_forall in Hended, Hf.
      apply (finalized_well_formed step); [by apply Hf| |lia].
      specialize (Hended h Hh). by destruct (ended h).
    + destruct (decode_step_Done m step frontier Hf) as (frontier' & -> & Hf').
      simpl. replace (step + S remaining) with (S step + remaining) by lia.
      by apply IH.
Qed.

End Loop.

(** ** C7 *)



End Search.

(** ** The layer stack of the transformer (transformer.py) and the
    configuration dictionaries *)

Module Transformer.

(** *** [get_config] (transformer.py, lines 180-211;
    permutation_layer.py, lines 94-111) *)

Section GetConfig.

(** The values of a configuration dictionary. *)
Context {V : Type}.

(** [dict(items)] on a list of pairs: a later pair replaces an earlier one
    of the same key. *)
Definition py_dict (items : list (string * V)) : gmap string V :=
  foldl (λ d kv, <[kv.1 := kv.2]> d) ∅ items.

(** [dict(k1=v1, ..., **kwargs)]: a keyword given twice is a
    [TypeError]. *)
Definition dict_kw (named : list (string * V)) (kwargs : gmap string V) :
    result (gmap string V) :=
  if decide (Exists (λ k, is_Some (kwargs !! k)) named.*1) then Raise TypeError
  else Return (py_dict (named ++ map_to_list kwargs)).

(** The body of both [get_config] methods, given the parameters the
    class stores, [self.kwargs] and the dictionary of the base class. *)
Definition get_config (named : list (string * V)) (kwargs base_config : gmap string V) :
    result (gmap string V) :=
  config ← dict_kw named kwargs;
  Return (py_dict (map_to_list base_config ++ map_to_list config)).

(** The keywords of [PermutationLayer.get_config] and of
    [Transformer.get_config]. *)
Definition permutation_layer_keys : list string := ["input_size"; "temperature"].

Definition transformer_keys : list string :=
  ["num_tgt_embeddings"; "hidden_size"; "heads"; "num_layers"; "src_embedding";
   "tgt_embedding"; "queries_dropout"; "keys_dropout"; "values_dropout";
   "label_smoothing"; "causal"; "logits_per_slot"; "first_layer"; "final_layer";
   "decoder_pos_emb"; "dataset"].

Lemma foldl_insert_union (items : list (string * V)) (d : gmap string V) :
  foldl (λ d kv, <[kv.1 := kv.2]> d) d items
  = list_to_map (reverse items) ∪ d.
Proof.
  revert d. induction items as [|[k v] items IH]; intros d.
  - simpl. by rewrite (left_id_L ∅ (∪)).
  - simpl. rewrite IH, reverse_cons, list_to_map_app. simpl.
    rewrite <- (assoc_L (∪)). f_equal.
    by rewrite insert_empty, <- insert_union_singleton_l.
Qed.

Lemma py_dict_app (a b : list (string * V)) :
  py_dict (a ++ b) = py_dict b ∪ py_dict a.
Proof.
  unfold py_dict. rewrite foldl_app, !foldl_insert_union.
  by rewrite !(right_id_L ∅ (∪)).
Qed.

Lemma py_dict_items (d : gmap string V) : py_dict (map_to_list d) = d.
Proof.
  unfold py_dict. rewrite foldl_insert_union, (right_id_L ∅ (∪)).
  rewrite <- (list_to_map_to_list d) at 2.
  apply list_to_map_proper.
  - rewrite fmap_reverse, reverse_Permutation. apply NoDup_fst_map_to_list.
  - apply reverse_Permutation.
Qed.

Lemma py_dict_named (named : list (string * V)) k v :
  NoDup named.*1 → (k, v) ∈ named → py_dict named !! k = Some v.
Proof.
  intros Hnd Hin. unfold py_dict.
  rewrite foldl_insert_union, (right_id_L ∅ (∪)).
  apply elem_of_list_to_map.
  - by rewrite fmap_reverse, reverse_Permutation.
  - by apply elem_of_reverse.
Qed.

Lemma py_dict_not_named (named : list (string * V)) k :
  k ∉ named.*1 → py_dict named !! k = None.
Proof.
  intros Hk. unfold py_dict.
  rewrite foldl_insert_union, (right_id_L ∅ (∪)).
  apply not_elem_of_list_to_map. by rewrite fmap_reverse, elem_of_reverse.
Qed.

(** X21. When [self.kwargs] repeats none of the stored parameters,
    [get_config] returns a dictionary in which every stored parameter and
    every entry of [self.kwargs] has its own value, whatever the base
    class put under the same key; the entries of the base class under
    other keys are kept.  The keywords of both classes are distinct. *)
Theorem get_config_overrides (named : list (string * V))
    (kwargs base_config : gmap string V) :
  NoDup named.*1 → (∀ k, k ∈ named.*1 → kwargs !! k = None) →
  NoDup permutation_layer_keys ∧ NoDup transformer_keys ∧
  ∃ config,
    get_config named kwargs base_config = Return config ∧
    (∀ k v, (k, v) ∈ named → config !! k = Some v) ∧
    (∀ k v, kwargs !! k = Some v → config !! k = Some v) ∧
    (∀ k, k ∉ named.*1 → kwargs !! k = None → config !! k = base_config !! k).
Proof.
  intros Hnd Hkw.
  split; [refine (bool_decide_unpack _ _); vm_compute; exact I|].
  split; [refine (bool_decide_unpack _ _); vm_compute; exact I|].
  unfold get_config, dict_kw. rewrite decide_False.
  - simpl. eexists. split; [reflexivity|].
    rewrite !py_dict_app, !py_dict_items. split; [|split].
    + intros k v Hin. apply lookup_union_Some_raw. left.
      apply lookup_union_Some_raw. right. split.
      * apply Hkw. apply list_elem_of_fmap. by exists (k, v).
      * by apply py_dict_named.
    + intros k v Hk. apply lookup_union_Some_raw. left.
      apply lookup_union_Some_raw. by left.
    + intros k Hk Hkn. rewrite lookup_union_r; [done|].
      apply lookup_union_None. split; [done|]. by apply py_dict_not_named.
  - rewrite Exists_exists. intros (k & Hk & [v Hv]).
    rewrite (Hkw k Hk) in Hv. done.
Qed.

End GetConfig.

(** X21 on [PermutationLayer.get_config] with [input_size = 64],
    [temperature = 1], no further keyword and a base class that stores a
    name and, under the key of a parameter, another value. *)
Lemma get_config_overrides_witness :
  ∃ config,
    get_config [("input_size", 64%Z); ("temperature", 1%Z)] ∅
      (<["temperature" := 7%Z]> (<["name" := 0%Z]> ∅)) = Return config ∧
    config !! "temperature" = Some 1%Z ∧ config !! "name" = Some 0%Z.
Proof.
  destruct (get_config_overrides [("input_size", 64%Z); ("temperature", 1%Z)] ∅
              (<["temperature" := 7%Z]> (<["name" := 0%Z]> ∅)))
    as (_ & _ & config & Hrun & Hnamed & _ & Hbase).
  - refine (bool_decide_unpack _ _). vm_compute. exact I.
  - intros k _. apply lookup_empty.
  - exists config. split; [exact Hrun|]. split.
    + apply Hnamed. apply list_elem_of_further, list_elem_of_here.
    + rewrite Hbase; [reflexivity| |apply lookup_empty].
      simpl. rewrite !elem_of_cons, elem_of_nil. intuition discriminate.
Defined.

(** *** [Transformer.__init__] (transformer.py, lines 91-158) *)

Section Init.

(** The embedding layers, the further keyword arguments and the floats
    of the dropout rates are passed on as they come. *)
Context {Embedding Kwargs F : Type}.

(** The arguments of the constructor. *)
Record params := {
  num_tgt_embeddings : Z;
  hidden_size : Z;
  heads : Z;
  num_layers : Z;
  src_embedding : Embedding;
  tgt_embedding : Embedding;
  queries_dropout : F;
  keys_dropout : F;
  values_dropout : F;
  label_smoothing : F;
  causal : bool;
  logits_per_slot : Z;
  first_layer : string;
  final_layer : string;
  decoder_pos_emb : bool;
  dataset : string;
  kwargs : Kwargs }.

(** The layers of the stack, with the arguments they are built with. *)
Inductive layer : Type :=
  | DiscreteFeature (hidden_size : Z) (src tgt : Embedding) (mode : string)
      (decoder_pos_emb : bool) (kw : Kwargs)
  | ContinuousFeature (hidden_size : Z) (src tgt : Embedding) (mode : string)
      (decoder_pos_emb : bool) (kw : Kwargs)
  | RegionFeature (hidden_size : Z) (src tgt : Embedding) (mode : string)
      (decoder_pos_emb : bool) (kw : Kwargs)
  | EncoderLayer (input_size hidden_size heads : Z) (qd kd vd : F)
      (causal : bool) (kw : Kwargs)
  | EncoderWithPositionLayer (input_size hidden_size heads : Z) (qd kd vd : F)
      (causal : bool) (num_pos : Z) (kw : Kwargs)
  | DecoderLayer (input_size hidden_size heads : Z) (qd kd vd : F)
      (causal : bool) (kw : Kwargs)
  | DecoderWithPositionLayer (input_size hidden_size heads : Z) (qd kd vd : F)
      (causal : bool) (kw : Kwargs)
  | Logits (hidden_size : Z) (tgt : Embedding) (label_smoothing : F) (kw : Kwargs)
  | PointerAfterLogits (hidden_size output_size num_tgt_embeddings : Z)
      (tgt : Embedding) (causal : bool) (logits_per_slot : Z) (kw : Kwargs).

(** [[layer for _ in range(n)]] *)
Definition for_range_layers (n : Z) (l : layer) : list layer :=
  replicate (Z.to_nat n) l.

(** The list [layers] when line 158 is reached. *)
Definition init_layers (p : params) : list layer :=
  let layers := [] in
  let layers :=
    if decide (first_layer p = "discrete")
    then layers ++ [DiscreteFeature (hidden_size p) (src_embedding p)
                      (tgt_embedding p) "decoder" (decoder_pos_emb p) (kwargs p)]
    else layers in
  let layers :=
    if decide (first_layer p = "continuous")
    then layers ++ [ContinuousFeature (hidden_size p) (src_embedding p)
                      (tgt_embedding p) "decoder" (decoder_pos_emb p) (kwargs p)]
    else layers in
  let layers :=
    if decide (first_layer p = "region")
    then layers ++ [RegionFeature (hidden_size p) (src_embedding p)
                      (tgt_embedding p) "decoder" (decoder_pos_emb p) (kwargs p)]
    else layers in
  let layers :=
    if decide (dataset p = "captioning" ∨ decoder_pos_emb p = true)
    then layers ++ for_range_layers (num_layers p)
           (EncoderLayer (hidden_size p) (hidden_size p * 4) (heads p)
              (queries_dropout p) (keys_dropout p) (values_dropout p) false
              (kwargs p))
    else layers ++ for_range_layers (num_layers p)
           (EncoderWithPositionLayer (hidden_size p) (hidden_size p * 4) (heads p)
              (queries_dropout p) (keys_dropout p) (values_dropout p) false 1
              (kwargs p)) in
  let cls :=
    if decide (final_layer p = "indigo") then DecoderWithPositionLayer
    else DecoderLayer in
  let layers :=
    layers ++ for_range_layers (num_layers p)
      (cls (hidden_size p) (hidden_size p * 4)%Z (heads p) (queries_dropout p)
         (keys_dropout p) (values_dropout p) (causal p) (kwargs p)) in
  let layers :=
    if decide (final_layer p = "logits" ∨ final_layer p = "indigo")
    then layers ++ [Logits (hidden_size p) (tgt_embedding p) (label_smoothing p)
                      (kwargs p)]
    else layers in
  let layers :=
    if decide (final_layer p = "indigo")
    then layers ++ [PointerAfterLogits (hidden_size p * 4) (hidden_size p)
                      (num_tgt_embeddings p) (tgt_embedding p) (causal p)
                      (logits_per_slot p) (kwargs p)]
    else layers in
  layers.

(** Line 156, [self.final_layer_obj = layers[-1]]; [None] stands for the
    [IndexError] of an empty list. *)
Definition final_layer_obj (p : params) : option layer := last (init_layers p).

(** The four parts of the stack. *)
Inductive kind : Type := Feature | Encoder | Decoder | Output.

Definition layer_kind (l : layer) : kind :=
  match l with
  | DiscreteFeature _ _ _ _ _ _ | ContinuousFeature _ _ _ _ _ _
  | RegionFeature _ _ _ _ _ _ => Feature
  | EncoderLayer _ _ _ _ _ _ _ _ | EncoderWithPositionLayer _ _ _ _ _ _ _ _ _ => Encoder
  | DecoderLayer _ _ _ _ _ _ _ _ | DecoderWithPositionLayer _ _ _ _ _ _ _ _ => Decoder
  | Logits _ _ _ _ | PointerAfterLogits _ _ _ _ _ _ _ => Output
  end.

(** The layer attends with relative positions. *)
Definition with_position (l : layer) : bool :=
  match l with
  | EncoderWithPositionLayer _ _ _ _ _ _ _ _ _
  | DecoderWithPositionLayer _ _ _ _ _ _ _ _ => true
  | _ => false
  end.

(** The argument [causal] of an attention layer. *)
Definition layer_causal (l : layer) : option bool :=
  match l with
  | EncoderLayer _ _ _ _ _ _ c _ | EncoderWithPositionLayer _ _ _ _ _ _ c _ _
  | DecoderLayer _ _ _ _ _ _ c _ | DecoderWithPositionLayer _ _ _ _ _ _ c _ => Some c
  | PointerAfterLogits _ _ _ _ c _ _ => Some c
  | _ => None
  end.

(** *** The stack in four parts *)

Definition first_part (p : params) : list layer :=
  if decide (first_layer p = "discrete")
  then [DiscreteFeature (hidden_size p) (src_embedding p) (tgt_embedding p)
          "decoder" (decoder_pos_emb p) (kwargs p)]
  else if decide (first_layer p = "continuous")
  then [ContinuousFeature (hidden_size p) (src_embedding p) (tgt_embedding p)
          "decoder" (decoder_pos_emb p) (kwargs p)]
  else if decide (first_layer p = "region")
  then [RegionFeature (hidden_size p) (src_embedding p) (tgt_embedding p)
          "decoder" (decoder_pos_emb p) (kwargs p)]
  else [].

Definition encoder_layer (p : params) : layer :=
  if decide (dataset p = "captioning" ∨ decoder_pos_emb p = true)
  then EncoderLayer (hidden_size p) (hidden_size p * 4) (heads p)
         (queries_dropout p) (keys_dropout p) (values_dropout p) false (kwargs p)
  else EncoderWithPositionLayer (hidden_size p) (hidden_size p * 4) (heads p)
         (queries_dropout p) (keys_dropout p) (values_dropout p) false 1 (kwargs p).

Definition decoder_layer (p : params) : layer :=
  (if decide (final_layer p = "indigo") then DecoderWithPositionLayer
   else DecoderLayer)
    (hidden_size p) (hidden_size p * 4)%Z (heads p) (queries_dropout p)
    (keys_dropout p) (values_dropout p) (causal p) (kwargs p).

Definition logits_layer (p : params) : layer :=
  Logits (hidden_size p) (tgt_embedding p) (label_smoothing p) (kwargs p).

Definition pointer_layer (p : params) : layer :=
  PointerAfterLogits (hidden_size p * 4) (hidden_size p) (num_tgt_embeddings p)
    (tgt_embedding p) (causal p) (logits_per_slot p) (kwargs p).

Definition final_part (p : params) : list layer :=
  if decide (final_layer p = "indigo") then [logits_layer p; pointer_layer p]
  else if decide (final_layer p = "logits") then [logits_layer p]
  else [].

Lemma init_layers_parts (p : params) :
  init_layers p
  = first_part p ++ for_range_layers (num_layers p) (encoder_layer p)
    ++ for_range_layers (num_layers p) (decoder_layer p) ++ final_part p.
Proof.
  unfold init_layers, first_part, encoder_layer, decoder_layer, final_part,
    logits_layer, pointer_layer.
  destruct (decide (first_layer p = "discrete")) as [H1|H1];
    destruct (decide (first_layer p = "continuous")) as [H2|H2];
    destruct (decide (first_layer p = "region")) as [H3|H3];
    try (rewrite H1 in H2; discriminate);
    try (rewrite H1 in H3; discriminate);
    try (rewrite H2 in H3; discriminate);
    destruct (decide (dataset p = "captioning" ∨ decoder_pos_emb p = true));
    destruct (decide (final_layer p = "indigo")) as [Hi|Hi];
    destruct (decide (final_layer p = "logits")) as [Hl|Hl];
    try (rewrite Hi in Hl; discriminate);
    (destruct (decide (final_layer p = "logits" ∨ final_layer p = "indigo"))
       as [Hd|Hd]; [|try (exfalso; apply Hd; by (left + right))]);
    try (destruct Hd as [Hd|Hd]; done);
    simpl; rewrite <- ?(assoc_L (++)); simpl; rewrite ?app_nil_r; reflexivity.
Qed.

Lemma last_for_range_layers n (l : layer) :
  last (for_range_layers n l) = if decide (0 < n)%Z then Some l else None.
Proof.
  unfold for_range_layers. destruct (decide (0 < n)%Z) as [Hn|Hn].
  - destruct (Z.to_nat n) as [|k] eqn:Hk; [lia|].
    rewrite replicate_S_end. apply last_snoc.
  - replace (Z.to_nat n) with 0 by lia. done.
Qed.

(** X22. The object stored as [final_layer_obj] is the pointer layer for
    ['indigo'] and the logits layer for ['logits']; with any other
    [final_layer] it is the last decoder layer when there is one, and else
    the feature layer; the index [-1] fails exactly when the stack is
    empty: no output layer, no positive [num_layers] and a [first_layer]
    that is none of the three known ones. *)
Theorem final_layer_obj_cases (p : params) :
  (final_layer p = "indigo" → final_layer_obj p = Some (pointer_layer p)) ∧
  (final_layer p = "logits" → final_layer_obj p = Some (logits_layer p)) ∧
  (final_layer p ≠ "indigo" → final_layer p ≠ "logits" → (0 < num_layers p)%Z →
   final_layer_obj p = Some (decoder_layer p) ∧
   layer_kind (decoder_layer p) = Decoder ∧
   with_position (decoder_layer p) = false) ∧
  (final_layer p ≠ "indigo" → final_layer p ≠ "logits" → (num_layers p ≤ 0)%Z →
   final_layer_obj p = last (first_part p)) ∧
  (final_layer_obj p = None ↔
   final_layer p ≠ "indigo" ∧ final_layer p ≠ "logits" ∧ (num_layers p ≤ 0)%Z ∧
   first_layer p ∉ ["discrete"; "continuous"; "region"]).
Proof.
  unfold final_layer_obj. rewrite init_layers_parts, !last_app.
  rewrite !last_for_range_layers.
  assert (Hfirst : last (first_part p) = None ↔
                   first_layer p ∉ ["discrete"; "continuous"; "region"]).
  { unfold first_part. rewrite !elem_of_cons, elem_of_nil.
    repeat case_decide; simpl; split; intros; (done || tauto). }
  unfold final_part, decoder_layer.
  destruct (decide (final_layer p = "indigo")) as [Hi|Hi];
    [|destruct (decide (final_layer p = "logits")) as [Hl|Hl]]; simpl.
  - split; [done|]. split; [rewrite Hi; done|]. split; [done|]. split; [done|].
    split; [done|tauto].
  - split; [done|]. split; [done|]. split; [done|]. split; [done|].
    split; [done|tauto].
  - split; [done|]. split; [done|].
    destruct (decide (0 < num_layers p)%Z) as [Hn|Hn].
    + split; [done|]. split; [lia|]. split; [done|]. intros (_ & _ & ? & _). lia.
    + split; [lia|]. split; [done|]. rewrite Hfirst. split.
      * intros Hf. repeat split; (done || lia).
      * by intros (_ & _ & _ & ?).
Qed.

(** X23. The stack has a feature layer exactly when [first_layer] is one
    of the three known values, then [num_layers] encoder layers, then
    [num_layers] decoder layers, then one output layer for ['logits'] and
    two for ['indigo'].  No encoder layer is causal, and the encoder layers
    attend with positions unless the dataset is ['captioning'] or
    [decoder_pos_emb] is set; every decoder layer takes [causal] as given,
    and the decoder layers attend with positions exactly for ['indigo']. *)
Theorem init_layers_shape (p : params) :
  let n := Z.to_nat (num_layers p) in
  let f := length (first_part p) in
  let g := length (final_part p) in
  (f = if decide (first_layer p ∈ ["discrete"; "continuous"; "region"])
       then 1 else 0) ∧
  (g = if decide (final_layer p = "indigo") then 2
       else if decide (final_layer p = "logits") then 1 else 0) ∧
  length (init_layers p) = f + 2 * n + g ∧
  ∀ k l, init_layers p !! k = Some l →
    (k < f → layer_kind l = Feature) ∧
    (f ≤ k < f + n →
     layer_kind l = Encoder ∧ layer_causal l = Some false ∧
     (with_position l = false ↔
      dataset p = "captioning" ∨ decoder_pos_emb p = true)) ∧
    (f + n ≤ k < f + 2 * n →
     layer_kind l = Decoder ∧ layer_causal l = Some (causal p) ∧
     (with_position l = true ↔ final_layer p = "indigo")) ∧
    (f + 2 * n ≤ k → layer_kind l = Output).
Proof.
  intros n f g. subst n f g.
  split; [|split; [|split]].
  - unfold first_part.
    destruct (decide (first_layer p ∈ ["discrete"; "continuous"; "region"]))
      as [Hin|Hin]; rewrite !elem_of_cons, elem_of_nil in Hin;
      repeat case_decide; simpl; (done || tauto).
  - unfold final_part. by repeat case_decide.
  - rewrite init_layers_parts. unfold for_range_layers.
    rewrite !length_app, !length_replicate. lia.
  - intros k l. rewrite init_layers_parts. unfold for_range_layers.
    assert (Hf : Forall (λ l, layer_kind l = Feature) (first_part p))
      by (unfold first_part; repeat case_decide; repeat constructor).
    assert (Hg : Forall (λ l, layer_kind l = Output) (final_part p))
      by (unfold final_part; repeat case_decide; repeat constructor).
    rewrite Forall_lookup in Hf, Hg.
    rewrite !lookup_app_Some, !length_replicate, !lookup_replicate.
    intros [Hk|[Hk1 [[-> Hk]|[Hk2 [[-> Hk]|[Hk3 Hk]]]]]].
    + pose proof (lookup_lt_Some _ _ _ Hk). pose proof (Hf _ _ Hk).
      repeat split; (done || lia).
    + split; [lia|]. split; [|split; lia]. intros _.
      unfold encoder_layer. case_decide; simpl; repeat split; (done || tauto).
    + split; [lia|]. split; [lia|]. split; [|lia]. intros _.
      unfold decoder_layer. case_decide; simpl; repeat split; (done || tauto).
    + pose proof (Hg _ _ Hk). repeat split; (done || lia).
Qed.

End Init.

(** X22 on a stack without output layer, without layers and without a
    known feature layer, and on the default of the constructor. *)
Lemma final_layer_obj_cases_witness :
  let p final first n :=
    {| num_tgt_embeddings := 100; hidden_size := 8; heads := 2; num_layers := n;
       src_embedding := (); tgt_embedding := (); queries_dropout := ();
       keys_dropout := (); values_dropout := (); label_smoothing := ();
       causal := true; logits_per_slot := 1; first_layer := first;
       final_layer := final; decoder_pos_emb := false; dataset := "captioning";
       kwargs := () |} in
  final_layer_obj (p "none" "none" 0%Z) = None ∧
  final_layer_obj (p "logits" "region" 2%Z) = Some (Logits 8 () () ()).
Proof.
  intros p. split.
  - apply (final_layer_obj_cases (p "none" "none" 0%Z)). simpl.
    rewrite !elem_of_cons, elem_of_nil. repeat split; (discriminate || lia || idtac).
    intuition discriminate.
  - apply (final_layer_obj_cases (p "logits" "region" 2%Z)). reflexivity.
Defined.

(** X23 on the stack of a captioning model with two layers, region
    features and logits. *)
Lemma init_layers_shape_witness :
  let p :=
    {| num_tgt_embeddings := 100; hidden_size := 8; heads := 2; num_layers := 2;
       src_embedding := (); tgt_embedding := (); queries_dropout := ();
       keys_dropout := (); values_dropout := (); label_smoothing := ();
       causal := true; logits_per_slot := 1; first_layer := "region";
       final_layer := "logits"; decoder_pos_emb := false; dataset := "captioning";
       kwargs := () |} in
  length (init_layers p) = 6 ∧
  ∀ l, init_layers p !! 1 = Some l →
       layer_kind l = Encoder ∧ layer_causal l = Some false.
Proof.
  intros p. destruct (init_layers_shape p) as (_ & _ & Hlen & Hk).
  split; [exact Hlen|]. intros l Hl.
  destruct (Hk 1 l Hl) as (_ & (He & Hc & _) & _); [simpl; lia|].
  split; [exact He|exact Hc].
Defined.

End Transformer.

(** ** The decoded order (inspect_order.py, lines 567-674) *)

Module Inspect.
Import Perm.

(** [tf.one_hot(p, depth, dtype=tf.int32)] for an integer index [p]: the
    row is all zero when [p] is outside [0 .. depth - 1]. *)
Definition tf_one_hot (p : Z) (depth : nat) : list nat :=
  (λ k, if bool_decide (Z.of_nat k = p) then 1 else 0) <$> seq 0 depth.

(** Line 576: [pos = tf.one_hot(pos, tf.shape(pos)[2], dtype=tf.int32)],
    for one element of the batch and of the beam. *)
Definition one_hot_positions (pos : list Z) : list (list nat) :=
  (λ p, tf_one_hot p (length pos)) <$> pos.

(** [tf.squeeze(tf.matmul(m, v[..., tf.newaxis]), axis=-1)]: the product
    of a matrix and a vector of as many entries as the matrix has
    columns. *)
Definition matvec (m : list (list nat)) (v : list nat) : list nat :=
  (λ row, sum_list (zip_with Nat.mul row v)) <$> m.

(** Lines 574-579: the words of [cap] in generation order. *)
Definition generation_order (rel_pos : list (list (list nat))) (cap : list nat) :
    list nat :=
  matvec (one_hot_positions (decoder_positions rel_pos)) cap.

(** [np.argmax(m, axis=0)]: for every column, the first row that holds
    the greatest value. *)
Definition np_argmax_axis0 (m : list (list nat)) : list nat :=
  (λ c, argmax ((λ row : list nat, row !!! c) <$> m)) <$> seq 0 (ncols m).

(** Line 632: [indices = np.argmax(pos[i, j].numpy(), axis=0)]. *)
Definition decoder_indices (rel_pos : list (list (list nat))) : list nat :=
  np_argmax_axis0 (one_hot_positions (decoder_positions rel_pos)).

(** [l[:k]] for a Python integer [k]: a negative [k] counts from the
    end. *)
Definition py_prefix {X : Type} (k : Z) (l : list X) : list X :=
  if decide (0 ≤ k)%Z then take (Z.to_nat k) l
  else take (length l - Z.to_nat (- k)) l.

(** Lines 591-592 and 655: [mask = cap_id != 0] and
    [seq_len = int(mask.sum()) - 1]. *)
Definition seq_len (cap_id : list nat) : Z :=
  (Z.of_nat (length (filter (λ w : nat, w ≠ 0%nat) cap_id)) - 1)%Z.

(** Lines 656-674: the edit distance between the decoder's order and a
    fixed order, both cut to [seq_len] entries. *)
Definition rank_distance (cap_id indices order : list nat) : nat :=
  Lev.levenshtein (py_prefix (seq_len cap_id) indices)
                  (py_prefix (seq_len cap_id) order).

(** Lines 770-794: [l2r_d / seq_len], the quotient of the exact numbers;
    [None] stands for the [nan] of a division of 0.0 by 0. *)
Definition normalized_distance (cap_id indices order : list nat) : option Q :=
  if decide (seq_len cap_id = 0%Z) then None
  else Some (inject_Z (Z.of_nat (rank_distance cap_id indices order))
             / inject_Z (seq_len cap_id))%Q.

(** Lines 567-603: the indices [real_i] met over the replicas, whose
    batches hold [shapes] examples. *)
Definition real_indices (shapes : list nat) : list nat :=
  (foldl (λ '(sum_capshape0, seen) shape,
            let sum_capshape0 := sum_capshape0 + shape in
            (sum_capshape0,
             seen ++ ((λ i, sum_capshape0 - shape + i) <$> seq 0 shape)))
         (0, []) shapes).2.

(** *** Positions are never negative *)

Lemma Zsum_nonneg (l : list Z) : Forall (λ x, 0 ≤ x)%Z l → (0 ≤ Zsum l)%Z.
Proof. induction 1; simpl; lia. Qed.

Lemma decoder_positions_nonneg rel_pos :
  Forall (λ p, 0 ≤ p)%Z (decoder_positions rel_pos).
Proof.
  unfold decoder_positions, reduce_sum_rows. cbv zeta.
  apply Forall_fmap, Forall_forall. intros j _. simpl.
  apply Zsum_nonneg, Forall_fmap, Forall_forall. intros row Hrow. simpl.
  apply list_elem_of_fmap in Hrow as (r & -> & _).
  rewrite list_lookup_total_alt, list_lookup_fmap.
  destruct (r !! j); simpl; [unfold relu; lia|done].
Qed.

(** *** A one-hot row picks one entry of the vector *)

Lemma one_hot_dot (p : Z) (cap : list nat) s :
  sum_list (zip_with Nat.mul
              ((λ k, if bool_decide (Z.of_nat k = p) then 1 else 0)
                 <$> seq s (length cap)) cap)
  = if decide (Z.of_nat s ≤ p < Z.of_nat s + Z.of_nat (length cap))%Z
    then cap !!! (Z.to_nat p - s) else 0.
Proof.
  revert s. induction cap as [|w cap IH]; intros s.
  - simpl. by rewrite decide_False by lia.
  - simpl length. rewrite <- cons_seq, fmap_cons. simpl zip_with. simpl sum_list.
    rewrite IH. case_bool_decide as Hp.
    + do 2 (destruct (decide _); try lia).
      replace (Z.to_nat p - s) with 0 by lia. simpl. lia.
    + do 2 (destruct (decide _); try lia).
      replace (Z.to_nat p - s) with (S (Z.to_nat p - S s)) by lia. done.
Qed.

Lemma matvec_one_hot (ps : list Z) (cap : list nat) j p :
  length cap = length ps → ps !! j = Some p →
  matvec (one_hot_positions ps) cap !! j
  = Some (if decide (0 ≤ p < Z.of_nat (length cap))%Z
          then cap !!! Z.to_nat p else 0).
Proof.
  intros Hlen Hj. unfold matvec, one_hot_positions, tf_one_hot.
  rewrite !list_lookup_fmap, Hj. simpl. f_equal.
  rewrite <- Hlen, one_hot_dot. simpl.
  rewrite Nat.sub_0_r. done.
Qed.


(** X24. The positions read off the relative positions are never
    negative; entry [j] of the generation order is the word of [cap] at
    the position of step [j], and the pad id 0 when that position is past
    the end of [cap]. *)
Theorem generation_order_gather (rel_pos : list (list (list nat)))
    (cap : list nat) (j : nat) (p : Z) :
  length cap = length (decoder_positions rel_pos) →
  decoder_positions rel_pos !! j = Some p →
  (0 ≤ p)%Z ∧
  generation_order rel_pos cap !! j
  = Some (if decide (p < Z.of_nat (length cap))%Z then cap !!! Z.to_nat p else 0).
Proof.
  intros Hlen Hj.
  assert (Hp : (0 ≤ p)%Z).
  { pose proof (decoder_positions_nonneg rel_pos) as Hn.
    rewrite Forall_lookup in Hn. by apply (Hn j). }
  split; [done|]. unfold generation_order.
  rewrite (matvec_one_hot _ _ _ _ Hlen Hj).
  do 2 (destruct (decide _); try lia); done.
Qed.

(** *** Positions that are a permutation *)

Lemma sum_list_fmap_perm (g : nat → nat) (l k : list nat) :
  l ≡ₚ k → sum_list (g <$> l) = sum_list (g <$> k).
Proof.
  induction 1 as [|x l k _ IH|x y l|l k m _ IH1 _ IH2]; [done|..].
  - rewrite !fmap_cons. simpl. by rewrite IH.
  - rewrite !fmap_cons. simpl. lia.
  - by rewrite IH1.
Qed.

Lemma lookup_total_seq (l : list nat) :
  (λ k, l !!! k) <$> seq 0 (length l) = l.
Proof.
  apply list_eq. intros i. rewrite list_lookup_fmap.
  destruct (decide (i < length l)) as [Hi|Hi].
  - rewrite lookup_seq_lt by done. simpl.
    destruct (lookup_lt_is_Some_2 l i Hi) as [x Hx].
    by rewrite (list_lookup_total_correct _ _ _ Hx).
  - rewrite lookup_seq_ge by lia. by rewrite lookup_ge_None_2 by lia.
Qed.

Section Permuted.

Variables (ps : list Z) (cap : list nat).
Hypothesis Hnonneg : Forall (λ p, 0 ≤ p)%Z ps.
Hypothesis Hperm : Z.to_nat <$> ps ≡ₚ seq 0 (length cap).

Lemma permuted_length : length cap = length ps.
Proof.
  apply Permutation_length in Hperm. by rewrite length_fmap, length_seq in Hperm.
Qed.

Lemma permuted_range j p :
  ps !! j = Some p → (0 ≤ p < Z.of_nat (length cap))%Z.
Proof.
  intros Hj. rewrite Forall_lookup in Hnonneg. pose proof (Hnonneg j p Hj).
  assert (Hin : Z.to_nat p ∈ Z.to_nat <$> ps).
  { apply list_elem_of_fmap. exists p. split; [done|]. by eapply list_elem_of_lookup_2. }
  rewrite Hperm, elem_of_seq in Hin. lia.
Qed.

Lemma matvec_permuted :
  matvec (one_hot_positions ps) cap = (λ q, cap !!! q) <$> (Z.to_nat <$> ps).
Proof.
  apply list_eq. intros j. rewrite <- list_fmap_compose, list_lookup_fmap.
  destruct (ps !! j) as [p|] eqn:Hj.
  - rewrite (matvec_one_hot _ _ _ _ permuted_length Hj). simpl.
    pose proof (permuted_range _ _ Hj). by rewrite decide_True by lia.
  - simpl. unfold matvec, one_hot_positions.
    by rewrite !list_lookup_fmap, Hj.
Qed.

Lemma matvec_permutation : matvec (one_hot_positions ps) cap ≡ₚ cap.
Proof. by rewrite matvec_permuted, Hperm, lookup_total_seq. Qed.

Lemma one_hot_column c :
  c < length ps →
  (λ row : list nat, row !!! c) <$> one_hot_positions ps
  = (λ k, if bool_decide (k = c) then 1 else 0) <$> (Z.to_nat <$> ps).
Proof.
  intros Hc. unfold one_hot_positions.
  rewrite <- !list_fmap_compose. apply list_fmap_ext. intros j p Hj. simpl.
  pose proof (permuted_range _ _ Hj).
  unfold tf_one_hot.
  rewrite (list_lookup_total_correct _ c (if bool_decide (Z.of_nat c = p) then 1 else 0))
    by (by rewrite list_lookup_fmap, lookup_seq_lt).
  repeat case_bool_decide; (done || lia).
Qed.

Lemma argmax_axis0_inverse j p :
  ps !! j = Some p →
  np_argmax_axis0 (one_hot_positions ps) !! Z.to_nat p = Some j.
Proof.
  intros Hj. pose proof (permuted_range _ _ Hj) as Hp.
  pose proof permuted_length as Hlen.
  assert (Hc : Z.to_nat p < length ps) by lia.
  unfold np_argmax_axis0.
  assert (Hn : ncols (one_hot_positions ps) = length ps).
  { unfold one_hot_positions. destruct ps as [|q qs]; [done|].
    simpl. unfold tf_one_hot. by rewrite length_fmap, length_seq. }
  rewrite Hn, list_lookup_fmap, lookup_seq_lt by done. simpl. f_equal.
  rewrite one_hot_column by done. apply argmax_one.
  - apply Forall_fmap, Forall_forall. intros k _. simpl.
    case_bool_decide; auto.
  - rewrite (sum_list_fmap_perm _ _ _ Hperm), sum_indicator_seq.
    rewrite decide_True by lia. done.
  - rewrite <- list_fmap_compose, list_lookup_fmap, Hj. simpl.
    by rewrite bool_decide_eq_true_2.
Qed.

End Permuted.

(** X25. When the positions read off the relative positions are a
    permutation of the indices of [cap], the generation order is a
    rearrangement of [cap]; [indices] (the argmax along axis 0) is the
    inverse of the positions; and the word at any place [c] of [cap] is
    found again in the generation order at step [indices[c]]. *)
Theorem decoded_order_permutation (rel_pos : list (list (list nat)))
    (cap : list nat) :
  Z.to_nat <$> decoder_positions rel_pos ≡ₚ seq 0 (length cap) →
  generation_order rel_pos cap ≡ₚ cap ∧
  (∀ j p, decoder_positions rel_pos !! j = Some p →
     decoder_indices rel_pos !! Z.to_nat p = Some j) ∧
  (∀ c w, cap !! c = Some w →
     ∃ j, decoder_indices rel_pos !! c = Some j ∧
          generation_order rel_pos cap !! j = Some w).
Proof.
  intros Hperm. pose proof (decoder_positions_nonneg rel_pos) as Hnn.
  unfold generation_order, decoder_indices.
  split; [by apply matvec_permutation|]. split.
  - intros j p Hj. by eapply argmax_axis0_inverse.
  - intros c w Hc. pose proof (lookup_lt_Some _ _ _ Hc) as Hlt.
    assert (Hin : c ∈ Z.to_nat <$> decoder_positions rel_pos)
      by (rewrite Hperm, elem_of_seq; lia).
    apply list_elem_of_fmap in Hin as (p & -> & Hin).
    apply list_elem_of_lookup_1 in Hin as [j Hj].
    exists j. split; [by eapply argmax_axis0_inverse|].
    rewrite (matvec_one_hot _ _ _ _ (permuted_length _ _ Hperm) Hj).
    pose proof (permuted_range _ _ Hnn Hperm _ _ Hj).
    rewrite decide_True by lia. f_equal.
    by apply list_lookup_total_correct.
Qed.


(** *** The indices of the examples over the replicas *)

Lemma real_indices_fold (shapes : list nat) (a : nat) :
  foldl (λ '(sum_capshape0, seen) shape,
           let sum_capshape0 := sum_capshape0 + shape in
           (sum_capshape0,
            seen ++ ((λ i, sum_capshape0 - shape + i) <$> seq 0 shape)))
        (a, seq 0 a) shapes
  = (a + sum_list shapes, seq 0 (a + sum_list shapes)).
Proof.
  revert a. induction shapes as [|shape shapes IH]; intros a.
  - simpl. by rewrite Nat.add_0_r.
  - simpl. replace (a + shape - shape) with a by lia.
    rewrite fmap_add_seq, Nat.add_0_r, <- seq_app, IH.
    by rewrite (assoc_L Nat.add).
Qed.

(** X26. Over the replicas, [real_i] runs through [0 .. total - 1] in
    order, each index once, [total] being the number of examples of all
    replicas: example [i] of replica [nzip] gets the number of examples of
    the replicas before it plus [i]. *)
Theorem real_indices_consecutive (shapes : list nat) :
  real_indices shapes = seq 0 (sum_list shapes) ∧
  ∀ nzip shape i, shapes !! nzip = Some shape → i < shape →
    real_indices shapes !! (sum_list (take nzip shapes) + i)
    = Some (sum_list (take (S nzip) shapes) - shape + i).
Proof.
  assert (H : real_indices shapes = seq 0 (sum_list shapes)).
  { exact (f_equal snd (real_indices_fold shapes 0)). }
  split; [exact H|]. intros nzip shape i Hn Hi. rewrite H.
  rewrite (take_S_r _ _ _ Hn). rewrite sum_list_with_app. simpl.
  assert (Hle : sum_list (take nzip shapes) + shape ≤ sum_list shapes).
  { rewrite <- (take_drop_middle _ _ _ Hn) at 2.
    rewrite sum_list_with_app. simpl. lia. }
  rewrite lookup_seq_lt by lia. f_equal. lia.
Qed.

(** *** The distance between rank arrays *)

Lemma py_prefix_nonneg {X : Type} (k : Z) (l : list X) :
  (0 ≤ k)%Z → py_prefix k l = take (Z.to_nat k) l.
Proof. intros Hk. unfold py_prefix. by rewrite decide_True. Qed.

(** X27. With [k] the number of ids of the caption other than the pad
    id, [seq_len] is [k - 1].  When [k] is at least 2, the edit distance
    between the two rank arrays cut to [seq_len] entries is at most
    [seq_len], and the normalized distance of lines 770-794, as the
    quotient of the exact numbers, lies between 0 and 1.  When [k] is 1,
    [seq_len] is 0, the distance is 0 and the quotient is the division of
    0.0 by 0.  When [k] is 0, [seq_len] is -1 and the slice [[:seq_len]]
    drops the last entry only. *)
Theorem rank_distance_bounded (cap_id indices order : list nat) :
  let k := length (filter (λ w : nat, w ≠ 0) cap_id) in
  (2 ≤ k →
   (1 ≤ seq_len cap_id)%Z ∧
   (Z.of_nat (rank_distance cap_id indices order) ≤ seq_len cap_id)%Z ∧
   ∃ q, normalized_distance cap_id indices order = Some q ∧ (0 <= q)%Q ∧ (q <= 1)%Q) ∧
  (k = 1 →
   seq_len cap_id = 0%Z ∧ rank_distance cap_id indices order = 0 ∧
   normalized_distance cap_id indices order = None) ∧
  (k = 0 →
   seq_len cap_id = (-1)%Z ∧
   py_prefix (seq_len cap_id) indices = take (length indices - 1) indices).
Proof.
  intros k.
  assert (Hs : seq_len cap_id = (Z.of_nat k - 1)%Z) by done.
  assert (Hd : (0 ≤ seq_len cap_id)%Z →
               (Z.of_nat (rank_distance cap_id indices order) ≤ seq_len cap_id)%Z).
  { intros Hpos. unfold rank_distance. rewrite !py_prefix_nonneg by done.
    pose proof (Lev.levenshtein_le_max
                  (take (Z.to_nat (seq_len cap_id)) indices)
                  (take (Z.to_nat (seq_len cap_id)) order)) as Hb.
    rewrite !length_take in Hb. lia. }
  split; [|split].
  - intros Hk. split; [lia|]. split; [apply Hd; lia|].
    unfold normalized_distance. rewrite decide_False by lia.
    eexists. split; [done|].
    assert (Hq : (0 < inject_Z (seq_len cap_id))%Q).
    { change 0%Q with (inject_Z 0). rewrite <- Zlt_Qlt. lia. }
    split.
    + apply Qle_shift_div_l; [done|]. rewrite Qmult_0_l.
      change 0%Q with (inject_Z 0). rewrite <- Zle_Qle. lia.
    + apply Qle_shift_div_r; [done|]. rewrite Qmult_1_l.
      rewrite <- Zle_Qle. apply Hd. lia.
  - intros Hk. assert (H0 : seq_len cap_id = 0%Z) by lia.
    split; [done|]. split; [pose proof (Hd ltac:(lia)); lia|].
    unfold normalized_distance. by rewrite decide_True.
  - intros Hk. assert (H1 : seq_len cap_id = (-1)%Z) by lia.
    split; [done|]. rewrite H1. unfold py_prefix.
    rewrite decide_False by lia. done.
Qed.


(** The relative positions of the order [0 2 1 3] of four steps, and a
    caption of three words for the steps after the first. *)
Definition demo_rel_pos : list (list (list nat)) :=
  [[[0; 1; 0]; [0; 0; 1]; [0; 0; 1]; [0; 0; 1]];
   [[1; 0; 0]; [0; 1; 0]; [1; 0; 0]; [0; 0; 1]];
   [[1; 0; 0]; [0; 0; 1]; [0; 1; 0]; [0; 0; 1]];
   [[1; 0; 0]; [1; 0; 0]; [1; 0; 0]; [0; 1; 0]]].

Lemma generation_order_gather_witness :
  decoder_positions demo_rel_pos = [1; 0; 2]%Z ∧
  generation_order demo_rel_pos [10; 11; 12] !! 0 = Some 11.
Proof.
  split; [reflexivity|].
  apply (generation_order_gather demo_rel_pos [10; 11; 12] 0 1); reflexivity.
Defined.

Lemma decoded_order_permutation_witness :
  generation_order demo_rel_pos [10; 11; 12] ≡ₚ [10; 11; 12] ∧
  generation_order demo_rel_pos [10; 11; 12] = [11; 10; 12] ∧
  decoder_indices demo_rel_pos = [1; 0; 2].
Proof.
  split; [|split; reflexivity].
  apply (decoded_order_permutation demo_rel_pos [10; 11; 12]).
  exact (perm_swap 0 1 [2]).
Defined.

Lemma real_indices_consecutive_witness :
  real_indices [2; 3] = [0; 1; 2; 3; 4] ∧ real_indices [2; 3] !! (2 + 1) = Some 3.
Proof.
  split; [reflexivity|].
  apply (proj2 (real_indices_consecutive [2; 3]) 1 3 1); [reflexivity|lia].
Defined.

Lemma rank_distance_bounded_witness :
  Z.le (Z.of_nat (rank_distance [5; 6; 3; 0] [1; 0; 2] [0; 1; 2]))
       (seq_len [5; 6; 3; 0]) ∧
  rank_distance [5; 6; 3; 0] [1; 0; 2] [0; 1; 2] = 2 ∧ seq_len [5; 6; 3; 0] = 2%Z ∧
  normalized_distance [3; 0; 0] [1; 0; 2] [0; 1; 2] = None.
Proof.
  split; [|split; [|split]]; [|reflexivity..].
  apply (rank_distance_bounded [5; 6; 3; 0] [1; 0; 2] [0; 1; 2]).
  simpl. lia.
Defined.

End Inspect.
